(** * ESG standards bot: the fuzzy search engine and the telemetry buffer

    A shallow embedding of the core of [esg_bot.py]: the match scorer
    [fuzz_score], the query expander [expand_query], the document searcher
    [search_json], the aggregator [search_standard] and the buffered logger
    [GoogleSheetsLogger].

    Conventions of the embedding.
    - A Python [str] is a [string] of 8-bit characters; [str.lower] and
      [str.split] act on the ASCII range.
    - A Python number that may be an [int] or a [float] (the fuzzy score) is
      an exact rational [Q]; [int(x)] truncates towards zero.
    - A [dict] whose iteration order is observed is an association list in
      insertion order; the corpus table, which is only looked up, is a
      [gmap].
    - [list(set(xs))] enumerates the distinct members of [xs] in an order
      that Python does not fix (string hashing is seeded per process); the
      order is a parameter [set_order] of the development. *)

From Stdlib Require Import ZArith QArith Qround Lia Ascii String.
From Stdlib Require Import DecimalString Sorting.Sorted Permutation.
From stdpp Require Import base tactics option list sorting gmap strings.

Local Open Scope Z_scope.

(* ===================================================================== *)
(** * Strings *)
(* ===================================================================== *)

Module Str.

(** [c.lower()] on one ASCII character. *)
Definition lower_char (c : ascii) : ascii :=
  let n := nat_of_ascii c in
  if ((65 <=? n)%nat && (n <=? 90)%nat)%bool then ascii_of_nat (n + 32) else c.

(** [s.lower()] *)
Fixpoint lower (s : string) : string :=
  match s with
  | EmptyString => EmptyString
  | String c s' => String (lower_char c) (lower s')
  end.

(** [s.startswith(p)] *)
Fixpoint startswith (p s : string) : bool :=
  match p, s with
  | EmptyString, _ => true
  | String a p', String b s' => if decide (a = b) then startswith p' s' else false
  | String _ _, EmptyString => false
  end.

(** [needle in hay] *)
Fixpoint contains (needle hay : string) : bool :=
  startswith needle hay ||
  match hay with
  | EmptyString => false
  | String _ hay' => contains needle hay'
  end.

(** The characters [str.split()] treats as separators (ASCII range). *)
Definition isspace (c : ascii) : bool :=
  let n := nat_of_ascii c in
  ((9 <=? n)%nat && (n <=? 13)%nat) || ((28 <=? n)%nat && (n <=? 32)%nat).

Definition flush_word (word : string) : list string :=
  match word with
  | EmptyString => []
  | _ => [word]
  end.

(** [s.split()]: the maximal runs of non-separator characters. [word] is
    the run being read. *)
Fixpoint split_from (word s : string) : list string :=
  match s with
  | EmptyString => flush_word word
  | String c s' =>
      if isspace c then flush_word word ++ split_from EmptyString s'
      else split_from (word +:+ String c EmptyString) s'
  end.

Definition split (s : string) : list string := split_from EmptyString s.

(** [str(i)] for a list index. *)
Definition of_nat (i : nat) : string := NilEmpty.string_of_uint (Nat.to_uint i).

(** [str(z)] for an integer. *)
Definition of_Z (z : Z) : string := NilZero.string_of_int (Z.to_int z).

(** [s[:n]] for a non-negative constant [n]. *)
Fixpoint prefix_n (n : nat) (s : string) : string :=
  match n, s with
  | O, _ => EmptyString
  | S n', String c s' => String c (prefix_n n' s')
  | S _, EmptyString => EmptyString
  end.

End Str.

(** No character of [w] is a separator. *)
Definition no_space (w : string) : Prop :=
  Forall (λ c, Str.isspace c = false) (list_ascii_of_string w).

(** [needle] occurs in [hay]. *)
Definition is_substring (needle hay : string) : Prop :=
  ∃ pre post, hay = pre +:+ needle +:+ post.

(* ===================================================================== *)
(** * Numbers *)
(* ===================================================================== *)

(** [int(x)]: truncation towards zero. *)
Definition py_int (x : Q) : Z := Z.quot (Qnum x) (Zpos (Qden x)).

(** [a > b] on numbers. *)
Definition Qgtb (a b : Q) : bool := negb (Qle_bool a b).

#[global] Instance Qlt_dec : RelDecision Qlt.
Proof.
  intros a b. destruct (Qlt_le_dec a b) as [H|H]; [by left | right].
  by apply Qle_not_lt.
Defined.

(** [normalize_score(raw_score)] *)
Definition normalize_score (raw_score : Q) : Z :=
  Z.min 100 (Z.max 0 (py_int (raw_score * 100 / 130))).

(** The aggregator's rescaling as the specification words it:
    [clamp(0, 100, raw * 100 / 130)], the quotient taken as a whole number. *)
Definition clamp (lo hi x : Z) : Z :=
  if x <? lo then lo else if hi <? x then hi else x.

Definition spec_normalized (raw : Q) : Z :=
  clamp 0 100 (py_int (raw * 100 / 130)).

(* ===================================================================== *)
(** * Corpora and the document searcher *)
(* ===================================================================== *)

(** A value produced by [json.load]. The members of an object are kept in
    document order, which is the order [dict.items()] yields them in. *)
#[warnings="-register-all"]
Inductive json : Type :=
  | JNull
  | JBool (b : bool)
  | JNum (x : Q)
  | JStr (s : string)
  | JArr (items : list json)
  | JObj (members : list (string * json)).

(** Induction over documents, with the hypothesis available for every
    element of an array and every member of an object. *)
Fixpoint json_nested_ind (P : json → Prop)
    (HNull : P JNull) (HBool : ∀ b, P (JBool b)) (HNum : ∀ x, P (JNum x))
    (HStr : ∀ s, P (JStr s))
    (HArr : ∀ elems, Forall P elems → P (JArr elems))
    (HObj : ∀ members, Forall (λ kv, P kv.2) members → P (JObj members))
    (obj : json) {struct obj} : P obj :=
  let rec := json_nested_ind P HNull HBool HNum HStr HArr HObj in
  match obj with
  | JNull => HNull
  | JBool b => HBool b
  | JNum x => HNum x
  | JStr s => HStr s
  | JArr elems =>
      HArr elems
        ((fix all (l : list json) : Forall P l :=
            match l with
            | [] => @List.Forall_nil _ P
            | x :: l' => @List.Forall_cons _ P x l' (rec x) (all l')
            end) elems)
  | JObj members =>
      HObj members
        ((fix all (l : list (string * json)) : Forall (λ kv, P kv.2) l :=
            match l with
            | [] => @List.Forall_nil _ _
            | kv :: l' => @List.Forall_cons _ (λ kv, P kv.2) kv l' (rec kv.2) (all l')
            end) members)
  end.

(** The tuple [(score, path, content, depth)] of [search_json]. *)
Record Match := mkMatch {
  m_score : Q;
  m_path : string;
  m_content : json;
  m_depth : Z
}.

(** The tuple [(score, path, content, depth, std)] of [search_standard]. *)
Record Ranked := mkRanked {
  r_score : Z;
  r_path : string;
  r_content : json;
  r_depth : Z;
  r_std : string
}.

(** Position of the first occurrence of a path in the order the paths were
    found. *)
Fixpoint first_index (p : string) (paths : list string) : option nat :=
  match paths with
  | [] => None
  | x :: rest => if decide (x = p) then Some 0%nat else S <$> first_index p rest
  end.

(** [p] was first found before [q] was. *)
Definition discovered_before (p q : string) (paths : list string) : Prop :=
  ∃ i j, first_index p paths = Some i ∧ first_index q paths = Some j ∧ (i < j)%nat.

(** [a] stands somewhere to the left of [b]. *)
Definition before {A} (a b : A) (l : list A) : Prop :=
  ∃ l1 l2 l3, l = l1 ++ a :: l2 ++ b :: l3.

(** The order [search_standard] ranks in: larger scores first. *)
Definition by_score_desc (a b : Ranked) : Prop := r_score b ≤ r_score a.

(** [order] enumerates a set the way [list(set(xs))] does: every member
    once, in some order. *)
Definition set_enumeration (order : list string → list string) : Prop :=
  ∀ xs, NoDup (order xs) ∧ ∀ x, x ∈ order xs ↔ x ∈ xs.

Section Search.

(** [rapidfuzz.fuzz.partial_ratio], an imported metric. *)
Variable partial_ratio : string → string → Q.

(** [fuzz_score(a, b)], the value it computes; the memo table in front of
    it is modelled in the section [Scorer] below. *)
Definition fuzz_score (a b : string) : Q :=
  partial_ratio (Str.lower a) (Str.lower b).

(** [f"{path} > {key}" if path else key] *)
Definition key_path (path key : string) : string :=
  match path with
  | EmptyString => key
  | _ => path +:+ " > " +:+ key
  end.

(** [f"{path}[{i}]"] *)
Definition index_path (path : string) (i : nat) : string :=
  path +:+ "[" +:+ Str.of_nat i +:+ "]".

(** [search_json(obj, query, path, depth, max_depth)] *)
Fixpoint search_json (obj : json) (query path : string) (depth max_depth : Z)
    {struct obj} : list Match :=
  if depth >? max_depth then []
  else
    match obj with
    | JObj members =>
        (fix items (kvs : list (string * json)) : list Match :=
           match kvs with
           | [] => []
           | (key, value) :: rest =>
               let new_path := key_path path key in
               let key_score := fuzz_score query key in
               (if Qgtb key_score 70
                then [mkMatch (key_score + 20) new_path value depth]
                else [])
               ++ search_json value query new_path (depth + 1) max_depth
               ++ items rest
           end) members
    | JArr elems =>
        (fix enumerate (i : nat) (l : list json) : list Match :=
           match l with
           | [] => []
           | item :: rest =>
               search_json item query (index_path path i) depth max_depth
               ++ enumerate (S i) rest
           end) 0%nat elems
    | JStr s =>
        let text_score := fuzz_score query s in
        if Qgtb text_score 75
        then [mkMatch (text_score + 10) path obj depth]
        else []
    | _ => []
    end.

(** What one member of an object contributes: the key match, if the key
    scores above 70, then the matches found in the value one level
    deeper. *)
Definition member_matches (query path : string) (depth max_depth : Z)
    (member : string * json) : list Match :=
  let '(key, value) := member in
  (if decide (70 < fuzz_score query key)%Q
   then [mkMatch (fuzz_score query key + 20) (key_path path key) value depth]
   else [])
  ++ search_json value query (key_path path key) (depth + 1) max_depth.

(** What the element at position [i] of an array contributes. *)
Definition element_matches (query path : string) (depth max_depth : Z)
    (i : nat) (item : json) : list Match :=
  search_json item query (index_path path i) depth max_depth.

(** ** The query expander *)

(** [CONCEPTS]: topic phrase to synonyms, in the order [items()] yields. *)
Variable CONCEPTS : list (string * list string).

(** [list(set(xs))] *)
Variable set_order : list string → list string.

Definition trigger_words : list string := ["standard"; "framework"; "compare"].

Definition framework_names : list string := ["esrs"; "gri"; "sasb"; "iso"; "brsr"].

(** The list [expanded] that [expand_query] builds before it is turned
    into a set. *)
Definition expanded (query : string) : list string :=
  let q := Str.lower query in
  [q]
  ++ flat_map (λ '(concept, synonyms),
                 if Str.contains concept q then synonyms else []) CONCEPTS
  ++ (if existsb (λ w, Str.contains w q) trigger_words
      then framework_names else [])
  ++ List.filter (λ word, (3 <? String.length word)%nat) (Str.split q).

(** [expand_query(query)] *)
Definition expand_query (query : string) : list string :=
  set_order (expanded query).

(** ** The aggregator *)

(** [STANDARDS]: corpus name to document. *)
Variable STANDARDS : gmap string json.

(** [xs[:n]] for an integer [n]: a negative bound counts from the end. *)
Definition py_take {A} (n : Z) (xs : list A) : list A :=
  if n <? 0 then take (length xs - Z.to_nat (- n)) xs
  else take (Z.to_nat n) xs.

(** The list [all_results] after the loop over the first two variants. *)
Definition all_results (standard_name : string) (corpus : json)
    (queries : list string) : list Ranked :=
  flat_map (λ q,
    map (λ m, mkRanked (normalize_score (m_score m)) (m_path m)
                       (m_content m) (m_depth m) standard_name)
        (search_json corpus q "" 0 6))
    (py_take 2 queries).

(** The value [(score, content, depth, std)] kept under a path. *)
Definition Best : Type := Z * json * Z * string.

Definition best_of (r : Ranked) : Best :=
  (r_score r, r_content r, r_depth r, r_std r).

(** [(score, path, content, depth, std)] for an item of
    [best_by_path.items()]. *)
Definition ranked_of (item : string * Best) : Ranked :=
  let '(path, (score, content, depth, std)) := item in
  mkRanked score path content depth std.

(** [path in best_by_path] and [best_by_path[path]] *)
Fixpoint dict_get (d : list (string * Best)) (path : string) : option Best :=
  match d with
  | [] => None
  | (k, v) :: d' => if decide (k = path) then Some v else dict_get d' path
  end.

(** [best_by_path[path] = v]: an existing key keeps its position, a new
    key goes last. *)
Fixpoint dict_set (d : list (string * Best)) (path : string) (v : Best)
    : list (string * Best) :=
  match d with
  | [] => [(path, v)]
  | (k, w) :: d' =>
      if decide (k = path) then (k, v) :: d' else (k, w) :: dict_set d' path v
  end.

(** One turn of the deduplication loop. *)
Definition dedup_step (best_by_path : list (string * Best)) (r : Ranked)
    : list (string * Best) :=
  match dict_get best_by_path (r_path r) with
  | None => dict_set best_by_path (r_path r) (best_of r)
  | Some (best_score, _, _, _) =>
      if best_score <? r_score r
      then dict_set best_by_path (r_path r) (best_of r)
      else best_by_path
  end.

Definition dedup (results : list Ranked) : list (string * Best) :=
  fold_left dedup_step results [].

(** What the table [best_by_path] holds after the loop has consumed
    [results]. *)
Record dedup_inv (results : list Ranked) (d : list (string * Best)) : Prop := {
  inv_nodup : NoDup d.*1;
  inv_keys : ∀ p, p ∈ d.*1 ↔ p ∈ r_path <$> results;
  inv_order : ∀ p q, before p q d.*1 → discovered_before p q (r_path <$> results);
  inv_best : ∀ p v, (p, v) ∈ d →
    ∃ r, r ∈ results ∧ r_path r = p ∧ best_of r = v
         ∧ ∀ m, m ∈ results → r_path m = p → r_score m ≤ r_score r
}.

(** [xs.sort(key=lambda x: x[0], reverse=True)]: a stable sort, larger
    scores first. [sort_insert] puts [x] after the entries that score
    more and before those that score the same or less. *)
Fixpoint sort_insert (x : Ranked) (sorted : list Ranked) : list Ranked :=
  match sorted with
  | [] => [x]
  | y :: rest =>
      if r_score x <? r_score y then y :: sort_insert x rest
      else x :: sorted
  end.

Definition sort_by_score (xs : list Ranked) : list Ranked :=
  foldr sort_insert [] xs.

(** [search_standard(standard_name, query, limit)] *)
Definition search_standard (standard_name query : string) (limit : Z)
    : list Ranked :=
  match STANDARDS !! standard_name with
  | None => []
  | Some corpus =>
      let queries := expand_query query in
      let best_by_path := dedup (all_results standard_name corpus queries) in
      let sorted_results := sort_by_score (map ranked_of best_by_path) in
      py_take limit sorted_results
  end.

(** Everything the traversals of one call find, in the order they find it:
    the list [all_results] of that call. *)
Definition discovered (standard_name query : string) : list Ranked :=
  match STANDARDS !! standard_name with
  | Some corpus => all_results standard_name corpus (expand_query query)
  | None => []
  end.

End Search.

(** The concept table [load_standards] falls back to when [concepts.json]
    cannot be read. *)
Definition default_concepts : list (string * list string) :=
  [ ("scope 3", ["scope 3"; "indirect emissions"; "value chain"]);
    ("scope 2", ["scope 2"; "purchased electricity"]);
    ("scope 1", ["scope 1"; "direct emissions"]);
    ("emissions", ["emissions"; "ghg"; "carbon"; "co2"]);
    ("biodiversity", ["biodiversity"; "ecosystem"; "habitat"]);
    ("water", ["water"; "withdrawal"; "consumption"]);
    ("waste", ["waste"; "recycling"; "disposal"]);
    ("human rights", ["human rights"; "labor rights"]);
    ("diversity", ["diversity"; "inclusion"; "equity"]);
    ("governance", ["governance"; "board"; "ethics"]);
    ("risk", ["risk"; "management"; "mitigation"]);
    ("supply chain", ["supply chain"; "procurement"; "vendor"]) ].

(** A one-corpus table for examples: the document of the specification's
    end-to-end example, loaded under the name ESRS. *)
Definition sample_corpus : json :=
  JObj [("Emissions",
         JObj [("Scope 3", JStr "value chain indirect emissions disclosure")])].

Definition sample_standards : gmap string json := {[ "ESRS" := sample_corpus ]}.

(** Two ways to enumerate a set of strings: by last occurrence in the list
    it was built from, and the same backwards. *)
Definition order_forward (xs : list string) : list string := remove_dups xs.
Definition order_backward (xs : list string) : list string :=
  reverse (remove_dups xs).

(** A third way: the first two as [order_forward] yields them, the others
    backwards. *)
Definition order_tail_backward (xs : list string) : list string :=
  take 2 (remove_dups xs) ++ reverse (drop 2 (remove_dups xs)).

(* ===================================================================== *)
(** * The memo table in front of the scorer *)
(* ===================================================================== *)

Section Scorer.

Variable partial_ratio : string → string → Q.

(** [@lru_cache(maxsize=5000)] *)
Definition maxsize : nat := 5000.

(** The table, most recently used entry first, and [cache_stats["hits"]]. *)
Record ScorerState := mkScorer {
  cache : list (string * string * Q);
  hits : Z
}.

Definition scorer_init : ScorerState := mkScorer [] 0.

Fixpoint cache_find (c : list (string * string * Q)) (a b : string) : option Q :=
  match c with
  | [] => None
  | (a', b', v) :: c' =>
      if decide (a' = a ∧ b' = b) then Some v else cache_find c' a b
  end.

Fixpoint cache_drop (c : list (string * string * Q)) (a b : string)
    : list (string * string * Q) :=
  match c with
  | [] => []
  | (a', b', v) :: c' =>
      if decide (a' = a ∧ b' = b) then c' else (a', b', v) :: cache_drop c' a b
  end.

(** Every stored value is the value of the function at its key. *)
Definition cache_ok (c : list (string * string * Q)) : Prop :=
  ∀ a b v, (a, b, v) ∈ c → v = fuzz_score partial_ratio a b.

(** A call of the decorated [fuzz_score]: a stored pair is answered from
    the table and becomes the most recent entry; otherwise the body runs
    (it counts the call in [cache_stats]) and its value is stored, the
    least recently used entry making room in a full table. *)
Definition fuzz_score_call (st : ScorerState) (a b : string) : Q * ScorerState :=
  match cache_find (cache st) a b with
  | Some v => (v, mkScorer ((a, b, v) :: cache_drop (cache st) a b) (hits st))
  | None =>
      let v := fuzz_score partial_ratio a b in
      (v, mkScorer ((a, b, v) :: take (maxsize - 1) (cache st)) (hits st + 1))
  end.

(** A sequence of calls, with the values they return. *)
Fixpoint fuzz_score_calls (st : ScorerState) (calls : list (string * string))
    : list Q * ScorerState :=
  match calls with
  | [] => ([], st)
  | (a, b) :: rest =>
      let '(v, st') := fuzz_score_call st a b in
      let '(vs, st'') := fuzz_score_calls st' rest in
      (v :: vs, st'')
  end.

End Scorer.

(* ===================================================================== *)
(** * The partial-ratio metric *)
(* ===================================================================== *)

Module Metric.

(** Length of a longest common subsequence, by its defining recurrence. *)
Fixpoint lcs_rec (s t : list ascii) : nat :=
  match s with
  | [] => 0%nat
  | a :: s' =>
      (fix scan (t : list ascii) : nat :=
         match t with
         | [] => 0%nat
         | b :: t' =>
             if decide (a = b) then S (lcs_rec s' t')
             else Nat.max (lcs_rec s' t) (scan t')
         end) t
  end.

(** The same by rows: [lcs_rows s t] lists the value for [s] against
    every suffix of [t], the whole of [t] first and the empty suffix
    last; [lcs_step] derives the row of [a :: s] from the row of [s]. *)
Fixpoint lcs_step (a : ascii) (t : list ascii) (prev : list nat) : list nat :=
  match t, prev with
  | b :: t', up :: prev' =>
      let rest := lcs_step a t' prev' in
      (if decide (a = b) then S (hd 0%nat prev')
       else Nat.max up (hd 0%nat rest)) :: rest
  | _, _ => [0%nat]
  end.

Fixpoint lcs_rows (s t : list ascii) : list nat :=
  match s with
  | [] => repeat 0%nat (S (length t))
  | a :: s' => lcs_step a t (lcs_rows s' t)
  end.

Definition lcs (s t : list ascii) : nat := hd 0%nat (lcs_rows s t).

(** Similarity of two sequences as a whole percentage of their total
    length. *)
Definition ratio (s t : list ascii) : Z :=
  (200 * Z.of_nat (lcs s t)) / Z.of_nat (length s + length t).

(** The windows of [t] of length [m], left to right. *)
Fixpoint windows (m : nat) (t : list ascii) : list (list ascii) :=
  if (length t <? m)%nat then []
  else take m t :: match t with
                   | [] => []
                   | _ :: t' => windows m t'
                   end.

Definition best (scores : list Z) : Z := foldr Z.max 0 scores.

(** Modelled from the spec: [rapidfuzz.fuzz.partial_ratio] is an imported
    library function whose code is not part of the repository. The
    specification describes the scorer as a standard partial-ratio
    similarity giving an integer in [0, 100], with 0 for degenerate
    (empty) inputs: the shorter string is compared with every window of
    its length in the longer one and the best similarity is returned. *)
Definition partial_ratio (a b : string) : Z :=
  let s := list_ascii_of_string a in
  let t := list_ascii_of_string b in
  match s, t with
  | [], _ | _, [] => 0
  | _, _ =>
      if (length s <=? length t)%nat
      then best (map (ratio s) (windows (length s) t))
      else best (map (ratio t) (windows (length t) s))
  end.

(** The metric as the number the search engine consumes. *)
Definition score (a b : string) : Q := inject_Z (partial_ratio a b).

End Metric.


(** The suffixes of a sequence, the whole sequence first. *)
Fixpoint suffixes (t : list ascii) : list (list ascii) :=
  t :: match t with
       | [] => []
       | _ :: t' => suffixes t'
       end.

(* ===================================================================== *)
(** * The telemetry buffer *)
(* ===================================================================== *)

Module Telemetry.

(** One buffered row: timestamp, query, language, framework, confidence,
    path. *)
Definition Row : Type := list string.

(** The fields of [GoogleSheetsLogger] that the logging path reads or
    writes, followed by the two sinks, each as the batches it was handed:
    [sheet_calls] are the calls of [sheet.append_rows], [csv_calls] those
    of [_write_to_csv], oldest first. [sheet] is [true] while the
    worksheet handle is set and [false] when it is [None]. *)
Record Logger := mkLogger {
  enabled : bool;
  sheet : bool;
  buffer : list Row;
  last_flush_time : Q;
  flush_count : Z;
  sheet_calls : list (list Row);
  csv_calls : list (list Row)
}.

Definition buffer_size : nat := 5.
Definition min_flush_interval : Q := 5.
Definition csv_fallback : bool := true.

(** [__init__]: [sheet_connected] tells whether [_initialize_sheet]
    obtained a worksheet; it is only attempted when logging is enabled. *)
Definition init (sheets_enabled sheet_connected : bool) : Logger :=
  mkLogger sheets_enabled (sheets_enabled && sheet_connected) [] 0 0 [] [].

(** [xs[-n:]] for a positive constant [n]. *)
Definition last_n {A} (n : nat) (xs : list A) : list A :=
  drop (length xs - n) xs.

(** The arguments of one [log_query] call, with the two clock readings it
    makes: [current_time] is [time.time()] and [stamp] the formatted
    [datetime.now()]. *)
Record LogCall := mkLogCall {
  current_time : Q;
  stamp : string;
  query : string;
  language : string;
  framework : string;
  confidence : Z;
  path : string
}.

Definition row_of (c : LogCall) : Row :=
  [ stamp c;
    Str.prefix_n 80 (query c);
    language c;
    Str.prefix_n 20 (framework c);
    Str.of_Z (confidence c);
    Str.prefix_n 30 (path c) ].

(** A call for examples, made at clock reading [t]. *)
Definition sample_call (t : Q) : LogCall :=
  mkLogCall t "2025-01-01 00:00:00" "scope 3" "en" "ESRS" 92 "Emissions > Scope 3".

(** [log_query]. The result also tells whether a flush thread was
    started. *)
Definition log_query (st : Logger) (c : LogCall) : Logger * bool :=
  if negb (enabled st) then (st, false)
  else
    let time_since_last_flush := (current_time c - last_flush_time st)%Q in
    let kept :=
      if (50 <? length (buffer st))%nat then last_n 25 (buffer st)
      else buffer st in
    let buffer' := kept ++ [row_of c] in
    if ((buffer_size <=? length buffer')%nat
        && Qle_bool min_flush_interval time_since_last_flush)%bool
    then (mkLogger (enabled st) (sheet st) buffer' (current_time c)
                   (flush_count st) (sheet_calls st) (csv_calls st), true)
    else (mkLogger (enabled st) (sheet st) buffer' (last_flush_time st)
                   (flush_count st) (sheet_calls st) (csv_calls st), false).

(** [_flush_buffer]. [append_ok] is the outcome of [sheet.append_rows]
    should it be called: [false] when it raises. *)
Definition _flush_buffer (st : Logger) (append_ok : bool) : Logger :=
  match buffer st with
  | [] => st
  | _ =>
      let buffer_to_write := buffer st in
      if sheet st then
        if append_ok then
          mkLogger (enabled st) true [] (last_flush_time st)
                   (flush_count st + 1)
                   (sheet_calls st ++ [buffer_to_write]) (csv_calls st)
        else
          mkLogger (enabled st) false [] (last_flush_time st)
                   (flush_count st)
                   (sheet_calls st ++ [buffer_to_write])
                   (if csv_fallback then csv_calls st ++ [buffer_to_write]
                    else csv_calls st)
      else
        mkLogger (enabled st) (sheet st) [] (last_flush_time st)
                 (flush_count st) (sheet_calls st)
                 (if csv_fallback then csv_calls st ++ [buffer_to_write]
                  else csv_calls st)
  end.

(** What happens to a logger over time: handlers call [log_query]; the
    timer thread and the threads [log_query] starts call
    [_flush_buffer]. Each call is one atomic step. *)
Inductive event : Type :=
  | Log (c : LogCall)
  | Flush (append_ok : bool).

Definition step (st : Logger) (e : event) : Logger :=
  match e with
  | Log c => fst (log_query st c)
  | Flush ok => _flush_buffer st ok
  end.

Definition run (st : Logger) (trace : list event) : Logger :=
  fold_left step trace st.

(** For each [log_query] call of a trace, whether it started a flush
    thread. *)
Fixpoint flush_starts (st : Logger) (trace : list event) : list bool :=
  match trace with
  | [] => []
  | e :: rest =>
      match e with
      | Log c => [snd (log_query st c)]
      | Flush _ => []
      end ++ flush_starts (step st e) rest
  end.

(** The rows the [log_query] calls of a trace put into the buffer of an
    enabled logger. *)
Definition logged (trace : list event) : list Row :=
  flat_map (λ e, match e with Log c => [row_of c] | Flush _ => [] end) trace.

(** Number of times a row occurs. *)
Definition occurrences (r : Row) (rows : list Row) : nat :=
  length (List.filter (λ r', bool_decide (r' = r)) rows).

End Telemetry.

(* ===================================================================== *)
(** * More string operations *)
(* ===================================================================== *)

Module Text.

(** [s.lstrip()] *)
Fixpoint lstrip (s : string) : string :=
  match s with
  | EmptyString => EmptyString
  | String c s' => if Str.isspace c then lstrip s' else s
  end.

(** [s.rstrip()] *)
Fixpoint rstrip (s : string) : string :=
  match s with
  | EmptyString => EmptyString
  | String c s' =>
      match rstrip s' with
      | EmptyString => if Str.isspace c then EmptyString else String c EmptyString
      | kept => String c kept
      end
  end.

(** [s.strip()] *)
Definition strip (s : string) : string := rstrip (lstrip s).

(** [sep.join(parts)] *)
Fixpoint join (sep : string) (parts : list string) : string :=
  match parts with
  | [] => EmptyString
  | [part] => part
  | part :: rest => part +:+ sep +:+ join sep rest
  end.

(** [s.replace(old, new)] for a one-character [old]. *)
Fixpoint replace (old : ascii) (new : string) (s : string) : string :=
  match s with
  | EmptyString => EmptyString
  | String c s' =>
      if decide (c = old) then new +:+ replace old new s'
      else String c (replace old new s')
  end.

(** Number of occurrences of a character: [s.count(c)]. *)
Fixpoint count (c : ascii) (s : string) : nat :=
  match s with
  | EmptyString => 0%nat
  | String c' s' => ((if decide (c' = c) then 1 else 0) + count c s')%nat
  end.

(** [s.split(sep)] for a one-character separator: what a reader of a
    delimited line gets back. *)
Fixpoint split_on (sep : ascii) (s : string) : list string :=
  match s with
  | EmptyString => [EmptyString]
  | String c s' =>
      if decide (c = sep) then EmptyString :: split_on sep s'
      else match split_on sep s' with
           | field :: fields => String c field :: fields
           | [] => [String c EmptyString]
           end
  end.

End Text.

(** The character [c] does not occur in [s]. *)
Definition lacks (c : ascii) (s : string) : Prop := Text.count c s = 0%nat.

(** First and last character of a string, when it has one. *)
Definition first_char (s : string) : option ascii :=
  match s with
  | EmptyString => None
  | String c _ => Some c
  end.

Fixpoint last_char (s : string) : option ascii :=
  match s with
  | EmptyString => None
  | String c EmptyString => Some c
  | String _ s' => last_char s'
  end.

(* ===================================================================== *)
(** * What the handlers show *)
(* ===================================================================== *)

Module Display.

Section Extract.

(** [str(x)] for a JSON number. *)
Variable str_number : Q → string.

Definition preferred_keys : list string :=
  ["text"; "description"; "content"; "requirement"; "definition"].

(** [value[key]] when [key in value]. *)
Fixpoint obj_get (members : list (string * json)) (key : string) : option json :=
  match members with
  | [] => None
  | (k, v) :: rest => if decide (k = key) then Some v else obj_get rest key
  end.

(** [[str(v).strip() for v in values if isinstance(v, str)]] *)
Fixpoint stripped_strings (values : list json) : list string :=
  match values with
  | [] => []
  | JStr s :: rest => Text.strip s :: stripped_strings rest
  | _ :: rest => stripped_strings rest
  end.

(** The loop over the preferred keys. *)
Definition preferred_texts (members : list (string * json)) : list string :=
  flat_map (λ key, match obj_get members key with
                   | Some (JStr s) => [Text.strip s]
                   | _ => []
                   end) preferred_keys.

(** [extract_text(value)] *)
Definition extract_text (value : json) : string :=
  match value with
  | JStr s => Text.strip s
  | JObj members =>
      let texts := preferred_texts members in
      let texts := match texts with
                   | [] => stripped_strings (map snd members)
                   | _ => texts
                   end in
      Str.prefix_n 300 (Text.join " | " texts)
  | JArr items => Str.prefix_n 300 (Text.join " | " (stripped_strings items))
  | JNull => "None"
  | JBool true => "True"
  | JBool false => "False"
  | JNum x => str_number x
  end.

(** [if len(t) > n: t = t[:n] + "..."], as the handlers shorten the
    extracted text ([n] is 200 in [handle_standard], 150 in
    [handle_text]). *)
Definition shorten (n : nat) (t : string) : string :=
  if (n <? String.length t)%nat then Str.prefix_n n t +:+ "..." else t.

Definition display_content (n : nat) (content : json) : string :=
  shorten n (extract_text content).

End Extract.

(** The four confidence labels of [handle_standard]. *)
Inductive Confidence : Type := Excellent | High | Good | Relevant.

(** The [if score > 90 ... elif score > 75 ... elif score > 60 ... else]
    chain of [handle_standard]. *)
Definition confidence (score : Z) : Confidence :=
  if 90 <? score then Excellent
  else if 75 <? score then High
  else if 60 <? score then Good
  else Relevant.

(** The three indicators of [map_command]. *)
Inductive Indicator : Type := Check | Lens | Memo.

(** The [if score > 75 ... elif score > 60 ... else] chain of
    [map_command]. *)
Definition indicator (score : Z) : Indicator :=
  if 75 <? score then Check
  else if 60 <? score then Lens
  else Memo.

End Display.

(* ===================================================================== *)
(** * The handlers' use of the search *)
(* ===================================================================== *)

Section Handlers.

Variable partial_ratio : string → string → Q.
Variable CONCEPTS : list (string * list string).
Variable set_order : list string → list string.
Variable STANDARDS : gmap string json.
Variable str_number : Q → string.

(** The list [["ESRS", "GRI", "SASB", "ISO", "BRSR"]] that [handle_text]
    and [map_command] loop over. *)
Definition frameworks : list string := ["ESRS"; "GRI"; "SASB"; "ISO"; "BRSR"].

(** The tuple [(best_std, best_path, best_content, best_score)]. *)
Definition BestResult : Type := string * string * json * Z.

Definition best_result_of (r : Ranked) : BestResult :=
  (r_std r, r_path r, r_content r, r_score r).

(** One turn of the loop of [handle_text]; the state is
    [(best_result, best_score)]. *)
Definition best_step (query : string) (acc : option BestResult * Z)
    (standard : string) : option BestResult * Z :=
  match search_standard partial_ratio CONCEPTS set_order STANDARDS
          standard query 1 with
  | r :: _ =>
      if acc.2 <? r_score r then (Some (best_result_of r), r_score r)
      else acc
  | [] => acc
  end.

(** [best_result] after the loop, starting from [None] and 0. *)
Definition best_match (query : string) : option BestResult :=
  (fold_left (best_step query) frameworks (None, 0)).1.

(** What the loop of [handle_text] has established once it has been
    through [names]: nothing found so far, or the earliest best top entry. *)
Definition best_inv (query : string) (names : list string)
    (acc : option BestResult * Z) : Prop :=
  match acc.1 with
  | None =>
      acc.2 = 0
      ∧ ∀ s, s ∈ names →
          search_standard partial_ratio CONCEPTS set_order STANDARDS s query 1 = []
  | Some t =>
      ∃ i s r, names !! i = Some s
        ∧ head (search_standard partial_ratio CONCEPTS set_order STANDARDS s query 1) = Some r
        ∧ t = best_result_of r
        ∧ acc.2 = r_score r
        ∧ ∀ j s' r', names !! j = Some s' →
            head (search_standard partial_ratio CONCEPTS set_order STANDARDS s' query 1) = Some r' →
            r_score r' ≤ r_score r ∧ (r_score r' = r_score r → (i ≤ j)%nat)
  end.

(** What [handle_text] answers. *)
Inductive TextReply : Type :=
  | NoReply
  | BestMatch (std path display : string) (score : Z)
  | NotFound.

(** [handle_text]: the reply to a plain message with text [text]. *)
Definition handle_text (text : string) : TextReply :=
  let query := Text.strip text in
  if (String.length query <? 2)%nat || Str.startswith "/" query then NoReply
  else
    match best_match query with
    | Some (std, path, content, score) =>
        BestMatch std (Str.prefix_n 60 path)
                  (Display.display_content str_number 150 content) score
    | None => NotFound
    end.

(** The table [all_results] of [map_command]: the standards with a
    non-empty result for limit 2, in the order of the loop. *)
Definition map_results (query : string) : list (string * list Ranked) :=
  List.filter (λ entry, match entry.2 with [] => false | _ => true end)
    (map (λ standard,
            (standard,
             search_standard partial_ratio CONCEPTS set_order STANDARDS
               standard query 2))
         frameworks).

(** [best_score] printed for a standard by [map_command]. *)
Definition map_best (results : list Ranked) : Z :=
  match results with
  | r :: _ => r_score r
  | [] => 0
  end.

End Handlers.

(* ===================================================================== *)
(** * Loading the corpora *)
(* ===================================================================== *)

(** [standard_files], in the order of the loop. *)
Definition standard_files : list (string * string) :=
  [ ("ESRS", "ESRS_SAMPLE.json");
    ("GRI", "GRI_SAMPLE.json");
    ("SASB", "SASB_SAMPLE.json");
    ("ISO", "ISO_SAMPLE.json");
    ("BRSR", "BRSR_SAMPLE.json") ].

(** The fallback stored for a file that could not be loaded:
    [{"error": "File not found"}]. *)
Definition load_fallback : json := JObj [("error", JStr "File not found")].

(** [load_standards()]. [read filename] is the outcome of opening and
    parsing a sample file, [None] when that raises; [read_concepts] the
    same for [concepts.json]. *)
Definition load_standards (read : string → option json)
    (read_concepts : option (list (string * list string)))
    : gmap string json * list (string * list string) :=
  (fold_left (λ (standards : gmap string json) '(name, filename),
                <[name := match read filename with
                           | Some document => document
                           | None => load_fallback
                           end]> standards)
             standard_files ∅,
   match read_concepts with
   | Some concepts => concepts
   | None => default_concepts
   end).

(* ===================================================================== *)
(** * The performance samples of the tracker *)
(* ===================================================================== *)

Module Tracker.

(** The fields of [GA4Tracker] that [track_performance] reads or writes.
    A disabled tracker has no [perf_stats]; it is modelled as the empty
    table. *)
Record GA4Tracker := mkTracker {
  enabled : bool;
  perf_stats : gmap string (list Q)
}.

(** [__init__]: [configured] is [bool(GA_MEASUREMENT_ID and GA_API_SECRET)]. *)
Definition tracker_init (configured : bool) : GA4Tracker :=
  mkTracker configured
    (if configured
     then <["sheets_write_time" := []]>
            (<["translation_time" := []]> (<["search_time" := []]> ∅))
     else ∅).

(** [track_performance(metric, duration_ms)] *)
Definition track_performance (t : GA4Tracker) (metric : string)
    (duration_ms : Q) : GA4Tracker :=
  if negb (enabled t) then t
  else
    let values := default [] (perf_stats t !! metric) ++ [duration_ms] in
    mkTracker (enabled t)
      (<[metric := if (100 <? length values)%nat
                   then Telemetry.last_n 100 values
                   else values]> (perf_stats t)).

(** A sequence of calls, each an atomic step (they run under
    [perf_lock]). *)
Definition track_all (t : GA4Tracker) (calls : list (string * Q)) : GA4Tracker :=
  fold_left (λ t call, track_performance t call.1 call.2) calls t.

(** The durations reported for [metric] by a sequence of calls, oldest
    first. *)
Definition durations (metric : string) (calls : list (string * Q)) : list Q :=
  flat_map (λ call, if decide (call.1 = metric) then [call.2] else []) calls.

End Tracker.

(* ===================================================================== *)
(** * The CSV sink *)
(* ===================================================================== *)

Module Csv.

Definition comma : ascii := ",".
Definition newline : ascii := "010".
Definition carriage_return : ascii := "013".

(** [str(cell).replace(',', ';').replace('\n', ' ').replace('\r', '')[:100]] *)
Definition clean_cell (cell : string) : string :=
  Str.prefix_n 100
    (Text.replace carriage_return ""
       (Text.replace newline " " (Text.replace comma ";" cell))).

(** [','.join(cleaned_row) + '\n'] *)
Definition csv_line (row : Telemetry.Row) : string :=
  Text.join "," (map clean_cell row) +:+ String newline "".

(** The header line written to a new file. *)
Definition header : string :=
  "Timestamp,Query,Language,Framework,Confidence,Path" +:+ String newline "".

(** What the loop over [rows] writes. *)
Fixpoint csv_lines (rows : list Telemetry.Row) : string :=
  match rows with
  | [] => ""
  | row :: rest => csv_line row +:+ csv_lines rest
  end.

(** A line as a reader gets it: without the final newline, cut at the
    commas. *)
Definition read_line (line : string) : list string :=
  Text.split_on comma (Str.prefix_n (String.length line - 1) line).

End Csv.

Module CsvFile.

(** The files the sink touches: the content of [query_log.csv] when it
    exists, and the archived files by name. *)
Record Files := mkFiles {
  log : option string;
  archives : gmap string string
}.

(** [5 * 1024 * 1024] *)
Definition size_limit : Z := 5 * 1024 * 1024.

(** One call of [_write_to_csv]: the batch, the archive name built from
    the clock, and what the system does: whether [os.rename] and [open]
    succeed. A write that has been opened completes. *)
Record Write := mkWrite {
  rows : list Telemetry.Row;
  archive_name : string;
  rename_ok : bool;
  open_ok : bool
}.

(** The rotation at the start of [_write_to_csv]: a file above the limit
    is renamed; when the renaming fails the file stays. *)
Definition rotate (fs : Files) (w : Write) : Files :=
  match log fs with
  | Some content =>
      if (size_limit <? Z.of_nat (String.length content)) && rename_ok w
      then mkFiles None (<[archive_name w := content]> (archives fs))
      else fs
  | None => fs
  end.

(** [_write_to_csv(rows)] *)
Definition _write_to_csv (fs : Files) (w : Write) : Files :=
  let fs := rotate fs w in
  if open_ok w then
    mkFiles (Some (match log fs with
                   | Some content => content
                   | None => Csv.header
                   end +:+ Csv.csv_lines (rows w)))
            (archives fs)
  else fs.

Definition write_all (fs : Files) (ws : list Write) : Files :=
  fold_left _write_to_csv ws fs.

(** A log file in good order: the header, then one line per row of
    [written]; the number of its line feeds is what [stats_command]
    counts as [len(lines)]. *)
Definition holds (content : string) (written : list Telemetry.Row) : Prop :=
  content = Csv.header +:+ Csv.csv_lines written
  ∧ Text.count Csv.newline content = S (length written).

(** The state of the log file after the writes [ws]: the rows of the
    opened writes since some point. *)
Definition log_inv (ws : list Write) (fs : Files) : Prop :=
  ∀ content, log fs = Some content →
    ∃ k, (k ≤ length (List.filter open_ok ws))%nat
      ∧ holds content (concat (rows <$> drop k (List.filter open_ok ws))).

Definition archives_inv (fs : Files) : Prop :=
  map_Forall (λ _ content,
                size_limit < Z.of_nat (String.length content)
                ∧ ∃ written, holds content written) (archives fs).

End CsvFile.

(* ===================================================================== *)
(** * More observations on the telemetry buffer *)
(* ===================================================================== *)

Module TelemetryTrace.

Import Telemetry.

(** The clock readings of the [log_query] calls of a trace that started a
    flush thread. *)
Fixpoint trigger_times (st : Logger) (trace : list event) : list Q :=
  match trace with
  | [] => []
  | e :: rest =>
      match e with
      | Log c => if snd (log_query st c) then [current_time c] else []
      | Flush _ => []
      end ++ trigger_times (step st e) rest
  end.


(** A row as [log_query] builds it: six cells, the query cut at 80
    characters, the framework at 20 and the path at 30. *)
Definition row_ok (row : Row) : Prop :=
  ∃ stamp query language framework confidence path,
    row = [stamp; query; language; framework; confidence; path]
    ∧ (String.length query ≤ 80)%nat
    ∧ (String.length framework ≤ 20)%nat
    ∧ (String.length path ≤ 30)%nat.

(** The rows in the buffer and in the batches handed to the sinks. *)
Definition rows_ok (st : Logger) : Prop :=
  Forall row_ok (buffer st)
  ∧ Forall (Forall row_ok) (sheet_calls st)
  ∧ Forall (Forall row_ok) (csv_calls st).

End TelemetryTrace.

(* ===================================================================== *)
(** * The uptime shown *)
(* ===================================================================== *)

Module Uptime.

(** [x // y] and [x % y] on numbers, for a positive [y]. *)
Definition floordiv (x y : Q) : Q := inject_Z (Qfloor (x / y)).

Definition modulo (x y : Q) : Q := (x - y * floordiv x y)%Q.

(** [health_command]: [hours] and [minutes] for
    [uptime_seconds = time.time() - start_time]. *)
Definition health_uptime (uptime_seconds : Q) : Z * Z :=
  (py_int (floordiv uptime_seconds 3600),
   py_int (floordiv (modulo uptime_seconds 3600) 60)).

(** [stats_command]: [int((time.time() - start_time) / 3600)] *)
Definition stats_hours (uptime_seconds : Q) : Z :=
  py_int (uptime_seconds / 3600).

End Uptime.

(* ===================================================================== *)
(** * Where a match lies *)
(* ===================================================================== *)

(** One step from a node of a document to a child: into the value under a
    key of an object, or to an element of an array. *)
Inductive PathStep : Type :=
  | Key (key : string)
  | Index (i : nat).

(** The path string after one more step, as [search_json] builds it. *)
Definition extend_path (path : string) (step : PathStep) : string :=
  match step with
  | Key key => key_path path key
  | Index i => index_path path i
  end.

(** The path string of a route that starts at a node whose path is
    [path]. *)
Definition render_from (path : string) (route : list PathStep) : string :=
  fold_left extend_path route path.

(** [resolves obj route node]: following [route] from [obj] leads to
    [node]. *)
Inductive resolves : json → list PathStep → json → Prop :=
  | resolves_here obj : resolves obj [] obj
  | resolves_key members key value route node :
      (key, value) ∈ members →
      resolves value route node →
      resolves (JObj members) (Key key :: route) node
  | resolves_index elems i item route node :
      elems !! i = Some item →
      resolves item route node →
      resolves (JArr elems) (Index i :: route) node.

(** The number of object levels a route goes through. *)
Definition key_steps (route : list PathStep) : Z :=
  Z.of_nat (length (List.filter (λ step, match step with
                                         | Key _ => true
                                         | Index _ => false
                                         end) route)).

(* ===================================================================== *)
(** * The path shown *)
(* ===================================================================== *)

Module PathDisplay.

(** The separator [" → "] (the arrow is three bytes in UTF-8). *)
Definition arrow : string :=
  String " " (String "226" (String "134" (String "146" (String " " "")))).

Definition nonempty (s : string) : bool :=
  match s with
  | EmptyString => false
  | _ => true
  end.

(** [[p.strip() for p in parts if p.strip()]] *)
Definition kept_parts (parts : list string) : list string :=
  List.filter nonempty (map Text.strip parts).

(** [clean_path] in [handle_standard]:
    [" → ".join([p.strip() for p in path.split(">") if p.strip()])] *)
Definition clean_path (path : string) : string :=
  Text.join arrow (kept_parts (Text.split_on ">" path)).

(** [clean_path] in [map_command], which keeps the first three parts:
    [" → ".join([p.strip() for p in path.split(">")[:3] if p.strip()])] *)
Definition clean_path_3 (path : string) : string :=
  Text.join arrow (kept_parts (take 3 (Text.split_on ">" path))).

(** A key that contains no [>] and neither starts nor ends with white
    space (so it is not empty). *)
Definition clean_key (key : string) : Prop :=
  lacks ">" key
  ∧ (∃ c, first_char key = Some c ∧ Str.isspace c = false)
  ∧ (∃ c, last_char key = Some c ∧ Str.isspace c = false).

End PathDisplay.

(* ===================================================================== *)
(** * Properties of the string operations *)
(* ===================================================================== *)

Lemma lower_char_idem c : Str.lower_char (Str.lower_char c) = Str.lower_char c.
Proof. destruct c as [[] [] [] [] [] [] [] []]; reflexivity. Qed.

Lemma lower_idem s : Str.lower (Str.lower s) = Str.lower s.
Proof.
  induction s as [|c s IH]; simpl; [done|].
  by rewrite lower_char_idem, IH.
Qed.

Lemma lower_app s t : Str.lower (s +:+ t) = Str.lower s +:+ Str.lower t.
Proof. induction s as [|c s IH]; simpl; [done|]. by rewrite IH. Qed.

Lemma lower_length s : String.length (Str.lower s) = String.length s.
Proof. induction s as [|c s IH]; simpl; [done|]. by rewrite IH. Qed.

Lemma lower_empty s : Str.lower s = EmptyString ↔ s = EmptyString.
Proof. destruct s; simpl; split; intros H; done. Qed.

Lemma app_String c s t : String c s +:+ t = String c (s +:+ t).
Proof. reflexivity. Qed.

Lemma app_empty_l s : EmptyString +:+ s = s.
Proof. reflexivity. Qed.

Lemma startswith_spec p s :
  Str.startswith p s = true ↔ ∃ post, s = p +:+ post.
Proof.
  revert s. induction p as [|a p IH]; intros s; simpl.
  - split; [intros _; by exists s | done].
  - destruct s as [|b s].
    + split; [done | intros [post Hpost]; discriminate].
    + destruct (decide (a = b)) as [->|Hne].
      * rewrite IH. split; intros [post Hpost]; exists post.
        -- by rewrite Hpost.
        -- rewrite app_String in Hpost. by injection Hpost.
      * split; [done | intros [post Hpost]].
        rewrite app_String in Hpost. congruence.
Qed.

Lemma contains_spec needle hay :
  Str.contains needle hay = true ↔ is_substring needle hay.
Proof.
  unfold is_substring. induction hay as [|c hay IH]; simpl.
  - rewrite orb_false_r, startswith_spec. split.
    + intros [post Hpost]. by exists EmptyString, post.
    + intros [pre [post Hpost]]. destruct pre; [by exists post | discriminate].
  - rewrite orb_true_iff, startswith_spec, IH. split.
    + intros [[post Hpost] | (pre & post & Hpost)].
      * by exists EmptyString, post.
      * exists (String c pre), post. rewrite app_String. by rewrite Hpost.
    + intros (pre & post & Hpost). destruct pre as [|c' pre].
      * left. by exists post.
      * right. exists pre, post. rewrite app_String in Hpost. congruence.
Qed.

Lemma is_substring_lower needle hay :
  is_substring needle hay → is_substring (Str.lower needle) (Str.lower hay).
Proof.
  intros (pre & post & ->). exists (Str.lower pre), (Str.lower post).
  by rewrite !lower_app.
Qed.

Lemma app_empty_r s : s +:+ EmptyString = s.
Proof. induction s as [|c s IH]; [done|]. by rewrite app_String, IH. Qed.

Lemma app_assoc_string s t u : (s +:+ t) +:+ u = s +:+ (t +:+ u).
Proof. induction s as [|c s IH]; [done|]. by rewrite !app_String, IH. Qed.

Lemma list_ascii_app s t :
  list_ascii_of_string (s +:+ t) = list_ascii_of_string s ++ list_ascii_of_string t.
Proof. induction s as [|c s IH]; [done|]. rewrite app_String. simpl. by rewrite IH. Qed.

(** Every word [str.split()] returns is a non-empty run of non-separator
    characters of the string. *)
Lemma split_from_words s : ∀ word w,
  no_space word → w ∈ Str.split_from word s →
  w ≠ EmptyString ∧ no_space w ∧ is_substring w (word +:+ s).
Proof.
  assert (Hflush : ∀ word w rest, no_space word → w ∈ Str.flush_word word →
            w ≠ EmptyString ∧ no_space w ∧ is_substring w (word +:+ rest)).
  { intros word w rest Hword Hw. destruct word as [|c word]; simpl in Hw.
    - by apply elem_of_nil in Hw.
    - apply list_elem_of_singleton in Hw as ->. split; [done|]. split; [done|].
      by exists EmptyString, rest. }
  induction s as [|c s IH]; intros word w Hword Hw; cbn [Str.split_from] in Hw.
  - by apply Hflush.
  - destruct (Str.isspace c) eqn:Hc.
    + apply elem_of_app in Hw as [Hw|Hw]; [by apply Hflush|].
      destruct (IH EmptyString w) as (Hne & Hns & pre & post & Hs);
        [constructor | done |].
      split; [done|]. split; [done|].
      exists (word +:+ String c pre), post.
      rewrite app_empty_l in Hs. rewrite Hs.
      by rewrite app_assoc_string, app_String.
    + destruct (IH (word +:+ String c EmptyString) w) as (Hne & Hns & Hsub);
        [|done|].
      { unfold no_space in *. rewrite list_ascii_app. apply Forall_app.
        split; [done|]. by repeat constructor. }
      split; [done|]. split; [done|].
      by rewrite app_assoc_string in Hsub.
Qed.

Lemma split_words s w :
  w ∈ Str.split s → w ≠ EmptyString ∧ no_space w ∧ is_substring w s.
Proof.
  intros Hw. destruct (split_from_words s EmptyString w) as (? & ? & ?);
    [constructor | done | done].
Qed.

(* ===================================================================== *)
(** * Properties of the numeric helpers *)
(* ===================================================================== *)

Lemma Qgtb_spec a b : Qgtb a b = true ↔ (b < a)%Q.
Proof.
  unfold Qgtb. rewrite negb_true_iff, <- not_true_iff_false, Qle_bool_iff.
  split; [apply Qnot_le_lt | apply Qlt_not_le].
Qed.

Lemma Qgtb_decide a b : Qgtb a b = bool_decide (b < a)%Q.
Proof.
  destruct (Qgtb a b) eqn:E; symmetry.
  - by apply bool_decide_eq_true, Qgtb_spec.
  - apply bool_decide_eq_false. rewrite <- Qgtb_spec. congruence.
Qed.

Lemma if_Qgtb {A} (a b : Q) (x y : A) :
  (if Qgtb a b then x else y) = (if decide (b < a)%Q then x else y).
Proof. rewrite Qgtb_decide. by case_bool_decide; case_decide. Qed.

(** [int] rounds down a positive number and up a negative one. *)
Lemma py_int_truncates x :
  ((0 <= x)%Q → py_int x = Qfloor x) ∧ ((x <= 0)%Q → py_int x = Qceiling x).
Proof.
  destruct x as [a b]. unfold py_int, Qceiling, Qfloor, Qle. simpl.
  rewrite !Z.mul_1_r. split; intros Ha.
  - apply Z.quot_div_nonneg; lia.
  - rewrite <- (Z.opp_involutive a) at 1. rewrite Z.quot_opp_l by lia.
    f_equal. apply Z.quot_div_nonneg; lia.
Qed.

Lemma py_int_inject_Z z : py_int (inject_Z z) = z.
Proof. unfold py_int. simpl. apply Z.quot_1_r. Qed.

(** On whole numbers the rescaling is integer arithmetic. *)
Lemma normalize_score_Z (z : Z) :
  normalize_score (inject_Z z) = Z.min 100 (Z.max 0 (Z.quot (z * 100) 130)).
Proof.
  unfold normalize_score, py_int. simpl.
  by rewrite !Z.mul_1_r.
Qed.

Lemma clamp_min_max x : clamp 0 100 x = Z.min 100 (Z.max 0 x).
Proof. unfold clamp. repeat case_match; lia. Qed.

(** C7: for every raw score the normalized score is
    [min(100, max(0, int(raw * 100 / 130)))], which is the clamp of the
    rescaled score to the band 0..100 that the specification describes; it
    lies in that band; and a raw score of 90 normalizes to 69. *)
Theorem normalize_score_clamped (raw : Q) :
  normalize_score raw = Z.min 100 (Z.max 0 (py_int (raw * 100 / 130)))
  ∧ normalize_score raw = spec_normalized raw
  ∧ 0 ≤ normalize_score raw ≤ 100
  ∧ normalize_score 90 = 69.
Proof.
  split; [done|]. split; [|split].
  - unfold spec_normalized. by rewrite clamp_min_max.
  - unfold normalize_score. lia.
  - reflexivity.
Qed.

(* ===================================================================== *)
(** * The document searcher *)
(* ===================================================================== *)

Section SearcherFacts.

Variable partial_ratio : string → string → Q.

Local Abbreviation fuzz_score := (fuzz_score partial_ratio).
Local Abbreviation search_json := (search_json partial_ratio).
Local Abbreviation member_matches := (member_matches partial_ratio).
Local Abbreviation element_matches := (element_matches partial_ratio).

Lemma gtb_deep (depth max_depth : Z) :
  depth > max_depth → (depth >? max_depth) = true.
Proof. intros H. apply Z.gtb_lt. lia. Qed.

Lemma gtb_shallow (depth max_depth : Z) :
  depth ≤ max_depth → (depth >? max_depth) = false.
Proof. intros H. rewrite Z.gtb_ltb. by apply Z.ltb_ge. Qed.

Lemma search_json_too_deep obj query path depth max_depth :
  depth > max_depth → search_json obj query path depth max_depth = [].
Proof.
  intros H. destruct obj; cbn -[Z.gtb]; by rewrite gtb_deep.
Qed.

Lemma search_json_JStr s query path depth max_depth :
  depth ≤ max_depth →
  search_json (JStr s) query path depth max_depth =
    if decide (75 < fuzz_score query s)%Q
    then [mkMatch (fuzz_score query s + 10) path (JStr s) depth]
    else [].
Proof.
  intros H. cbn -[Z.gtb]. rewrite gtb_shallow by done.
  by rewrite if_Qgtb.
Qed.

Lemma search_json_JObj members query path depth max_depth :
  depth ≤ max_depth →
  search_json (JObj members) query path depth max_depth =
    flat_map (member_matches query path depth max_depth) members.
Proof.
  intros H. cbn -[Z.gtb]. rewrite gtb_shallow by done.
  induction members as [|[key value] rest IH]; [done|].
  cbn -[Z.gtb] in *. rewrite IH, if_Qgtb.
  by rewrite <- app_assoc.
Qed.

Lemma search_json_JArr elems query path depth max_depth :
  depth ≤ max_depth →
  search_json (JArr elems) query path depth max_depth =
    concat (imap (element_matches query path depth max_depth) elems).
Proof.
  intros H. cbn -[Z.gtb]. rewrite gtb_shallow by done.
  unfold element_matches.
  change (imap (λ i item, search_json item query (index_path path i) depth max_depth) elems)
    with (imap (λ i item, search_json item query (index_path path (0 + i)) depth max_depth) elems).
  generalize 0%nat as start.
  induction elems as [|item rest IH]; intros start; [done|].
  simpl. rewrite Nat.add_0_r, IH. do 2 f_equal.
  apply imap_ext. intros i x _. simpl. by rewrite Nat.add_succ_r.
Qed.

Lemma search_json_other obj query path depth max_depth :
  match obj with JNull | JBool _ | JNum _ => True | _ => False end →
  search_json obj query path depth max_depth = [].
Proof.
  destruct obj; cbn -[Z.gtb]; try done; by destruct (depth >? max_depth).
Qed.

(** Every match carries a depth between the depth of the call and
    [max_depth]. *)
Lemma search_json_depths obj : ∀ query path depth max_depth,
  Forall (λ m, depth ≤ m_depth m ≤ max_depth)
         (search_json obj query path depth max_depth).
Proof.
  induction obj as [| | | |elems IH|members IH] using json_nested_ind;
    intros query path depth max_depth;
    destruct (decide (depth > max_depth)) as [Hd|Hd];
    try (rewrite search_json_too_deep by done; constructor);
    try (rewrite search_json_other by done; constructor).
  - rewrite search_json_JStr by lia.
    destruct (decide _); repeat constructor; simpl; lia.
  - rewrite search_json_JArr by lia. apply Forall_concat.
    unfold element_matches. generalize (index_path path) as pathf.
    induction IH as [|item rest Hitem _ IHrest]; intros pathf; simpl;
      constructor; [apply Hitem | apply IHrest].
  - rewrite search_json_JObj by lia.
    induction IH as [|[key value] rest Hvalue _ IHrest]; simpl;
      [constructor|].
    apply Forall_app. split; [|done].
    apply Forall_app. split.
    + destruct (decide _); repeat constructor; simpl; lia.
    + eapply Forall_impl; [apply Hvalue|]. simpl. intros m Hm. lia.
Qed.

(** C2: beyond [max_depth] the searcher returns nothing; within it, an
    object yields for each member, in order, a match for the key with the
    score raised by 20 exactly when the key scores above 70, followed in
    every case by the search of the value one level deeper; an array
    yields the searches of its elements at the same depth; a string
    yields one match with the score raised by 10 exactly when it scores
    above 75; any other scalar yields nothing. No match is ever reported
    at a depth above [max_depth], which is 6 when the aggregator calls. *)
Theorem search_json_cases (obj : json) (query path : string)
    (depth max_depth : Z) :
  search_json obj query path depth max_depth =
    (if decide (depth > max_depth) then []
     else match obj with
          | JObj members =>
              flat_map (member_matches query path depth max_depth) members
          | JArr elems =>
              concat (imap (element_matches query path depth max_depth) elems)
          | JStr s =>
              if decide (75 < fuzz_score query s)%Q
              then [mkMatch (fuzz_score query s + 10) path (JStr s) depth]
              else []
          | _ => []
          end)
  ∧ Forall (λ m, depth ≤ m_depth m ≤ max_depth)
           (search_json obj query path depth max_depth)
  ∧ Forall (λ m, m_depth m ≤ 6) (search_json obj query "" 0 6).
Proof.
  split; [|split].
  - destruct (decide (depth > max_depth)) as [Hd|Hd].
    + by apply search_json_too_deep.
    + destruct obj.
      * by apply search_json_other.
      * by apply search_json_other.
      * by apply search_json_other.
      * apply search_json_JStr. lia.
      * apply search_json_JArr. lia.
      * apply search_json_JObj. lia.
  - apply search_json_depths.
  - eapply Forall_impl; [apply search_json_depths|]. simpl. intros m Hm. lia.
Qed.

End SearcherFacts.

(* ===================================================================== *)
(** * Relative order of list entries *)
(* ===================================================================== *)

Section Before.

Context {A : Type}.

Lemma before_lookup (l : list A) i j a b :
  (i < j)%nat → l !! i = Some a → l !! j = Some b → before a b l.
Proof.
  intros Hij Hi Hj.
  exists (take i l), (take (j - S i) (drop (S i) l)), (drop (S (j - S i)) (drop (S i) l)).
  rewrite <- (take_drop_middle l i a Hi) at 1. f_equal. f_equal.
  symmetry. apply take_drop_middle.
  rewrite lookup_drop. rewrite <- Hj. f_equal. lia.
Qed.

Lemma lookup_before (l : list A) a b :
  before a b l → ∃ i j, (i < j)%nat ∧ l !! i = Some a ∧ l !! j = Some b.
Proof.
  intros (l1 & l2 & l3 & ->).
  exists (length l1), (length l1 + S (length l2))%nat. split; [lia|]. split.
  - by rewrite list_lookup_middle.
  - rewrite lookup_app_r by lia.
    replace (length l1 + S (length l2) - length l1)%nat with (S (length l2)) by lia.
    simpl. by rewrite list_lookup_middle.
Qed.









End Before.

Lemma first_index_Some p paths : p ∈ paths → is_Some (first_index p paths).
Proof.
  induction paths as [|x rest IH]; simpl; [by intros ?%elem_of_nil|].
  intros Hin. destruct (decide (x = p)); [done|].
  apply elem_of_cons in Hin as [->|Hin]; [done|].
  destruct (IH Hin) as [i ->]. by eexists.
Qed.

Lemma first_index_lt p paths i : first_index p paths = Some i → (i < length paths)%nat.
Proof.
  revert i. induction paths as [|x rest IH]; intros i; simpl; [done|].
  destruct (decide (x = p)).
  - intros [= <-]. lia.
  - destruct (first_index p rest) as [k|]; simpl; [|done].
    intros [= <-]. specialize (IH k eq_refl). lia.
Qed.

Lemma first_index_None p paths : p ∉ paths → first_index p paths = None.
Proof.
  induction paths as [|x rest IH]; simpl; [done|].
  intros Hnotin. apply not_elem_of_cons in Hnotin as [Hne Hrest].
  rewrite decide_False by done. by rewrite IH.
Qed.

Lemma first_index_app_l p paths more i :
  first_index p paths = Some i → first_index p (paths ++ more) = Some i.
Proof.
  revert i. induction paths as [|x rest IH]; intros i; simpl; [done|].
  destruct (decide (x = p)); [done|].
  destruct (first_index p rest) as [k|]; simpl; [|done].
  intros [= <-]. by rewrite (IH k eq_refl).
Qed.

Lemma first_index_app_new p paths :
  p ∉ paths → first_index p (paths ++ [p]) = Some (length paths).
Proof.
  induction paths as [|x rest IH]; simpl.
  - by rewrite decide_True.
  - intros Hnotin. apply not_elem_of_cons in Hnotin as [Hne Hrest].
    rewrite decide_False by done. by rewrite IH.
Qed.

Lemma discovered_before_app p q paths more :
  discovered_before p q paths → discovered_before p q (paths ++ more).
Proof.
  intros (i & j & Hi & Hj & Hij). exists i, j.
  eauto using first_index_app_l.
Qed.

(* ===================================================================== *)
(** * Deduplication and ranking *)
(* ===================================================================== *)

Lemma ranked_of_best_of r : ranked_of (r_path r, best_of r) = r.
Proof. by destruct r. Qed.

Lemma ranked_of_path p v : r_path (ranked_of (p, v)) = p.
Proof. by destruct v as [[[? ?] ?] ?]. Qed.

Lemma ranked_of_paths (d : list (string * Best)) :
  r_path <$> (ranked_of <$> d) = d.*1.
Proof.
  induction d as [|[p v] d IH]; [done|].
  rewrite !fmap_cons, IH, ranked_of_path. done.
Qed.

Lemma dict_get_None d p : dict_get d p = None ↔ p ∉ d.*1.
Proof.
  induction d as [|[k v] d IH]; csimpl.
  - split; [intros _; apply not_elem_of_nil | done].
  - rewrite not_elem_of_cons. destruct (decide (k = p)) as [->|Hne].
    + split; [done | by intros [? _]].
    + rewrite IH. split; [by intros ? | by intros [_ ?]].
Qed.

Lemma dict_get_Some d p v : dict_get d p = Some v → (p, v) ∈ d.
Proof.
  induction d as [|[k w] d IH]; csimpl; [done|].
  destruct (decide (k = p)) as [->|Hne].
  - intros [= ->]. by left.
  - intros H. right. by apply IH.
Qed.

Lemma dict_get_NoDup d p v : NoDup d.*1 → (p, v) ∈ d → dict_get d p = Some v.
Proof.
  induction d as [|[k w] d IH]; csimpl; [by intros _ ?%elem_of_nil|].
  rewrite NoDup_cons. intros [Hk Hnd] Hin.
  apply elem_of_cons in Hin as [[= -> ->]|Hin].
  - by rewrite decide_True.
  - destruct (decide (k = p)) as [->|Hne]; [|by apply IH].
    exfalso. apply Hk. apply list_elem_of_fmap. by exists (p, v).
Qed.

Lemma dict_set_new d p v : p ∉ d.*1 → dict_set d p v = d ++ [(p, v)].
Proof.
  induction d as [|[k w] d IH]; csimpl; [done|].
  rewrite not_elem_of_cons. intros [Hne Hd].
  rewrite decide_False by done. by rewrite IH.
Qed.

Lemma dict_set_keys d p v : p ∈ d.*1 → (dict_set d p v).*1 = d.*1.
Proof.
  induction d as [|[k w] d IH]; csimpl; [by intros ?%elem_of_nil|].
  intros Hin. destruct (decide (k = p)) as [->|Hne]; [done|].
  apply elem_of_cons in Hin as [->|Hin]; [done|].
  csimpl. by rewrite IH.
Qed.

Lemma dict_set_elem_of d p v q w :
  NoDup d.*1 →
  (q, w) ∈ dict_set d p v → (q = p ∧ w = v) ∨ (q ≠ p ∧ (q, w) ∈ d).
Proof.
  induction d as [|[k u] d IH]; csimpl.
  - intros _ [[= -> ->]|?%elem_of_nil]%elem_of_cons; [by left | done].
  - rewrite NoDup_cons. intros [Hk Hnd].
    destruct (decide (k = p)) as [->|Hne].
    + intros [[= -> ->]|Hin]%elem_of_cons; [by left|].
      right. split; [|by right].
      intros ->. apply Hk, list_elem_of_fmap. by exists (p, w).
    + intros [[= -> ->]|Hin]%elem_of_cons.
      * right. split; [done|]. by left.
      * destruct (IH Hnd Hin) as [?|[? ?]]; [by left|].
        right. split; [done|]. by right.
Qed.

Lemma dedup_inv_nil : dedup_inv [] [].
Proof.
  split.
  - constructor.
  - done.
  - intros p q (l1 & l2 & l3 & Heq). by destruct l1.
  - by intros p v ?%elem_of_nil.
Qed.

Lemma dedup_inv_new results d r :
  dedup_inv results d → r_path r ∉ d.*1 →
  dedup_inv (results ++ [r]) (d ++ [(r_path r, best_of r)]).
Proof.
  intros [Hnd Hkeys Horder Hbest] Hnew.
  assert (Hfresh : r_path r ∉ r_path <$> results) by by rewrite <- Hkeys.
  split.
  - rewrite fmap_app. apply NoDup_app. split; [done|]. split.
    + csimpl. intros p Hp [->|?%elem_of_nil]%elem_of_cons; done.
    + apply NoDup_singleton.
  - intros p. rewrite !fmap_app, !elem_of_app, Hkeys. done.
  - intros p q Hpq. rewrite !fmap_app in *. csimpl in *.
    destruct (lookup_before _ _ _ Hpq) as (i & j & Hij & Hi & Hj).
    apply lookup_app_Some in Hj as [Hj|[Hlen Hj]].
    + apply discovered_before_app, Horder.
      apply lookup_lt_Some in Hj as Hjlt.
      rewrite lookup_app_l in Hi by lia.
      exact (before_lookup _ _ _ _ _ Hij Hi Hj).
    + apply list_lookup_singleton_Some in Hj as [Hj <-].
      rewrite lookup_app_l in Hi by lia.
      assert (Hp : p ∈ r_path <$> results).
      { apply Hkeys, list_elem_of_lookup. by exists i. }
      destruct (first_index_Some _ _ Hp) as [ip Hip].
      exists ip, (length (r_path <$> results)). split; [|split].
      * by apply first_index_app_l.
      * by apply first_index_app_new.
      * by eapply first_index_lt.
  - intros p v [Hin|Heq%list_elem_of_singleton]%elem_of_app;
      [|injection Heq as -> ->].
    + destruct (Hbest _ _ Hin) as (r0 & Hr0 & Hp & Hv & Hmax).
      exists r0. split; [apply elem_of_app; by left|]. do 2 (split; [done|]).
      intros m [Hm| ->%list_elem_of_singleton]%elem_of_app Hmp; [by apply Hmax|].
      exfalso. apply Hnew. rewrite Hmp. apply list_elem_of_fmap. by exists (p, v).
    + exists r. split; [apply elem_of_app; right; by left|]. do 2 (split; [done|]).
      intros m [Hm| ->%list_elem_of_singleton]%elem_of_app Hmp; [|lia].
      exfalso. apply Hfresh. rewrite <- Hmp. apply list_elem_of_fmap. by exists m.
Qed.

Lemma dedup_inv_better results d r best :
  dedup_inv results d → dict_get d (r_path r) = Some best →
  best.1.1.1 < r_score r →
  dedup_inv (results ++ [r]) (dict_set d (r_path r) (best_of r)).
Proof.
  intros [Hnd Hkeys Horder Hbest] Hget Hlt.
  assert (Hold : r_path r ∈ d.*1).
  { apply list_elem_of_fmap. exists (r_path r, best). split; [done|].
    by apply dict_get_Some. }
  split.
  - by rewrite dict_set_keys.
  - intros p. rewrite dict_set_keys, fmap_app, elem_of_app, Hkeys by done.
    csimpl. split; [by left|]. intros [?| ->%list_elem_of_singleton]; [done|].
    by apply Hkeys.
  - intros p q. rewrite dict_set_keys, fmap_app by done.
    intros Hpq. by apply discovered_before_app, Horder.
  - intros p v Hin.
    apply (dict_set_elem_of _ _ _ _ _ Hnd) in Hin as [[-> ->]|[Hne Hin]].
    + exists r. split; [apply elem_of_app; right; by left|]. do 2 (split; [done|]).
      intros m [Hm| ->%list_elem_of_singleton]%elem_of_app Hmp; [|lia].
      destruct (Hbest _ _ (dict_get_Some _ _ _ Hget)) as (r0 & _ & _ & Hv & Hmax).
      specialize (Hmax m Hm Hmp). rewrite <- Hv in Hlt. simpl in Hlt. lia.
    + destruct (Hbest _ _ Hin) as (r0 & Hr0 & Hp & Hv & Hmax).
      exists r0. split; [apply elem_of_app; by left|]. do 2 (split; [done|]).
      intros m [Hm| ->%list_elem_of_singleton]%elem_of_app Hmp; [by apply Hmax|].
      congruence.
Qed.

Lemma dedup_inv_keep results d r best :
  dedup_inv results d → dict_get d (r_path r) = Some best →
  ¬ best.1.1.1 < r_score r →
  dedup_inv (results ++ [r]) d.
Proof.
  intros [Hnd Hkeys Horder Hbest] Hget Hge.
  assert (Hold : r_path r ∈ d.*1).
  { apply list_elem_of_fmap. exists (r_path r, best). split; [done|].
    by apply dict_get_Some. }
  split.
  - done.
  - intros p. rewrite fmap_app, elem_of_app, Hkeys. csimpl.
    split; [by left|]. intros [?| ->%list_elem_of_singleton]; [done|].
    by apply Hkeys.
  - intros p q Hpq. rewrite fmap_app. by apply discovered_before_app, Horder.
  - intros p v Hin. destruct (Hbest _ _ Hin) as (r0 & Hr0 & Hp & Hv & Hmax).
    exists r0. split; [apply elem_of_app; by left|]. do 2 (split; [done|]).
    intros m [Hm| ->%list_elem_of_singleton]%elem_of_app Hmp; [by apply Hmax|].
    rewrite <- Hmp in Hin. rewrite (dict_get_NoDup _ _ _ Hnd Hin) in Hget.
    injection Hget as <-. rewrite <- Hv in Hge. simpl in Hge. lia.
Qed.

Lemma dedup_step_inv results d r :
  dedup_inv results d → dedup_inv (results ++ [r]) (dedup_step d r).
Proof.
  intros Hinv. unfold dedup_step.
  destruct (dict_get d (r_path r)) as [[[[best_score c] dp] st]|] eqn:Hget.
  - destruct (best_score <? r_score r) eqn:Hlt.
    + eapply dedup_inv_better; [done..|]. simpl. lia.
    + eapply dedup_inv_keep; [done..|]. simpl. lia.
  - apply dict_get_None in Hget. rewrite dict_set_new by done.
    by apply dedup_inv_new.
Qed.

Lemma dedup_spec results : dedup_inv results (dedup results).
Proof.
  induction results as [|r results IH] using rev_ind.
  - apply dedup_inv_nil.
  - unfold dedup in *. rewrite fold_left_app. simpl. by apply dedup_step_inv.
Qed.

(** ** The stable descending sort *)

Lemma sort_insert_perm x l : sort_insert x l ≡ₚ x :: l.
Proof.
  induction l as [|y l IH]; simpl; [done|].
  destruct (r_score x <? r_score y); [|done].
  rewrite IH. apply Permutation_swap.
Qed.

Lemma sort_by_score_perm l : sort_by_score l ≡ₚ l.
Proof.
  induction l as [|x l IH]; simpl; [done|].
  by rewrite sort_insert_perm, IH.
Qed.

Lemma sort_insert_sorted x l :
  StronglySorted by_score_desc l → StronglySorted by_score_desc (sort_insert x l).
Proof.
  induction 1 as [|y l Hsorted IH Hall]; simpl.
  - repeat constructor.
  - destruct (r_score x <? r_score y) eqn:Hlt.
    + constructor; [done|].
      rewrite sort_insert_perm. constructor; [|done].
      unfold by_score_desc. lia.
    + constructor; [by constructor|]. constructor.
      * unfold by_score_desc. lia.
      * eapply Forall_impl; [exact Hall|]. unfold by_score_desc.
        intros z Hz. simpl in *. lia.
Qed.

Lemma sort_by_score_sorted l : StronglySorted by_score_desc (sort_by_score l).
Proof.
  induction l as [|x l IH]; simpl; [constructor | by apply sort_insert_sorted].
Qed.



Lemma py_take_nonneg {A} (n : Z) (xs : list A) :
  0 ≤ n → py_take n xs = take (Z.to_nat n) xs.
Proof. intros H. unfold py_take. destruct (n <? 0) eqn:E; [lia|done]. Qed.

(* ===================================================================== *)
(** * The aggregator *)
(* ===================================================================== *)

Section AggregatorFacts.

Variable partial_ratio : string → string → Q.
Variable CONCEPTS : list (string * list string).
Variable set_order : list string → list string.
Variable STANDARDS : gmap string json.

Lemma search_standard_unfold standard_name query limit :
  search_standard partial_ratio CONCEPTS set_order STANDARDS
      standard_name query limit =
    match STANDARDS !! standard_name with
    | Some _ =>
        py_take limit
          (sort_by_score (ranked_of <$> dedup (discovered partial_ratio CONCEPTS set_order STANDARDS standard_name query)))
    | None => []
    end.
Proof.
  unfold search_standard, discovered.
  by destruct (STANDARDS !! standard_name).
Qed.

Lemma expanded_lower query :
  expanded CONCEPTS (Str.lower query) = expanded CONCEPTS query.
Proof. unfold expanded. by rewrite lower_idem. Qed.

Lemma expand_query_lower query :
  expand_query CONCEPTS set_order (Str.lower query)
  = expand_query CONCEPTS set_order query.
Proof. unfold expand_query. by rewrite expanded_lower. Qed.

Lemma discovered_lower standard_name query :
  discovered partial_ratio CONCEPTS set_order STANDARDS standard_name (Str.lower query) = discovered partial_ratio CONCEPTS set_order STANDARDS standard_name query.
Proof. unfold discovered. by rewrite expand_query_lower. Qed.

Local Abbreviation expand_query := (expand_query CONCEPTS set_order).
Local Abbreviation discovered :=
  (discovered partial_ratio CONCEPTS set_order STANDARDS).
Local Abbreviation search_standard :=
  (search_standard partial_ratio CONCEPTS set_order STANDARDS).

Lemma ranked_NoDup results :
  NoDup (r_path <$> sort_by_score (ranked_of <$> dedup results)).
Proof.
  rewrite sort_by_score_perm, ranked_of_paths.
  apply (inv_nodup _ _ (dedup_spec results)).
Qed.

Lemma ranked_elem_of results r :
  r ∈ sort_by_score (ranked_of <$> dedup results) →
  r ∈ results ∧ ∀ m, m ∈ results → r_path m = r_path r → r_score m ≤ r_score r.
Proof.
  rewrite sort_by_score_perm.
  intros ([p v] & -> & Hin)%list_elem_of_fmap.
  destruct (inv_best _ _ (dedup_spec results) p v Hin)
    as (r0 & Hr0 & <- & <- & Hmax).
  rewrite ranked_of_best_of. split; [done|]. intros m Hm Hp. by apply Hmax.
Qed.



(** C10: a query and its lower-cased form have the same expansion, so
    [search_standard] returns the same list for both; and the scorer
    itself ignores the case of both arguments. *)
Theorem search_standard_case_insensitive (standard_name query : string)
    (limit : Z) :
  search_standard standard_name query limit
    = search_standard standard_name (Str.lower query) limit
  ∧ expand_query query = expand_query (Str.lower query)
  ∧ ∀ a b, fuzz_score partial_ratio a b
           = fuzz_score partial_ratio (Str.lower a) (Str.lower b).
Proof.
  split; [|split].
  - by rewrite !search_standard_unfold, discovered_lower.
  - by rewrite expand_query_lower.
  - intros a b. unfold fuzz_score. by rewrite !lower_idem.
Qed.

End AggregatorFacts.

(* ===================================================================== *)
(** * The query expander *)
(* ===================================================================== *)

Lemma elem_of_flat_map {A B} (f : A → list B) (l : list A) (y : B) :
  y ∈ flat_map f l ↔ ∃ x, x ∈ l ∧ y ∈ f x.
Proof.
  rewrite list_elem_of_In, in_flat_map.
  split; intros (x & Hx & Hy); exists x; by rewrite ?list_elem_of_In in *.
Qed.

Lemma elem_of_List_filter {A} (f : A → bool) (l : list A) (x : A) :
  x ∈ List.filter f l ↔ x ∈ l ∧ f x = true.
Proof. by rewrite !list_elem_of_In, filter_In. Qed.

Lemma trigger_words_lower w : w ∈ trigger_words → Str.lower w = w.
Proof.
  unfold trigger_words. rewrite !elem_of_cons, elem_of_nil.
  intros [->|[->|[->|[]]]]; reflexivity.
Qed.

Lemma triggered_spec q :
  existsb (λ w, Str.contains w q) trigger_words = true
  ↔ ∃ w, w ∈ trigger_words ∧ is_substring w q.
Proof.
  rewrite existsb_exists. split; intros (w & Hw & Hsub); exists w.
  - by rewrite list_elem_of_In, <- contains_spec.
  - by rewrite <- list_elem_of_In, contains_spec.
Qed.

Lemma or_iff (A A' B B' : Prop) : (A ↔ A') → (B ↔ B') → (A ∨ B ↔ A' ∨ B').
Proof. tauto. Qed.

(** Membership in the list [expanded], part by part. *)
Lemma elem_of_expanded CONCEPTS query x :
  x ∈ expanded CONCEPTS query ↔
    x = Str.lower query
    ∨ (∃ concept synonyms, (concept, synonyms) ∈ CONCEPTS
         ∧ is_substring concept (Str.lower query) ∧ x ∈ synonyms)
    ∨ ((∃ w, w ∈ trigger_words ∧ is_substring w (Str.lower query))
         ∧ x ∈ framework_names)
    ∨ (x ∈ Str.split (Str.lower query) ∧ (3 < String.length x)%nat).
Proof.
  unfold expanded. rewrite !elem_of_app, list_elem_of_singleton.
  rewrite elem_of_flat_map, elem_of_List_filter, Nat.ltb_lt.
  apply or_iff; [done|]. apply or_iff; [|apply or_iff; [|done]].
  - split.
    + intros ([concept synonyms] & Hin & Hx).
      destruct (Str.contains concept (Str.lower query)) eqn:Hc;
        [|by apply elem_of_nil in Hx].
      exists concept, synonyms. by rewrite <- contains_spec.
    + intros (concept & synonyms & Hin & Hsub & Hx).
      exists (concept, synonyms). split; [done|].
      apply contains_spec in Hsub. by rewrite Hsub.
  - rewrite <- triggered_spec.
    destruct (existsb _ trigger_words); split.
    + by intros ?.
    + by intros [_ ?].
    + by intros ?%elem_of_nil.
    + by intros [? _].
Qed.

Section ExpanderFacts.

Variable CONCEPTS : list (string * list string).
Variable set_order : list string → list string.
Hypothesis set_order_members : ∀ xs x, x ∈ set_order xs ↔ x ∈ xs.

Lemma elem_of_expand_query query x :
  x ∈ expand_query CONCEPTS set_order query ↔ x ∈ expanded CONCEPTS query.
Proof. apply set_order_members. Qed.

Local Abbreviation expand_query := (expand_query CONCEPTS set_order).

(** C8: [expand_query(q)] contains [q.lower()]; the synonyms of every
    concept phrase that occurs in [q.lower()]; the five lower-cased corpus
    names whenever [q] (or its lower-cased form, which is what the code
    tests) contains one of the trigger words; and every token of
    [q.lower().split()] longer than 3 characters. *)
Theorem expand_query_contains (query : string) :
  Str.lower query ∈ expand_query query
  ∧ (∀ concept synonyms synonym,
       (concept, synonyms) ∈ CONCEPTS →
       is_substring concept (Str.lower query) →
       synonym ∈ synonyms → synonym ∈ expand_query query)
  ∧ (∀ trigger name,
       trigger ∈ ["standard"; "framework"; "compare"] →
       is_substring trigger query ∨ is_substring trigger (Str.lower query) →
       name ∈ ["esrs"; "gri"; "sasb"; "iso"; "brsr"] →
       name ∈ expand_query query)
  ∧ (∀ word,
       word ∈ Str.split (Str.lower query) → (3 < String.length word)%nat →
       word ∈ expand_query query).
Proof.
  split; [|split; [|split]].
  - apply elem_of_expand_query, elem_of_expanded. by left.
  - intros concept synonyms synonym Hin Hsub Hsyn.
    apply elem_of_expand_query, elem_of_expanded. right. left.
    by exists concept, synonyms.
  - intros trigger name Htrigger Hsub Hname.
    apply elem_of_expand_query, elem_of_expanded. right. right. left.
    split; [|done]. exists trigger. split; [done|].
    destruct Hsub as [Hsub|Hsub]; [|done].
    rewrite <- (trigger_words_lower trigger) by done.
    by apply is_substring_lower.
  - intros word Hword Hlen.
    apply elem_of_expand_query, elem_of_expanded. by do 3 right.
Qed.

End ExpanderFacts.

(* ===================================================================== *)
(** * Unknown corpora and empty queries *)
(* ===================================================================== *)



Lemma py_take_elem_of {A} (n : Z) (xs : list A) x : x ∈ py_take n xs → x ∈ xs.
Proof.
  unfold py_take. destruct (n <? 0);
    intros (i & Hi & _)%elem_of_take; apply list_elem_of_lookup; eauto.
Qed.

Lemma flat_map_nil {A B} (f : A → list B) (l : list A) :
  (∀ x, x ∈ l → f x = []) → flat_map f l = [].
Proof.
  induction l as [|x l IH]; intros Hf; simpl; [done|].
  rewrite Hf by by left. apply IH. intros y Hy. apply Hf. by right.
Qed.

Section EmptyResults.

Variable partial_ratio : string → string → Q.
Variable CONCEPTS : list (string * list string).
Variable set_order : list string → list string.
Variable STANDARDS : gmap string json.

(** [list(set(xs))] has the members of [xs]. *)
Hypothesis set_order_members : ∀ xs x, x ∈ set_order xs ↔ x ∈ xs.

(** The metric does not rate an empty query above 70 against any text
    (the specification has the scorer return 0 for degenerate inputs). *)
Hypothesis empty_query_scores_low : ∀ text, (partial_ratio "" text <= 70)%Q.

(** No concept phrase of the table is the empty string. *)
Hypothesis concepts_nonempty :
  ∀ concept synonyms, (concept, synonyms) ∈ CONCEPTS → concept ≠ "".




Local Abbreviation search_standard :=
  (search_standard partial_ratio CONCEPTS set_order STANDARDS).


End EmptyResults.

(* ===================================================================== *)
(** * Dependence on the iteration order of the variant set *)
(* ===================================================================== *)

(** C5 (as amended): the list [search_standard] returns is determined by
    the corpus table, the concept table, the query, the limit and the first
    two variants that the iteration over the expanded set yields: two
    invocations under iteration orders that agree on those two variants,
    in particular under the same order, return the same list. *)
Theorem search_standard_first_two (partial_ratio : string → string → Q)
    (CONCEPTS : list (string * list string)) (STANDARDS : gmap string json)
    (order1 order2 : list string → list string)
    (standard_name query : string) (limit : Z) :
  take 2 (order1 (expanded CONCEPTS query))
    = take 2 (order2 (expanded CONCEPTS query)) →
  search_standard partial_ratio CONCEPTS order1 STANDARDS
      standard_name query limit
  = search_standard partial_ratio CONCEPTS order2 STANDARDS
      standard_name query limit.
Proof.
  intros Hsame. rewrite !search_standard_unfold. unfold discovered.
  destruct (STANDARDS !! standard_name) as [corpus|]; [|done].
  unfold all_results, expand_query.
  change (py_take 2 ?l) with (take 2 l). by rewrite Hsame.
Qed.

(* ===================================================================== *)
(** * The memo table *)
(* ===================================================================== *)

Section ScorerFacts.

Variable partial_ratio : string → string → Q.

Local Abbreviation cache_ok := (cache_ok partial_ratio).

Lemma cache_find_Some c a b v : cache_find c a b = Some v → (a, b, v) ∈ c.
Proof.
  induction c as [|[[a' b'] v'] c IH]; simpl; [done|].
  destruct (decide (a' = a ∧ b' = b)) as [[-> ->]|Hne].
  - intros [= ->]. by left.
  - intros H. right. by apply IH.
Qed.

Lemma cache_drop_subseteq c a b x : x ∈ cache_drop c a b → x ∈ c.
Proof.
  induction c as [|[[a' b'] v'] c IH]; simpl; [done|].
  destruct (decide (a' = a ∧ b' = b)).
  - by right.
  - intros [->|Hin]%elem_of_cons; [by left | right; by apply IH].
Qed.

Lemma cache_drop_length c a b v :
  cache_find c a b = Some v → S (length (cache_drop c a b)) = length c.
Proof.
  induction c as [|[[a' b'] v'] c IH]; simpl; [done|].
  destruct (decide (a' = a ∧ b' = b)); [done|].
  intros H. simpl. by rewrite IH.
Qed.

Lemma fuzz_score_call_value st a b :
  cache_ok (cache st) →
  (fuzz_score_call partial_ratio st a b).1 = fuzz_score partial_ratio a b.
Proof.
  intros Hok. unfold fuzz_score_call.
  destruct (cache_find (cache st) a b) as [v|] eqn:Hfind; [|done].
  simpl. by apply Hok, cache_find_Some.
Qed.

Lemma fuzz_score_call_ok st a b :
  cache_ok (cache st) → cache_ok (cache (fuzz_score_call partial_ratio st a b).2).
Proof.
  intros Hok. unfold fuzz_score_call.
  destruct (cache_find (cache st) a b) as [v|] eqn:Hfind; simpl.
  - intros a' b' v' [[= -> -> ->]|Hin]%elem_of_cons.
    + by apply Hok, cache_find_Some.
    + by apply Hok, (cache_drop_subseteq _ a b).
  - intros a' b' v' [[= -> -> ->]|Hin]%elem_of_cons; [done|].
    apply Hok. apply elem_of_take in Hin as (i & Hi & _).
    apply list_elem_of_lookup. eauto.
Qed.

(** The table never holds more than [maxsize] entries. *)
Lemma fuzz_score_call_bounded st a b :
  (length (cache st) ≤ maxsize)%nat →
  (length (cache (fuzz_score_call partial_ratio st a b).2) ≤ maxsize)%nat.
Proof.
  intros Hlen. unfold fuzz_score_call.
  destruct (cache_find (cache st) a b) as [v|] eqn:Hfind; simpl.
  - by rewrite (cache_drop_length _ _ _ _ Hfind).
  - rewrite length_take. unfold maxsize in *. lia.
Qed.

Lemma fuzz_score_calls_values st calls :
  cache_ok (cache st) →
  (fuzz_score_calls partial_ratio st calls).1
  = (λ ab, fuzz_score partial_ratio ab.1 ab.2) <$> calls.
Proof.
  revert st. induction calls as [|[a b] calls IH]; intros st Hok; [done|].
  simpl.
  pose proof (fuzz_score_call_value st a b Hok) as Hv.
  pose proof (fuzz_score_call_ok st a b Hok) as Hok'.
  destruct (fuzz_score_call partial_ratio st a b) as [v st'].
  specialize (IH st' Hok').
  destruct (fuzz_score_calls partial_ratio st' calls) as [vs st''].
  simpl in *. by rewrite Hv, IH.
Qed.

End ScorerFacts.

(* ===================================================================== *)
(** * The partial-ratio metric *)
(* ===================================================================== *)

Lemma lcs_rec_cons a s b t :
  Metric.lcs_rec (a :: s) (b :: t) =
    if decide (a = b) then S (Metric.lcs_rec s t)
    else Nat.max (Metric.lcs_rec s (b :: t)) (Metric.lcs_rec (a :: s) t).
Proof. reflexivity. Qed.

Lemma lcs_rec_nil_r s : Metric.lcs_rec s [] = 0%nat.
Proof. by destruct s. Qed.

Lemma lcs_rec_le_l s : ∀ t, (Metric.lcs_rec s t ≤ length s)%nat.
Proof.
  induction s as [|a s IHs]; intros t; [simpl; lia|].
  induction t as [|b t IHt]; [simpl; lia|].
  rewrite lcs_rec_cons. destruct (decide (a = b)).
  - specialize (IHs t). simpl. lia.
  - specialize (IHs (b :: t)). simpl in *. lia.
Qed.

Lemma lcs_rec_le_r s : ∀ t, (Metric.lcs_rec s t ≤ length t)%nat.
Proof.
  induction s as [|a s IHs]; intros t; [simpl; lia|].
  induction t as [|b t IHt]; [simpl; lia|].
  rewrite lcs_rec_cons. destruct (decide (a = b)).
  - specialize (IHs t). simpl. lia.
  - specialize (IHs (b :: t)). simpl in *. lia.
Qed.

Lemma lcs_rec_refl s : Metric.lcs_rec s s = length s.
Proof.
  induction s as [|a s IH]; [done|].
  rewrite lcs_rec_cons, decide_True by done. simpl. by rewrite IH.
Qed.

Lemma lcs_rows_spec s : ∀ t,
  Metric.lcs_rows s t = Metric.lcs_rec s <$> suffixes t.
Proof.
  induction s as [|a s IHs]; intros t.
  - simpl. induction t as [|b t IHt]; [done|].
    simpl in *. by rewrite IHt.
  - simpl Metric.lcs_rows. rewrite IHs. clear IHs.
    induction t as [|b t IHt]; [done|].
    cbn [suffixes fmap list_fmap Metric.lcs_step].
    rewrite IHt. f_equal.
    rewrite lcs_rec_cons. by destruct t.
Qed.

Lemma lcs_correct s t : Metric.lcs s t = Metric.lcs_rec s t.
Proof. unfold Metric.lcs. rewrite lcs_rows_spec. by destruct t. Qed.

Lemma ratio_range s t : 0 ≤ Metric.ratio s t ≤ 100.
Proof.
  unfold Metric.ratio. rewrite lcs_correct.
  pose proof (lcs_rec_le_l s t). pose proof (lcs_rec_le_r s t).
  destruct (decide (length s + length t = 0)%nat) as [Hz|Hnz].
  - rewrite Hz. change (Z.of_nat 0) with 0. rewrite Z.div_0_r. lia.
  - split.
    + apply Z.div_pos; lia.
    + apply Z.div_le_upper_bound; lia.
Qed.

Lemma ratio_refl s : s ≠ [] → Metric.ratio s s = 100.
Proof.
  intros Hs. unfold Metric.ratio. rewrite lcs_correct, lcs_rec_refl.
  assert (0 < length s)%nat by (destruct s; [done | simpl; lia]).
  replace (200 * Z.of_nat (length s))
    with (100 * Z.of_nat (length s + length s)) by lia.
  apply Z.div_mul. lia.
Qed.

Lemma best_range scores :
  Forall (λ x, 0 ≤ x ≤ 100) scores → 0 ≤ Metric.best scores ≤ 100.
Proof.
  unfold Metric.best. induction 1 as [|x scores Hx _ IH]; simpl; lia.
Qed.

Lemma best_ratio_range s ws : 0 ≤ Metric.best (map (Metric.ratio s) ws) ≤ 100.
Proof.
  apply best_range, Forall_fmap, Forall_forall. intros w _. apply ratio_range.
Qed.

Lemma windows_short m t : (length t < m)%nat → Metric.windows m t = [].
Proof.
  intros Hlt. apply Nat.ltb_lt in Hlt.
  destruct t; cbn [Metric.windows]; by rewrite Hlt.
Qed.

Lemma windows_whole s : s ≠ [] → Metric.windows (length s) s = [s].
Proof.
  intros Hs. destruct s as [|c s]; [done|].
  cbn [Metric.windows]. rewrite Nat.ltb_irrefl, firstn_all. f_equal.
  apply windows_short. simpl. lia.
Qed.

Lemma list_ascii_nonempty a : a ≠ EmptyString → list_ascii_of_string a ≠ [].
Proof. by destruct a. Qed.

Lemma partial_ratio_range a b : 0 ≤ Metric.partial_ratio a b ≤ 100.
Proof.
  unfold Metric.partial_ratio.
  destruct (list_ascii_of_string a) as [|c s]; [lia|].
  destruct (list_ascii_of_string b) as [|d t]; [lia|].
  destruct (_ <=? _)%nat; apply best_ratio_range.
Qed.

Lemma partial_ratio_refl a : a ≠ EmptyString → Metric.partial_ratio a a = 100.
Proof.
  intros Ha%list_ascii_nonempty. unfold Metric.partial_ratio.
  destruct (list_ascii_of_string a) as [|c s] eqn:Hs; [done|].
  rewrite Nat.leb_refl, windows_whole by done.
  simpl. rewrite ratio_refl by done. reflexivity.
Qed.

Lemma partial_ratio_empty a b :
  a = EmptyString ∨ b = EmptyString → Metric.partial_ratio a b = 0.
Proof.
  unfold Metric.partial_ratio. intros [-> | ->]; simpl; [done|].
  by destruct (list_ascii_of_string a).
Qed.

(** C6: the decorated scorer is deterministic: whatever calls came before
    and whatever the memo table holds as a result, a call returns the value
    of [fuzz_score] at its arguments, so repeated calls with one pair agree.
    With the partial-ratio metric of the specification that value is a
    whole number between 0 and 100 for every pair of strings; it is 100,
    the maximum, for a non-empty string against itself; and it is 0 when
    either string is empty. *)
Theorem fuzz_score_contract :
  (∀ calls : list (string * string),
     (fuzz_score_calls Metric.score (scorer_init) calls).1
     = (λ ab, fuzz_score Metric.score ab.1 ab.2) <$> calls)
  ∧ (∀ a b, ∃ n : Z,
       fuzz_score Metric.score a b = inject_Z n ∧ 0 ≤ n ≤ 100)
  ∧ (∀ a, a ≠ EmptyString → fuzz_score Metric.score a a = inject_Z 100)
  ∧ (∀ a b, a = EmptyString ∨ b = EmptyString →
       fuzz_score Metric.score a b = inject_Z 0).
Proof.
  split; [|split; [|split]].
  - intros calls. apply fuzz_score_calls_values. by intros a b v ?%elem_of_nil.
  - intros a b. eexists. split; [reflexivity|]. apply partial_ratio_range.
  - intros a Ha. unfold fuzz_score, Metric.score.
    rewrite partial_ratio_refl; [done|]. by rewrite lower_empty.
  - intros a b Hab. unfold fuzz_score, Metric.score.
    rewrite partial_ratio_empty; [done|]. by rewrite !lower_empty.
Qed.

(* ===================================================================== *)
(** * The telemetry buffer *)
(* ===================================================================== *)

Module TelemetryFacts.
Import Telemetry.

Lemma last_n_length {A} (n : nat) (xs : list A) :
  (n ≤ length xs)%nat → length (last_n n xs) = n.
Proof. intros H. unfold last_n. rewrite length_drop. lia. Qed.

Lemma last_n_suffix {A} (n : nat) (xs : list A) :
  xs = take (length xs - n) xs ++ last_n n xs.
Proof. unfold last_n. by rewrite take_drop. Qed.

Lemma log_query_disabled st c : enabled st = false → log_query st c = (st, false).
Proof. intros H. unfold log_query. by rewrite H. Qed.

Lemma log_query_buffer st c :
  enabled st = true →
  buffer (log_query st c).1 =
    (if (50 <? length (buffer st))%nat then last_n 25 (buffer st) else buffer st)
    ++ [row_of c].
Proof.
  intros H. unfold log_query. rewrite H. simpl.
  by destruct (_ && _)%bool.
Qed.

Lemma log_query_frame st c :
  let st' := (log_query st c).1 in
  enabled st' = enabled st ∧ sheet st' = sheet st
  ∧ flush_count st' = flush_count st
  ∧ sheet_calls st' = sheet_calls st ∧ csv_calls st' = csv_calls st.
Proof.
  unfold log_query. destruct (enabled st) eqn:He; simpl; [|done].
  by destruct (_ && _)%bool.
Qed.

Lemma step_length st e :
  (length (buffer st) ≤ 51)%nat → (length (buffer (step st e)) ≤ 51)%nat.
Proof.
  intros Hlen. destruct e as [c|ok]; simpl.
  - destruct (enabled st) eqn:He.
    + rewrite log_query_buffer by done. rewrite length_app. simpl.
      destruct (50 <? length (buffer st))%nat eqn:Hcap.
      * apply Nat.ltb_lt in Hcap. rewrite last_n_length by lia. lia.
      * apply Nat.ltb_ge in Hcap. lia.
    + by rewrite log_query_disabled.
  - unfold _flush_buffer. destruct (buffer st) eqn:Hb; [by rewrite Hb|].
    destruct (sheet st); [destruct ok|]; simpl; lia.
Qed.

Lemma run_length st trace :
  (length (buffer st) ≤ 51)%nat → (length (buffer (run st trace)) ≤ 51)%nat.
Proof.
  revert st. induction trace as [|e trace IH]; intros st Hlen; [done|].
  simpl. by apply IH, step_length.
Qed.

Lemma logs_length st c n :
  enabled st = true → (length (buffer st) + n ≤ 51)%nat →
  length (buffer (run st (replicate n (Log c)))) = (length (buffer st) + n)%nat.
Proof.
  revert st. induction n as [|n IH]; intros st He Hlen; simpl; [lia|].
  destruct (log_query_frame st c) as (He' & _).
  rewrite IH.
  - rewrite log_query_buffer by done.
    replace (50 <? length (buffer st))%nat with false
      by (symmetry; apply Nat.ltb_ge; lia).
    rewrite length_app. simpl. lia.
  - by rewrite He'.
  - rewrite log_query_buffer by done.
    replace (50 <? length (buffer st))%nat with false
      by (symmetry; apply Nat.ltb_ge; lia).
    rewrite length_app. simpl. lia.
Qed.

Lemma run_app st trace1 trace2 :
  run st (trace1 ++ trace2) = run (run st trace1) trace2.
Proof. apply fold_left_app. Qed.

Lemma logs_enabled st c n :
  enabled st = true → enabled (run st (replicate n (Log c))) = true.
Proof.
  revert st. induction n as [|n IH]; intros st He; [done|].
  cbn [replicate run fold_left step]. apply IH.
  destruct (log_query_frame st c) as [-> _]. done.
Qed.

Lemma log_after_51 st c :
  enabled st = true → length (buffer st) = 51%nat →
  length (buffer (log_query st c).1) = 26%nat.
Proof.
  intros He Hlen. rewrite log_query_buffer, Hlen by done.
  change (50 <? 51)%nat with true. cbv iota.
  by rewrite length_app, last_n_length by lia.
Qed.

(** C3 (as amended): the buffer never holds more than 51 rows. [log_query]
    tests the cap before it appends: when it finds more than 50 rows it
    keeps the newest 25, dropping exactly the older ones, and then appends
    the new row, which leaves 26; when it finds at most 50 it only appends.
    So 51 calls in a row on an empty buffer leave 51 rows and the 52nd
    leaves 26. *)
Theorem buffer_bounded :
  (∀ sheets_enabled sheet_connected trace,
     (length (buffer (run (init sheets_enabled sheet_connected) trace)) ≤ 51)%nat)
  ∧ (∀ st c, enabled st = true → (50 < length (buffer st))%nat →
       buffer (log_query st c).1 = last_n 25 (buffer st) ++ [row_of c]
       ∧ length (last_n 25 (buffer st)) = 25%nat
       ∧ ∃ dropped, buffer st = dropped ++ last_n 25 (buffer st))
  ∧ (∀ st c, enabled st = true → (length (buffer st) ≤ 50)%nat →
       buffer (log_query st c).1 = buffer st ++ [row_of c])
  ∧ (∀ sheet_connected c,
       length (buffer (run (init true sheet_connected) (replicate 51 (Log c))))
         = 51%nat
       ∧ length (buffer (run (init true sheet_connected) (replicate 52 (Log c))))
         = 26%nat).
Proof.
  split; [|split; [|split]].
  - intros sheets_enabled sheet_connected trace. apply run_length. simpl. lia.
  - intros st c He Hcap. rewrite log_query_buffer by done.
    replace (50 <? length (buffer st))%nat with true
      by (symmetry; apply Nat.ltb_lt; lia).
    split; [done|]. split; [apply last_n_length; lia|].
    eexists. apply last_n_suffix.
  - intros st c He Hcap. rewrite log_query_buffer by done.
    by replace (50 <? length (buffer st))%nat with false
      by (symmetry; apply Nat.ltb_ge; lia).
  - intros sheet_connected c.
    assert (H51 : length (buffer (run (init true sheet_connected)
                                      (replicate 51 (Log c)))) = 51%nat).
    { rewrite logs_length; [reflexivity | reflexivity |].
      cbn [init buffer length]. lia. }
    split; [done|].
    rewrite (replicate_S_end 51), run_app.
    change (run ?s [Log c]) with (log_query s c).1.
    apply log_after_51; [|done]. by apply logs_enabled.
Qed.

(** ** Flushing *)

Lemma occurrences_app r rows1 rows2 :
  occurrences r (rows1 ++ rows2) = (occurrences r rows1 + occurrences r rows2)%nat.
Proof. unfold occurrences. by rewrite List.filter_app, length_app. Qed.

Lemma occurrences_concat_snoc r (calls : list (list Row)) batch :
  occurrences r (concat (calls ++ [batch]))
  = (occurrences r (concat calls) + occurrences r batch)%nat.
Proof.
  rewrite concat_app, occurrences_app. simpl. by rewrite app_nil_r.
Qed.

Lemma occurrences_last_n r n rows :
  (occurrences r (last_n n rows) ≤ occurrences r rows)%nat.
Proof.
  rewrite (last_n_suffix n rows) at 2. rewrite occurrences_app. lia.
Qed.

Lemma flush_buffer_cases st append_ok :
  buffer st ≠ [] →
  _flush_buffer st append_ok =
    if sheet st then
      if append_ok then
        mkLogger (enabled st) true [] (last_flush_time st) (flush_count st + 1)
                 (sheet_calls st ++ [buffer st]) (csv_calls st)
      else
        mkLogger (enabled st) false [] (last_flush_time st) (flush_count st)
                 (sheet_calls st ++ [buffer st]) (csv_calls st ++ [buffer st])
    else
      mkLogger (enabled st) false [] (last_flush_time st) (flush_count st)
               (sheet_calls st) (csv_calls st ++ [buffer st]).
Proof.
  intros Hne. unfold _flush_buffer, csv_fallback.
  destruct (buffer st) eqn:Hb; [done|].
  destruct (sheet st) eqn:Hs; [by destruct append_ok|done].
Qed.

Lemma flush_buffer_empty st append_ok :
  buffer st = [] → _flush_buffer st append_ok = st.
Proof. intros Hb. unfold _flush_buffer. by rewrite Hb. Qed.

Lemma flush_buffer_clears st append_ok : buffer (_flush_buffer st append_ok) = [].
Proof.
  destruct (decide (buffer st = [])) as [Hb|Hb].
  - by rewrite flush_buffer_empty.
  - rewrite flush_buffer_cases by done.
    destruct (sheet st); [by destruct append_ok|done].
Qed.

(** One step hands to the primary sink only rows that leave the buffer,
    and adds to the buffer only the row being logged. *)
Lemma step_sheet_rows st e r :
  (occurrences r (concat (sheet_calls (step st e)))
     + occurrences r (buffer (step st e))
   ≤ occurrences r (concat (sheet_calls st)) + occurrences r (buffer st)
     + occurrences r (logged [e]))%nat.
Proof.
  destruct e as [c|ok]; cbn [step logged flat_map].
  - destruct (log_query_frame st c) as (_ & _ & _ & -> & _).
    destruct (enabled st) eqn:He.
    + rewrite log_query_buffer, !occurrences_app by done.
      pose proof (occurrences_last_n r 25 (buffer st)).
      destruct (50 <? length (buffer st))%nat; simpl; lia.
    + rewrite log_query_disabled by done. simpl. lia.
  - destruct (decide (buffer st = [])) as [Hb|Hb].
    + rewrite flush_buffer_empty by done. lia.
    + rewrite flush_buffer_cases by done.
      destruct (sheet st); [destruct ok|]; cbn [sheet_calls buffer];
        rewrite ?occurrences_concat_snoc; simpl; lia.
Qed.

Lemma step_csv_rows st e r :
  (occurrences r (concat (csv_calls (step st e)))
     + occurrences r (buffer (step st e))
   ≤ occurrences r (concat (csv_calls st)) + occurrences r (buffer st)
     + occurrences r (logged [e]))%nat.
Proof.
  destruct e as [c|ok]; cbn [step logged flat_map].
  - destruct (log_query_frame st c) as (_ & _ & _ & _ & ->).
    destruct (enabled st) eqn:He.
    + rewrite log_query_buffer, !occurrences_app by done.
      pose proof (occurrences_last_n r 25 (buffer st)).
      destruct (50 <? length (buffer st))%nat; simpl; lia.
    + rewrite log_query_disabled by done. simpl. lia.
  - destruct (decide (buffer st = [])) as [Hb|Hb].
    + rewrite flush_buffer_empty by done. lia.
    + rewrite flush_buffer_cases by done.
      destruct (sheet st); [destruct ok|]; cbn [csv_calls buffer];
        rewrite ?occurrences_concat_snoc; simpl; lia.
Qed.

Lemma logged_cons e trace : logged (e :: trace) = logged [e] ++ logged trace.
Proof. unfold logged. simpl. by rewrite app_nil_r. Qed.

Lemma run_sheet_rows trace : ∀ st r,
  (occurrences r (concat (sheet_calls (run st trace)))
     + occurrences r (buffer (run st trace))
   ≤ occurrences r (concat (sheet_calls st)) + occurrences r (buffer st)
     + occurrences r (logged trace))%nat.
Proof.
  induction trace as [|e trace IH]; intros st r; [simpl; lia|].
  rewrite logged_cons, occurrences_app.
  change (run st (e :: trace)) with (run (step st e) trace).
  specialize (IH (step st e) r). pose proof (step_sheet_rows st e r). lia.
Qed.

Lemma run_csv_rows trace : ∀ st r,
  (occurrences r (concat (csv_calls (run st trace)))
     + occurrences r (buffer (run st trace))
   ≤ occurrences r (concat (csv_calls st)) + occurrences r (buffer st)
     + occurrences r (logged trace))%nat.
Proof.
  induction trace as [|e trace IH]; intros st r; [simpl; lia|].
  rewrite logged_cons, occurrences_app.
  change (run st (e :: trace)) with (run (step st e) trace).
  specialize (IH (step st e) r). pose proof (step_csv_rows st e r). lia.
Qed.

(** Once the worksheet handle is dropped nothing sets it again, and the
    primary sink receives nothing more. *)
Lemma step_sheet_off st e :
  sheet st = false →
  sheet (step st e) = false ∧ sheet_calls (step st e) = sheet_calls st.
Proof.
  intros Hs. destruct e as [c|ok]; cbn [step].
  - destruct (log_query_frame st c) as (_ & -> & _ & -> & _). done.
  - destruct (decide (buffer st = [])) as [Hb|Hb].
    + by rewrite flush_buffer_empty.
    + rewrite flush_buffer_cases, Hs by done. done.
Qed.

Lemma run_sheet_off trace : ∀ st,
  sheet st = false →
  sheet (run st trace) = false ∧ sheet_calls (run st trace) = sheet_calls st.
Proof.
  induction trace as [|e trace IH]; intros st Hs; [done|].
  change (run st (e :: trace)) with (run (step st e) trace).
  destruct (step_sheet_off st e Hs) as [Hs' Hcalls].
  destruct (IH _ Hs') as [? ->]. done.
Qed.

(** C4: over any sequence of [log_query] and [_flush_buffer] calls, a row
    is handed to the primary sink no more often than it was logged, and
    likewise to the CSV sink; a flush leaves the buffer empty whatever its
    writes do; when the primary write fails the worksheet handle is
    dropped, the batch was offered to the primary once and is handed to
    the CSV sink; from then on the handle stays dropped, the primary
    receives nothing more, and every flush of a non-empty buffer hands its
    batch to the CSV sink. *)
Theorem flush_at_most_once :
  (∀ sheets_enabled sheet_connected trace r,
     let st := run (init sheets_enabled sheet_connected) trace in
     (occurrences r (concat (sheet_calls st)) + occurrences r (buffer st)
        ≤ occurrences r (logged trace))%nat
     ∧ (occurrences r (concat (csv_calls st)) + occurrences r (buffer st)
        ≤ occurrences r (logged trace))%nat)
  ∧ (∀ st append_ok, buffer (_flush_buffer st append_ok) = [])
  ∧ (∀ st, sheet st = true → buffer st ≠ [] →
       let st' := _flush_buffer st false in
       sheet st' = false
       ∧ sheet_calls st' = sheet_calls st ++ [buffer st]
       ∧ csv_calls st' = csv_calls st ++ [buffer st])
  ∧ (∀ st later, sheet st = false →
       sheet (run st later) = false
       ∧ sheet_calls (run st later) = sheet_calls st)
  ∧ (∀ st append_ok, sheet st = false → buffer st ≠ [] →
       csv_calls (_flush_buffer st append_ok) = csv_calls st ++ [buffer st]).
Proof.
  split; [|split; [|split; [|split]]].
  - intros sheets_enabled sheet_connected trace r. split.
    + pose proof (run_sheet_rows trace (init sheets_enabled sheet_connected) r)
        as H. simpl in H. unfold occurrences in *. simpl in H. lia.
    + pose proof (run_csv_rows trace (init sheets_enabled sheet_connected) r)
        as H. simpl in H. unfold occurrences in *. simpl in H. lia.
  - apply flush_buffer_clears.
  - intros st Hs Hb. rewrite flush_buffer_cases, Hs by done. done.
  - intros st later Hs. by apply run_sheet_off.
  - intros st append_ok Hs Hb. rewrite flush_buffer_cases, Hs by done. done.
Qed.

(** C3: a logger that has just flushed receives 51 calls within the
    minimum flush interval. None of them starts a flush, none evicts, and
    the buffer ends with 51 rows: more than the cap of 50, and more than
    the 25 the claim expects. *)
Lemma buffer_exceeds_cap :
  let st0 :=
    run (init true true) (replicate 5 (Log (sample_call 1000)) ++ [Flush true]) in
  let burst := replicate 51 (Log (sample_call 1001)) in
  buffer st0 = []
  ∧ flush_starts st0 burst = replicate 51 false
  ∧ length (buffer (run st0 burst)) = 51%nat
  ∧ (50 <? length (buffer (run st0 burst)))%nat = true.
Proof. vm_compute. repeat split; reflexivity. Qed.

(** The specification's sink-fallback scenario: the first flush fails on
    the primary sink; that batch and the next go to the CSV sink, and the
    primary is not called again. *)
Example sink_fallback :
  let st :=
    run (init true true)
        [Log (sample_call 1); Flush false; Log (sample_call 2); Flush true] in
  sheet st = false
  ∧ sheet_calls st = [[row_of (sample_call 1)]]
  ∧ csv_calls st = [[row_of (sample_call 1)]; [row_of (sample_call 2)]]
  ∧ buffer st = [].
Proof. vm_compute. repeat split; reflexivity. Qed.

End TelemetryFacts.

(* ===================================================================== *)
(** * Instances *)
(* ===================================================================== *)

Lemma order_forward_enumerates : set_enumeration order_forward.
Proof.
  intros xs. split; [apply NoDup_remove_dups|].
  intros x. apply elem_of_remove_dups.
Qed.

Lemma order_backward_enumerates : set_enumeration order_backward.
Proof.
  intros xs. unfold order_backward. split.
  - rewrite reverse_Permutation. apply NoDup_remove_dups.
  - intros x. by rewrite elem_of_reverse, elem_of_remove_dups.
Qed.



(** The specification's end-to-end example: the query "scope 3" finds the
    key "Scope 3", and the key match outranks the match in the text below
    it. *)
Example search_scope_3 :
  search_standard Metric.score default_concepts order_forward sample_standards
    "ESRS" "scope 3" 3
  = [ mkRanked 92 "Emissions > Scope 3"
        (JStr "value chain indirect emissions disclosure") 1 "ESRS";
      mkRanked 92 "Emissions"
        (JObj [("Scope 3", JStr "value chain indirect emissions disclosure")])
        0 "ESRS" ].
Proof. vm_compute. reflexivity. Qed.


(** C8, at the default concept table. *)
Lemma expand_query_contains_witness :
  "compare ghg emissions"
    ∈ expand_query default_concepts order_forward "Compare GHG emissions"
  ∧ "carbon" ∈ expand_query default_concepts order_forward "Compare GHG emissions"
  ∧ "brsr" ∈ expand_query default_concepts order_forward "Compare GHG emissions"
  ∧ "compare" ∈ expand_query default_concepts order_forward "Compare GHG emissions".
Proof.
  destruct (expand_query_contains default_concepts order_forward
              (λ xs x, proj2 (order_forward_enumerates xs) x)
              "Compare GHG emissions")
    as (Hq & Hsyn & Hnames & Hwords).
  split; [exact Hq|]. split; [|split].
  - apply (Hsyn "emissions" ["emissions"; "ghg"; "carbon"; "co2"]).
    + apply (bool_decide_unpack _). vm_compute. exact I.
    + exists "compare ghg ", "". reflexivity.
    + apply (bool_decide_unpack _). vm_compute. exact I.
  - apply (Hnames "compare").
    + apply (bool_decide_unpack _). vm_compute. exact I.
    + right. exists "", " ghg emissions". reflexivity.
    + apply (bool_decide_unpack _). vm_compute. exact I.
  - apply Hwords; [|simpl; lia].
    apply (bool_decide_unpack _). vm_compute. exact I.
Defined.



(** C5: the same call under the two enumeration orders. For the query
    "emissions" the expanded set is emissions, ghg, carbon, co2. When the
    iteration yields ghg and carbon first nothing in the sample corpus
    matches; when it yields emissions and co2 first the key "Emissions" and
    the text below it match. *)
Lemma search_standard_order_dependent :
  set_enumeration order_forward
  ∧ set_enumeration order_backward
  ∧ take 2 (order_forward (expanded default_concepts "emissions"))
      = ["ghg"; "carbon"]
  ∧ take 2 (order_backward (expanded default_concepts "emissions"))
      = ["emissions"; "co2"]
  ∧ search_standard Metric.score default_concepts order_forward
      sample_standards "ESRS" "emissions" 3 = []
  ∧ search_standard Metric.score default_concepts order_backward
      sample_standards "ESRS" "emissions" 3
    = [ mkRanked 92 "Emissions"
          (JObj [("Scope 3", JStr "value chain indirect emissions disclosure")])
          0 "ESRS";
        mkRanked 84 "Emissions > Scope 3"
          (JStr "value chain indirect emissions disclosure") 2 "ESRS" ].
Proof.
  split; [apply order_forward_enumerates|].
  split; [apply order_backward_enumerates|].
  repeat split; vm_compute; reflexivity.
Qed.

Lemma order_tail_backward_enumerates : set_enumeration order_tail_backward.
Proof.
  intros xs. unfold order_tail_backward.
  assert (Hperm : take 2 (remove_dups xs) ++ reverse (drop 2 (remove_dups xs))
                  ≡ₚ remove_dups xs).
  { rewrite reverse_Permutation. by rewrite take_drop. }
  split.
  - rewrite Hperm. apply NoDup_remove_dups.
  - intros x. rewrite Hperm. apply elem_of_remove_dups.
Qed.

(** C5 (as amended), for the query "scope 3", whose expanded set has four
    variants. Two enumerations of that set that differ (in their last two
    variants) and agree on the first two give the same result, the two
    entries of the specification's example. *)
Lemma search_standard_first_two_witness :
  set_enumeration order_forward
  ∧ set_enumeration order_tail_backward
  ∧ order_forward (expanded default_concepts "scope 3")
    = ["scope 3"; "indirect emissions"; "value chain"; "scope"]
  ∧ order_tail_backward (expanded default_concepts "scope 3")
    = ["scope 3"; "indirect emissions"; "scope"; "value chain"]
  ∧ take 2 (order_forward (expanded default_concepts "scope 3"))
    = take 2 (order_tail_backward (expanded default_concepts "scope 3"))
  ∧ search_standard Metric.score default_concepts order_forward
      sample_standards "ESRS" "scope 3" 3
    = search_standard Metric.score default_concepts order_tail_backward
        sample_standards "ESRS" "scope 3" 3
  ∧ search_standard Metric.score default_concepts order_tail_backward
      sample_standards "ESRS" "scope 3" 3
    = [ mkRanked 92 "Emissions > Scope 3"
          (JStr "value chain indirect emissions disclosure") 1 "ESRS";
        mkRanked 92 "Emissions"
          (JObj [("Scope 3", JStr "value chain indirect emissions disclosure")])
          0 "ESRS" ].
Proof.
  assert (Hsame :
    take 2 (order_forward (expanded default_concepts "scope 3"))
    = take 2 (order_tail_backward (expanded default_concepts "scope 3")))
    by (vm_compute; reflexivity).
  split; [apply order_forward_enumerates|].
  split; [apply order_tail_backward_enumerates|].
  split; [vm_compute; reflexivity|].
  split; [vm_compute; reflexivity|].
  split; [exact Hsame|].
  split; [|vm_compute; reflexivity].
  exact (search_standard_first_two Metric.score default_concepts
           sample_standards order_forward order_tail_backward
           "ESRS" "scope 3" 3 Hsame).
Defined.

(* ===================================================================== *)
(** * Stripping, joining and shortening *)
(* ===================================================================== *)

Lemma prefix_n_length n s :
  String.length (Str.prefix_n n s) = Nat.min n (String.length s).
Proof.
  revert s. induction n as [|n IH]; intros [|c s]; simpl; try done.
  by rewrite IH.
Qed.

Lemma string_app_length s t :
  String.length (s +:+ t) = (String.length s + String.length t)%nat.
Proof. induction s as [|c s IH]; [done|]. rewrite app_String. simpl. by rewrite IH. Qed.

Lemma lstrip_first s c :
  first_char (Text.lstrip s) = Some c → Str.isspace c = false.
Proof.
  induction s as [|c' s IH]; simpl; [done|].
  destruct (Str.isspace c') eqn:Hc'; [done|].
  simpl. by intros [= <-].
Qed.

Lemma rstrip_last s c :
  last_char (Text.rstrip s) = Some c → Str.isspace c = false.
Proof.
  induction s as [|c' s IH]; simpl; [done|].
  destruct (Text.rstrip s) as [|k kept] eqn:Hkept.
  - destruct (Str.isspace c') eqn:Hc'; simpl; [done|]. by intros [= <-].
  - simpl. destruct kept; apply IH.
Qed.

Lemma rstrip_first s c :
  first_char (Text.rstrip s) = Some c → first_char s = Some c.
Proof.
  destruct s as [|c' s]; simpl; [done|].
  destruct (Text.rstrip s); [|done].
  by destruct (Str.isspace c').
Qed.

Lemma lstrip_fixed s :
  (∀ c, first_char s = Some c → Str.isspace c = false) → Text.lstrip s = s.
Proof.
  destruct s as [|c s]; simpl; [done|].
  intros H. by rewrite (H c eq_refl).
Qed.

Lemma rstrip_idem s : Text.rstrip (Text.rstrip s) = Text.rstrip s.
Proof.
  induction s as [|c s IH]; simpl; [done|].
  destruct (Text.rstrip s) as [|k kept] eqn:Hkept.
  - destruct (Str.isspace c) eqn:Hc; simpl; [done|]. by rewrite Hc.
  - simpl in *. rewrite IH. done.
Qed.

Lemma strip_ends s c :
  first_char (Text.strip s) = Some c ∨ last_char (Text.strip s) = Some c →
  Str.isspace c = false.
Proof.
  unfold Text.strip. intros [H|H].
  - by apply (lstrip_first s), rstrip_first.
  - by apply (rstrip_last (Text.lstrip s)).
Qed.

Lemma strip_idem s : Text.strip (Text.strip s) = Text.strip s.
Proof.
  unfold Text.strip at 1. rewrite lstrip_fixed.
  - unfold Text.strip. apply rstrip_idem.
  - intros c Hc. apply (strip_ends s). by left.
Qed.

Lemma shorten_length n t : (String.length (Display.shorten n t) ≤ n + 3)%nat.
Proof.
  unfold Display.shorten. destruct (n <? String.length t)%nat eqn:Hn.
  - rewrite string_app_length, prefix_n_length. simpl. lia.
  - apply Nat.ltb_ge in Hn. lia.
Qed.

Lemma stripped_strings_none values :
  Forall (λ v, ∀ s, v ≠ JStr s) values → Display.stripped_strings values = [].
Proof.
  induction 1 as [|v values Hv _ IH]; [done|].
  destruct v; simpl; try done. by destruct (Hv s).
Qed.

Lemma preferred_texts_none members :
  Forall (λ v, ∀ s, v ≠ JStr s) (map snd members) →
  Display.preferred_texts members = [].
Proof.
  intros Hnone.
  assert (Hget : ∀ key s, Display.obj_get members key ≠ Some (JStr s)).
  { intros key s. induction members as [|[k v] members IH]; simpl; [done|].
    apply Forall_cons in Hnone as [Hv Hrest].
    destruct (decide (k = key)); [|by apply IH].
    intros [= ->]. by destruct (Hv s). }
  unfold Display.preferred_texts. apply flat_map_nil. intros key _.
  destruct (Display.obj_get members key) as [[]|] eqn:Hk; try done.
  by destruct (Hget key s).
Qed.

(** X1: what [extract_text] gives the handlers. The text of an object or an
    array is at most 300 characters long; the text of a string is the
    string without the white space at its two ends, however long it is,
    and stripping it again changes nothing; an object none of whose values
    is a string, and an array none of whose elements is one, give the empty
    text; and the text a handler displays, cut at [n] characters with an
    ellipsis, is never longer than [n + 3]. *)
Theorem extract_text_shown (str_number : Q → string) :
  (∀ members,
     (String.length (Display.extract_text str_number (JObj members)) ≤ 300)%nat)
  ∧ (∀ items,
       (String.length (Display.extract_text str_number (JArr items)) ≤ 300)%nat)
  ∧ (∀ s c,
       Display.extract_text str_number (JStr s) = Text.strip s
       ∧ Text.strip (Text.strip s) = Text.strip s
       ∧ (first_char (Text.strip s) = Some c → Str.isspace c = false)
       ∧ (last_char (Text.strip s) = Some c → Str.isspace c = false))
  ∧ (∀ members,
       Forall (λ v, ∀ s, v ≠ JStr s) (map snd members) →
       Display.extract_text str_number (JObj members) = EmptyString)
  ∧ (∀ items,
       Forall (λ v, ∀ s, v ≠ JStr s) items →
       Display.extract_text str_number (JArr items) = EmptyString)
  ∧ (∀ n content,
       (String.length (Display.display_content str_number n content) ≤ n + 3)%nat).
Proof.
  split; [|split; [|split; [|split; [|split]]]].
  - intros members. unfold Display.extract_text. rewrite prefix_n_length. lia.
  - intros items. unfold Display.extract_text. rewrite prefix_n_length. lia.
  - intros s c. split; [done|]. split; [apply strip_idem|].
    split; intros H; apply (strip_ends s); auto.
  - intros members Hnone. unfold Display.extract_text.
    by rewrite preferred_texts_none, stripped_strings_none.
  - intros items Hnone. unfold Display.extract_text.
    by rewrite stripped_strings_none.
  - intros n content. apply shorten_length.
Qed.

(* ===================================================================== *)
(** * The band of the normalized scores *)
(* ===================================================================== *)

Lemma py_int_mono x y : (x <= y)%Q → py_int x ≤ py_int y.
Proof.
  intros Hxy.
  destruct (Qlt_le_dec x 0) as [Hx|Hx].
  - rewrite (proj2 (py_int_truncates x)) by by apply Qlt_le_weak.
    destruct (Qlt_le_dec 0 y) as [Hy|Hy].
    + rewrite (proj1 (py_int_truncates y)) by by apply Qlt_le_weak.
      transitivity 0.
      * change 0 with (Qceiling (inject_Z 0)).
        apply Qceiling_resp_le. by apply Qlt_le_weak.
      * change 0 with (Qfloor (inject_Z 0)).
        apply Qfloor_resp_le. by apply Qlt_le_weak.
    + rewrite (proj2 (py_int_truncates y)) by done.
      by apply Qceiling_resp_le.
  - rewrite (proj1 (py_int_truncates x)) by done.
    rewrite (proj1 (py_int_truncates y)) by by apply (Qle_trans _ x).
    by apply Qfloor_resp_le.
Qed.

Lemma rescale_mono a b : (a <= b)%Q → (a * 100 / 130 <= b * 100 / 130)%Q.
Proof.
  intros H. unfold Qdiv.
  apply Qmult_le_compat_r; [|done]. by apply Qmult_le_compat_r.
Qed.

Lemma normalize_score_mono a b :
  (a <= b)%Q → normalize_score a ≤ normalize_score b.
Proof.
  intros H. unfold normalize_score.
  pose proof (py_int_mono _ _ (rescale_mono a b H)). lia.
Qed.

Lemma rescale_boost s :
  ((s + 20) * 100 / 130 == (s + 10) * 100 / 130 + 100 / 13)%Q.
Proof. field. Qed.

Lemma normalize_score_boost s :
  (-10 <= s)%Q → (s <= 110)%Q →
  normalize_score (s + 10) + 7 ≤ normalize_score (s + 20).
Proof.
  intros Hlo Hhi. unfold normalize_score.
  set (x := ((s + 10) * 100 / 130)%Q). set (y := ((s + 20) * 100 / 130)%Q).
  assert (Hx : (0 <= x)%Q).
  { unfold x, Qdiv. apply Qmult_le_0_compat; [|done].
    apply Qmult_le_0_compat; [|done].
    change 0%Q with (-10 + 10)%Q. by apply Qplus_le_compat. }
  assert (Hy : (y <= 100)%Q).
  { apply (Qle_trans _ ((110 + 20) * 100 / 130)); [|done].
    apply rescale_mono. by apply Qplus_le_compat. }
  assert (Hxy : (x + 7 <= y)%Q).
  { unfold x, y. rewrite rescale_boost.
    apply Qplus_le_compat; [apply Qle_refl | done]. }
  assert (H0y : (0 <= y)%Q).
  { apply (Qle_trans _ (x + 7)); [|done].
    change 0%Q with (0 + 0)%Q. by apply Qplus_le_compat. }
  rewrite (proj1 (py_int_truncates x)), (proj1 (py_int_truncates y)) by done.
  assert (Hfx : 0 ≤ Qfloor x).
  { change 0 with (Qfloor (inject_Z 0)). by apply Qfloor_resp_le. }
  assert (Hfy : Qfloor y ≤ 100).
  { change 100 with (Qfloor (inject_Z 100)). by apply Qfloor_resp_le. }
  assert (Hstep : Qfloor x + 7 ≤ Qfloor y).
  { rewrite <- (Qfloor_Z (Qfloor x + 7)). apply Qfloor_resp_le.
    rewrite inject_Z_plus. apply (Qle_trans _ (x + 7)); [|done].
    apply Qplus_le_compat; [apply Qfloor_le | done]. }
  lia.
Qed.

(** X2: rescaling keeps the order of raw scores, and the boost of a key
    match survives it: a larger raw score never gets a smaller normalized
    score, and for a fuzzy score between -10 and 110 the key match
    (score + 20) is normalized at least 7 points above the text match of
    the same fuzzy score (score + 10). *)
Theorem normalize_score_order :
  (∀ a b, (a <= b)%Q → normalize_score a ≤ normalize_score b)
  ∧ (∀ s, (-10 <= s)%Q → (s <= 110)%Q →
       normalize_score (s + 10) + 7 ≤ normalize_score (s + 20)).
Proof. split; [apply normalize_score_mono | apply normalize_score_boost]. Qed.

Section ScoreBand.

Variable partial_ratio : string → string → Q.
Variable CONCEPTS : list (string * list string).
Variable set_order : list string → list string.
Variable STANDARDS : gmap string json.

Lemma above_key s : (70 < s)%Q → (85 < s + 20)%Q.
Proof.
  intros H. apply (Qlt_trans _ (70 + 20)); [done|]. by apply Qplus_lt_l.
Qed.

Lemma above_text s : (75 < s)%Q → (85 < s + 10)%Q.
Proof.
  intros H. apply (Qle_lt_trans _ (75 + 10)); [done|]. by apply Qplus_lt_l.
Qed.

(** Every match the searcher reports has a raw score above 85: a key match
    is above 90, a text match above 85. *)
Lemma search_json_scores obj : ∀ query path depth max_depth,
  Forall (λ m, (85 < m_score m)%Q)
         (search_json partial_ratio obj query path depth max_depth).
Proof.
  induction obj as [| | | |elems IH|members IH] using json_nested_ind;
    intros query path depth max_depth;
    destruct (decide (depth > max_depth)) as [Hd|Hd];
    try (rewrite search_json_too_deep by done; constructor);
    try (rewrite search_json_other by done; constructor).
  - rewrite search_json_JStr by lia.
    destruct (decide _); repeat constructor; simpl. by apply above_text.
  - rewrite search_json_JArr by lia. apply Forall_concat.
    unfold element_matches. generalize (index_path path) as pathf.
    induction IH as [|item rest Hitem _ IHrest]; intros pathf; simpl;
      constructor; [apply Hitem | apply IHrest].
  - rewrite search_json_JObj by lia.
    induction IH as [|[key value] rest Hvalue _ IHrest]; simpl;
      [constructor|].
    apply Forall_app. split; [|done].
    apply Forall_app. split; [|apply Hvalue].
    destruct (decide _); repeat constructor; simpl. by apply above_key.
Qed.

(** With a metric that stays at or below 100 no raw score exceeds 120. *)
Lemma search_json_scores_bounded obj :
  (∀ a b, (partial_ratio a b <= 100)%Q) →
  ∀ query path depth max_depth,
  Forall (λ m, (m_score m <= 120)%Q)
         (search_json partial_ratio obj query path depth max_depth).
Proof.
  intros Hle.
  assert (Hkey : ∀ a b, (fuzz_score partial_ratio a b + 20 <= 120)%Q).
  { intros a b. apply (Qplus_le_compat _ 100 20 20); [apply Hle | done]. }
  assert (Htext : ∀ a b, (fuzz_score partial_ratio a b + 10 <= 120)%Q).
  { intros a b. apply (Qplus_le_compat _ 100 10 20); [apply Hle | done]. }
  induction obj as [| | | |elems IH|members IH] using json_nested_ind;
    intros query path depth max_depth;
    destruct (decide (depth > max_depth)) as [Hd|Hd];
    try (rewrite search_json_too_deep by done; constructor);
    try (rewrite search_json_other by done; constructor).
  - rewrite search_json_JStr by lia.
    destruct (decide _); repeat constructor; simpl. apply Htext.
  - rewrite search_json_JArr by lia. apply Forall_concat.
    unfold element_matches. generalize (index_path path) as pathf.
    induction IH as [|item rest Hitem _ IHrest]; intros pathf; simpl;
      constructor; [apply Hitem | apply IHrest].
  - rewrite search_json_JObj by lia.
    induction IH as [|[key value] rest Hvalue _ IHrest]; simpl;
      [constructor|].
    apply Forall_app. split; [|done].
    apply Forall_app. split; [|apply Hvalue].
    destruct (decide _); repeat constructor; simpl. apply Hkey.
Qed.

(** An entry of [all_results] is a match of the traversal of one of the
    first two variants, with its score normalized and the name attached. *)
Lemma elem_of_all_results standard_name corpus queries r :
  r ∈ all_results partial_ratio standard_name corpus queries →
  ∃ q m, q ∈ py_take 2 queries
    ∧ m ∈ search_json partial_ratio corpus q "" 0 6
    ∧ r = mkRanked (normalize_score (m_score m)) (m_path m) (m_content m)
                   (m_depth m) standard_name.
Proof.
  unfold all_results. intros (q & Hq & Hr)%elem_of_flat_map.
  apply list_elem_of_In, in_map_iff in Hr as (m & <- & Hm).
  exists q, m. split; [done|]. split; [|done]. by apply list_elem_of_In.
Qed.

Lemma elem_of_search_standard standard_name query limit r :
  r ∈ search_standard partial_ratio CONCEPTS set_order STANDARDS
        standard_name query limit →
  ∃ corpus q m, STANDARDS !! standard_name = Some corpus
    ∧ q ∈ py_take 2 (expand_query CONCEPTS set_order query)
    ∧ m ∈ search_json partial_ratio corpus q "" 0 6
    ∧ r = mkRanked (normalize_score (m_score m)) (m_path m) (m_content m)
                   (m_depth m) standard_name.
Proof.
  rewrite search_standard_unfold. unfold discovered.
  destruct (STANDARDS !! standard_name) as [corpus|] eqn:Hc;
    [|by intros ?%elem_of_nil].
  intros Hr%py_take_elem_of. apply ranked_elem_of in Hr as [Hr _].
  apply elem_of_all_results in Hr as (q & m & ? & ? & ?).
  by exists corpus, q, m.
Qed.

(** An entry returned by [search_standard]: its score, its tag and its
    depth. *)
Lemma search_standard_entry standard_name query limit r :
  r ∈ search_standard partial_ratio CONCEPTS set_order STANDARDS
        standard_name query limit →
  65 ≤ r_score r ≤ 100 ∧ r_std r = standard_name ∧ 0 ≤ r_depth r ≤ 6.
Proof.
  intros (corpus & q & m & _ & _ & Hm & ->)%elem_of_search_standard.
  simpl.
  pose proof (search_json_scores corpus q "" 0 6) as Hs.
  pose proof (search_json_depths partial_ratio corpus q "" 0 6) as Hd.
  rewrite Forall_forall in Hs, Hd.
  specialize (Hs m Hm). specialize (Hd m Hm). simpl in Hs, Hd.
  assert (Hlo : 65 ≤ normalize_score (m_score m)).
  { change 65 with (normalize_score 85).
    apply normalize_score_mono. by apply Qlt_le_weak. }
  assert (Hhi : normalize_score (m_score m) ≤ 100).
  { unfold normalize_score. lia. }
  repeat split; lia.
Qed.

Lemma search_standard_entry_ceiling standard_name query limit r :
  (∀ a b, (partial_ratio a b <= 100)%Q) →
  r ∈ search_standard partial_ratio CONCEPTS set_order STANDARDS
        standard_name query limit →
  r_score r ≤ 92.
Proof.
  intros Hle (corpus & q & m & _ & _ & Hm & ->)%elem_of_search_standard.
  simpl.
  pose proof (search_json_scores_bounded corpus Hle q "" 0 6) as Hs.
  rewrite Forall_forall in Hs. specialize (Hs m Hm). simpl in Hs.
  change 92 with (normalize_score 120). by apply normalize_score_mono.
Qed.

End ScoreBand.

(** X3: the band of the scores [search_standard] returns. Whatever the
    metric, the corpus and the query, every returned entry has a normalized
    score of at least 65, carries the name of the standard searched and a
    depth between 0 and 6. So the last branch of the label chain of
    [handle_standard] (at most 60: "Relevant") and of the indicator chain
    of [map_command] is never taken for a returned entry. *)
Theorem search_standard_band (partial_ratio : string → string → Q)
    (CONCEPTS : list (string * list string))
    (set_order : list string → list string) (STANDARDS : gmap string json)
    (standard_name query : string) (limit : Z) :
  Forall (λ r, 65 ≤ r_score r ≤ 100
               ∧ r_std r = standard_name
               ∧ 0 ≤ r_depth r ≤ 6
               ∧ Display.confidence (r_score r) ≠ Display.Relevant
               ∧ Display.indicator (r_score r) ≠ Display.Memo)
    (search_standard partial_ratio CONCEPTS set_order STANDARDS
       standard_name query limit).
Proof.
  apply Forall_forall. intros r Hr.
  apply search_standard_entry in Hr as (Hscore & Hstd & Hdepth).
  split; [done|]. split; [done|]. split; [done|].
  assert (Hgood : (60 <? r_score r) = true) by (apply Z.ltb_lt; lia).
  unfold Display.confidence, Display.indicator. rewrite Hgood.
  split.
  - destruct (90 <? r_score r); [done|]. by destruct (75 <? r_score r).
  - by destruct (75 <? r_score r).
Qed.

(** X4: with a metric that never exceeds 100 (the range of a partial
    ratio), no entry returned by [search_standard] scores above 92: the
    largest raw score is 100 + 20, and 120 is rescaled to 92. *)
Theorem search_standard_ceiling (partial_ratio : string → string → Q)
    (CONCEPTS : list (string * list string))
    (set_order : list string → list string) (STANDARDS : gmap string json)
    (standard_name query : string) (limit : Z) :
  (∀ a b, (partial_ratio a b <= 100)%Q) →
  Forall (λ r, r_score r ≤ 92)
    (search_standard partial_ratio CONCEPTS set_order STANDARDS
       standard_name query limit).
Proof.
  intros Hle. apply Forall_forall. intros r Hr.
  by eapply search_standard_entry_ceiling.
Qed.

Lemma score_at_most_100 a b : (Metric.score a b <= 100)%Q.
Proof.
  unfold Metric.score. change 100%Q with (inject_Z 100).
  rewrite <- Zle_Qle. apply partial_ratio_range.
Qed.

Lemma search_standard_ceiling_witness :
  (∀ a b, (Metric.score a b <= 100)%Q)
  ∧ Forall (λ r, r_score r ≤ 92)
      (search_standard Metric.score default_concepts order_forward
         sample_standards "ESRS" "scope 3" 3).
Proof.
  split; [apply score_at_most_100|].
  apply (search_standard_ceiling Metric.score default_concepts order_forward
           sample_standards "ESRS" "scope 3" 3 score_at_most_100).
Defined.

(* ===================================================================== *)
(** * The handlers' use of the search *)
(* ===================================================================== *)

Section HandlerFacts.

Variable partial_ratio : string → string → Q.
Variable CONCEPTS : list (string * list string).
Variable set_order : list string → list string.
Variable STANDARDS : gmap string json.

Local Abbreviation search :=
  (search_standard partial_ratio CONCEPTS set_order STANDARDS).
Local Abbreviation best_step :=
  (best_step partial_ratio CONCEPTS set_order STANDARDS).
Local Abbreviation best_match :=
  (best_match partial_ratio CONCEPTS set_order STANDARDS).
Local Abbreviation best_inv :=
  (best_inv partial_ratio CONCEPTS set_order STANDARDS).
Local Abbreviation map_results :=
  (map_results partial_ratio CONCEPTS set_order STANDARDS).

Lemma py_take_py_take {A} (a b : Z) (xs : list A) :
  0 ≤ a → a ≤ b → py_take a (py_take b xs) = py_take a xs.
Proof.
  intros Ha Hab. rewrite !py_take_nonneg by lia. rewrite take_take.
  f_equal. lia.
Qed.

(** The result for a smaller limit is the front of the result for a
    larger one. *)
Lemma search_standard_prefix standard_name query a b :
  0 ≤ a → a ≤ b →
  search standard_name query a = py_take a (search standard_name query b).
Proof.
  intros Ha Hab. rewrite !search_standard_unfold.
  destruct (STANDARDS !! standard_name); [|by rewrite py_take_nonneg, take_nil].
  by rewrite py_take_py_take.
Qed.

Lemma search_standard_head standard_name query limit :
  1 ≤ limit →
  head (search standard_name query 1) = head (search standard_name query limit).
Proof.
  intros H. rewrite (search_standard_prefix standard_name query 1 limit) by lia.
  rewrite py_take_nonneg by lia.
  by destruct (search standard_name query limit).
Qed.

Lemma search_standard_single standard_name query r :
  head (search standard_name query 1) = Some r →
  search standard_name query 1 = [r].
Proof.
  rewrite search_standard_unfold.
  destruct (STANDARDS !! standard_name); [|done].
  rewrite py_take_nonneg by lia.
  destruct (sort_by_score _) as [|r0 rest]; [done|].
  simpl. rewrite take_0. by intros [= ->].
Qed.

Lemma search_standard_top standard_name query limit r :
  head (search standard_name query limit) = Some r →
  65 ≤ r_score r ∧ r_std r = standard_name.
Proof.
  intros H.
  assert (Hr : r ∈ search standard_name query limit).
  { destruct (search standard_name query limit); simplify_eq/=. by left. }
  apply search_standard_entry in Hr. split; [lia|tauto].
Qed.

Lemma best_step_inv query names acc s :
  best_inv query names acc →
  best_inv query (names ++ [s]) (best_step query acc s).
Proof.
  unfold best_inv, best_step. destruct acc as [[t|] bs]; simpl.
  - intros (i & s0 & r & Hi & Hr & -> & -> & Hmax).
    destruct (search s query 1) as [|r0 rest] eqn:Hs.
    + simpl. exists i, s0, r.
      split; [by apply lookup_app_l_Some|]. do 3 (split; [done|]).
      intros j s' r' Hj Hr'.
      apply lookup_app_Some in Hj as [Hj|[_ Hj]]; [by eapply Hmax|].
      apply list_lookup_singleton_Some in Hj as [_ <-]. by rewrite Hs in Hr'.
    + destruct (r_score r <? r_score r0) eqn:Hlt; simpl.
      * apply Z.ltb_lt in Hlt. exists (length names), s, r0.
        split; [by rewrite lookup_app_r, Nat.sub_diag by lia|].
        split; [by rewrite Hs|]. do 2 (split; [done|]).
        intros j s' r' Hj Hr'.
        apply lookup_app_Some in Hj as [Hj|[Hlen Hj]].
        -- destruct (Hmax j s' r' Hj Hr') as [Hle _]. lia.
        -- apply list_lookup_singleton_Some in Hj as [_ <-].
           rewrite Hs in Hr'. simplify_eq/=. split; [lia|]. intros _. lia.
      * apply Z.ltb_ge in Hlt. exists i, s0, r.
        split; [by apply lookup_app_l_Some|]. do 3 (split; [done|]).
        intros j s' r' Hj Hr'.
        apply lookup_app_Some in Hj as [Hj|[Hlen Hj]]; [by eapply Hmax|].
        apply list_lookup_singleton_Some in Hj as [_ <-].
        rewrite Hs in Hr'. simplify_eq/=. split; [lia|]. intros _.
        apply lookup_lt_Some in Hi. lia.
  - intros [-> Hnone].
    destruct (search s query 1) as [|r0 rest] eqn:Hs; simpl.
    + split; [done|].
      intros s' [Hs'| ->%list_elem_of_singleton]%elem_of_app; auto.
    + assert (Hpos : 65 ≤ r_score r0).
      { apply (search_standard_top s query 1). by rewrite Hs. }
      assert (Hlt : (0 <? r_score r0) = true) by (apply Z.ltb_lt; lia).
      rewrite Hlt. simpl. exists (length names), s, r0.
      split; [by rewrite lookup_app_r, Nat.sub_diag by lia|].
      split; [by rewrite Hs|]. do 2 (split; [done|]).
      intros j s' r' Hj Hr'.
      apply lookup_app_Some in Hj as [Hj|[Hlen Hj]].
      * rewrite Hnone in Hr'; [done|]. apply list_elem_of_lookup. eauto.
      * apply list_lookup_singleton_Some in Hj as [_ <-].
        rewrite Hs in Hr'. simplify_eq/=. split; [lia|]. intros _. lia.
Qed.

Lemma best_loop_inv query names :
  best_inv query names (fold_left (best_step query) names (None, 0)).
Proof.
  induction names as [|s names IH] using rev_ind.
  - simpl. split; [done|]. by intros s ?%elem_of_nil.
  - rewrite fold_left_app. simpl. by apply best_step_inv.
Qed.

(** What [best_match] holds after the loop over the five standards. *)
Lemma best_match_found query std path content score :
  best_match query = Some (std, path, content, score) →
  ∃ i r, frameworks !! i = Some std
    ∧ search std query 1 = [r]
    ∧ best_result_of r = (std, path, content, score)
    ∧ r_std r = std
    ∧ 65 ≤ score
    ∧ ∀ j s' r', frameworks !! j = Some s' →
        head (search s' query 1) = Some r' →
        r_score r' ≤ score ∧ (r_score r' = score → (i ≤ j)%nat).
Proof.
  unfold best_match. intros Hbest.
  pose proof (best_loop_inv query frameworks) as Hinv.
  unfold best_inv in Hinv. rewrite Hbest in Hinv.
  destruct Hinv as (i & s & r & Hi & Hr & Ht & _ & Hmax).
  destruct (search_standard_top _ _ _ _ Hr) as [Hlo Hstd].
  unfold best_result_of in *. simplify_eq.
  exists i, r. split; [done|]. split; [by apply search_standard_single|].
  do 3 (split; [done|]). exact Hmax.
Qed.

Lemma best_match_none query :
  best_match query = None ↔ ∀ s, s ∈ frameworks → search s query 1 = [].
Proof.
  unfold best_match.
  pose proof (best_loop_inv query frameworks) as Hinv.
  unfold best_inv in Hinv.
  destruct (fold_left (best_step query) frameworks (None, 0)).1 as [t|].
  - destruct Hinv as (i & s & r & Hi & Hr & _). split; [done|].
    intros Hnone. rewrite Hnone in Hr; [done|].
    apply list_elem_of_lookup. eauto.
  - by destruct Hinv as [_ Hnone].
Qed.

Lemma search_standard_length standard_name query limit :
  0 ≤ limit → (length (search standard_name query limit) ≤ Z.to_nat limit)%nat.
Proof.
  intros H. rewrite search_standard_unfold.
  destruct (STANDARDS !! standard_name); [|simpl; lia].
  rewrite py_take_nonneg, length_take by done. lia.
Qed.

Lemma nonempty_filter_keys {A} (f : string → list A) (names : list string) :
  map fst (List.filter (λ entry : string * list A,
                          match entry.2 with [] => false | _ => true end)
                       (map (λ s, (s, f s)) names))
  `sublist_of` names.
Proof.
  induction names as [|s names IH]; simpl; [done|].
  destruct (f s); simpl; by constructor.
Qed.

Lemma elem_of_map_results query standard results :
  (standard, results) ∈ map_results query ↔
  standard ∈ frameworks ∧ results = search standard query 2 ∧ results ≠ [].
Proof.
  unfold map_results. rewrite elem_of_List_filter, list_elem_of_In, in_map_iff.
  cbn [fst snd]. split.
  - intros [(s & [= <- <-] & Hs%list_elem_of_In) Hne].
    split; [done|]. split; [done|]. by destruct (search s query 2).
  - intros (Hs & -> & Hne). split.
    + exists standard. split; [done|]. by apply list_elem_of_In.
    + by destruct (search standard query 2).
Qed.

(** X5: raising the limit only appends. For limits [0 ≤ a ≤ b] the
    result of [search_standard] for [a] is the first [a] entries of the
    result for [b]; so the top entry is the same whether the caller asks
    for one entry ([handle_text]), two ([map_command]) or three
    ([handle_standard]). *)
Theorem search_standard_limit_prefix (standard_name query : string) (a b : Z) :
  0 ≤ a → a ≤ b →
  search standard_name query a = py_take a (search standard_name query b)
  ∧ search standard_name query a
    = take (Z.to_nat a) (search standard_name query b)
  ∧ (1 ≤ a →
     head (search standard_name query a) = head (search standard_name query b)).
Proof.
  intros Ha Hab. split; [by apply search_standard_prefix|]. split.
  - rewrite (search_standard_prefix standard_name query a b) by done.
    by apply py_take_nonneg.
  - intros H1. rewrite <- (search_standard_head standard_name query a) by done.
    apply search_standard_head. lia.
Qed.

(** X6: what [handle_text] answers. It stays silent exactly when the
    stripped text is shorter than two characters or starts with a slash.
    It answers "not found" only when the search with limit 1 is empty for
    each of the five standards. When it shows a match, that match is the
    single entry of the limit-1 search of the standard named in the answer;
    its score is at least 65, no top entry of another standard scores
    more, and among standards with the same top score the one earliest in
    the loop order is shown. The path shown has at most 60 characters and
    the text at most 153. *)
Theorem handle_text_best (str_number : Q → string) (text : string) :
  let query := Text.strip text in
  let reply := handle_text partial_ratio CONCEPTS set_order STANDARDS
                 str_number text in
  (reply = NoReply ↔
     (String.length query < 2)%nat ∨ Str.startswith "/" query = true)
  ∧ (reply = NotFound → ∀ s, s ∈ frameworks → search s query 1 = [])
  ∧ ∀ std path display score, reply = BestMatch std path display score →
      ∃ i r, frameworks !! i = Some std
        ∧ search std query 1 = [r]
        ∧ r_std r = std
        ∧ score = r_score r
        ∧ path = Str.prefix_n 60 (r_path r)
        ∧ display = Display.display_content str_number 150 (r_content r)
        ∧ 65 ≤ score ≤ 100
        ∧ (String.length path ≤ 60)%nat
        ∧ (String.length display ≤ 153)%nat
        ∧ ∀ j s' r', frameworks !! j = Some s' →
            head (search s' query 1) = Some r' →
            r_score r' ≤ score ∧ (r_score r' = score → (i ≤ j)%nat).
Proof.
  intros query reply. subst reply. unfold handle_text. fold query.
  destruct (_ || _) eqn:Hguard.
  - split; [|by split].
    split; [intros _|done].
    apply orb_true_iff in Hguard as [H|H]; [left|by right].
    by apply Nat.ltb_lt.
  - apply orb_false_iff in Hguard as [Hlen Hslash].
    apply Nat.ltb_ge in Hlen.
    destruct (best_match query) as [[[[std path] content] score]|]
      eqn:Hbest.
    + split.
      { split; [done|]. intros [H|H]; [lia|congruence]. }
      split; [done|].
      intros std' path' display score' [= <- <- <- <-].
      apply best_match_found in Hbest
        as (i & r & Hi & Hr & [= _ <- <- <-] & Hstd & Hlo & Hmax).
      exists i, r. do 6 (split; [done|]).
      split.
      { split; [done|].
        assert (Hin : r ∈ search std query 1) by (rewrite Hr; by left).
        apply search_standard_entry in Hin. lia. }
      split.
      { change (String.length (Str.prefix_n 60 (r_path r)) ≤ 60)%nat.
        rewrite prefix_n_length. apply Nat.le_min_l. }
      split; [apply shorten_length|]. exact Hmax.
    + split.
      { split; [done|]. intros [H|H]; [lia|congruence]. }
      split; [|done]. intros _. by apply best_match_none.
Qed.

(** X7: the table [map_command] builds, and how it agrees with
    [handle_text]. The table lists at most five standards, each once, each
    one of the five of the loop, each with the one or two entries of its
    limit-2 search, whose first entry is the top entry [handle_text] sees
    and scores between 65 and 100. The table is empty exactly when
    [handle_text] finds no match; and the match [handle_text] shows is the
    first entry of a listed standard whose best score no other listed
    standard exceeds. *)
Theorem map_command_listing (query : string) :
  (length (map_results query) ≤ 5)%nat
  ∧ NoDup (map fst (map_results query))
  ∧ Forall (λ entry, entry.1 ∈ frameworks
                     ∧ entry.2 = search entry.1 query 2
                     ∧ (1 ≤ length entry.2 ≤ 2)%nat
                     ∧ head entry.2 = head (search entry.1 query 1)
                     ∧ 65 ≤ map_best entry.2 ≤ 100)
           (map_results query)
  ∧ (map_results query = [] ↔ best_match query = None)
  ∧ ∀ std path content score,
      best_match query = Some (std, path, content, score) →
      (∃ results, (std, results) ∈ map_results query
                  ∧ map_best results = score)
      ∧ Forall (λ entry, map_best entry.2 ≤ score) (map_results query).
Proof.
  assert (Hentry : ∀ s results, (s, results) ∈ map_results query →
            ∃ r, head results = Some r ∧ head (search s query 1) = Some r
                 ∧ map_best results = r_score r).
  { intros s results (_ & -> & Hne)%elem_of_map_results.
    rewrite (search_standard_head s query 2) by lia.
    destruct (search s query 2) as [|r rest]; [done|]. by exists r. }
  split; [|split; [|split; [|split]]].
  - rewrite <- (length_map fst).
    apply (sublist_length _ frameworks), nonempty_filter_keys.
  - eapply sublist_NoDup; [|apply nonempty_filter_keys].
    apply (bool_decide_unpack _). vm_compute. exact I.
  - apply Forall_forall. intros [s results] Hin. simpl.
    destruct (Hentry s results Hin) as (r & Hhead & Htop & Hbest).
    apply elem_of_map_results in Hin as (Hs & -> & Hne).
    split; [done|]. split; [done|]. split.
    { pose proof (search_standard_length s query 2 ltac:(lia)).
      destruct (search s query 2); [done|]. simpl in *. lia. }
    split; [by rewrite Htop|].
    rewrite Hbest.
    assert (Hin : r ∈ search s query 2).
    { destruct (search s query 2); simplify_eq/=. by left. }
    apply search_standard_entry in Hin. lia.
  - rewrite best_match_none. split.
    + intros Hnil s Hs.
      destruct (search s query 1) as [|r rest] eqn:H1; [done|].
      assert (Hin : (s, search s query 2) ∈ map_results query).
      { apply elem_of_map_results. split; [done|]. split; [done|].
        intros H2.
        pose proof (search_standard_head s query 2 ltac:(lia)) as Hh.
        by rewrite H1, H2 in Hh. }
      rewrite Hnil in Hin. by apply elem_of_nil in Hin.
    + intros Hnone. destruct (map_results query) as [|[s results] rest] eqn:Hm;
        [done|].
      assert (Hin : (s, results) ∈ map_results query) by (rewrite Hm; by left).
      destruct (Hentry s results ltac:(by left)) as (r & _ & Htop & _).
      apply elem_of_map_results in Hin as (Hs & _).
      by rewrite (Hnone s Hs) in Htop.
  - intros std path content score Hbest.
    apply best_match_found in Hbest
      as (i & r & Hi & Hr & [= _ _ _ <-] & _ & Hlo & Hmax).
    split.
    + exists (search std query 2).
      pose proof (search_standard_head std query 2 ltac:(lia)) as Hh.
      rewrite Hr in Hh. simpl in Hh. split.
      * apply elem_of_map_results.
        split; [apply list_elem_of_lookup; eauto|]. split; [done|].
        intros H2. by rewrite H2 in Hh.
      * destruct (search std query 2); by simplify_eq/=.
    + apply Forall_forall. intros [s results] Hin. simpl.
      destruct (Hentry s results Hin) as (r' & _ & Htop & ->).
      apply elem_of_map_results in Hin as (Hs & _).
      apply list_elem_of_lookup in Hs as [j Hj].
      by destruct (Hmax j s r' Hj Htop).
Qed.

End HandlerFacts.

Lemma handle_text_best_witness :
  handle_text Metric.score default_concepts order_forward sample_standards
    (λ _, "") "  scope 3 "
  = BestMatch "ESRS" "Emissions > Scope 3"
      "value chain indirect emissions disclosure" 92
  ∧ ∃ i r, frameworks !! i = Some "ESRS"
      ∧ search_standard Metric.score default_concepts order_forward
          sample_standards "ESRS" (Text.strip "  scope 3 ") 1 = [r]
      ∧ r_std r = "ESRS"
      ∧ 92 = r_score r.
Proof.
  assert (Hreply :
    handle_text Metric.score default_concepts order_forward sample_standards
      (λ _, "") "  scope 3 "
    = BestMatch "ESRS" "Emissions > Scope 3"
        "value chain indirect emissions disclosure" 92)
    by (vm_compute; reflexivity).
  split; [exact Hreply|].
  destruct (handle_text_best Metric.score default_concepts order_forward
              sample_standards (λ _, "") "  scope 3 ") as (_ & _ & Hbest).
  destruct (Hbest _ _ _ _ Hreply) as (i & r & Hi & Hr & Hstd & Hscore & _).
  exists i, r. split; [exact Hi|]. split; [exact Hr|].
  split; [exact Hstd|exact Hscore].
Defined.

Lemma map_command_listing_witness :
  best_match Metric.score default_concepts order_forward sample_standards
    "scope 3"
  = Some ("ESRS", "Emissions > Scope 3",
          JStr "value chain indirect emissions disclosure", 92)
  ∧ ∃ results,
      ("ESRS", results)
        ∈ map_results Metric.score default_concepts order_forward
            sample_standards "scope 3"
      ∧ map_best results = 92.
Proof.
  assert (Hbest :
    best_match Metric.score default_concepts order_forward sample_standards
      "scope 3"
    = Some ("ESRS", "Emissions > Scope 3",
            JStr "value chain indirect emissions disclosure", 92))
    by (vm_compute; reflexivity).
  split; [exact Hbest|].
  destruct (map_command_listing Metric.score default_concepts order_forward
              sample_standards "scope 3") as (_ & _ & _ & _ & Hshown).
  exact (proj1 (Hshown _ _ _ _ Hbest)).
Defined.

Lemma search_standard_limit_prefix_witness :
  0 ≤ 1 ∧ 1 ≤ 3
  ∧ search_standard Metric.score default_concepts order_forward
      sample_standards "ESRS" "scope 3" 1
    = py_take 1 (search_standard Metric.score default_concepts order_forward
                   sample_standards "ESRS" "scope 3" 3).
Proof.
  split; [lia|]. split; [lia|].
  apply (search_standard_limit_prefix Metric.score default_concepts
           order_forward sample_standards "ESRS" "scope 3" 1 3);
    lia.
Defined.

(* ===================================================================== *)
(** * What the ranking leaves out *)
(* ===================================================================== *)

Section Completeness.

Variable partial_ratio : string → string → Q.
Variable CONCEPTS : list (string * list string).
Variable set_order : list string → list string.
Variable STANDARDS : gmap string json.

Lemma discovered_unknown standard_name query :
  STANDARDS !! standard_name = None →
  discovered partial_ratio CONCEPTS set_order STANDARDS standard_name query
  = [].
Proof. intros H. unfold discovered. by rewrite H. Qed.

Local Abbreviation search :=
  (search_standard partial_ratio CONCEPTS set_order STANDARDS).
Local Abbreviation discovered :=
  (discovered partial_ratio CONCEPTS set_order STANDARDS).

(** Every match found is represented in the sorted table by the entry of
    its path, which scores at least as much. *)
Lemma ranked_covers results m :
  m ∈ results →
  ∃ e, e ∈ sort_by_score (ranked_of <$> dedup results)
       ∧ r_path e = r_path m ∧ r_score m ≤ r_score e.
Proof.
  intros Hm. pose proof (dedup_spec results) as Hinv.
  assert (Hp : r_path m ∈ (dedup results).*1).
  { apply (inv_keys _ _ Hinv). apply list_elem_of_fmap. eauto. }
  apply list_elem_of_fmap in Hp as ([p v] & Hpe & Hin). simpl in Hpe.
  destruct (inv_best _ _ Hinv p v Hin) as (r & Hr & Hrp & Hrv & Hmax).
  exists (ranked_of (p, v)). split.
  { rewrite sort_by_score_perm. apply list_elem_of_fmap. eauto. }
  rewrite <- Hrp, <- Hrv, ranked_of_best_of.
  split; [congruence|]. apply Hmax; [done|congruence].
Qed.

(** X8: nothing better is left out. For a limit that is not negative,
    every match found by the traversals either has its path among the
    returned entries, with a score at least its own, or the result is full
    ([limit] entries) and every returned entry scores at least as much as
    that match. *)
Theorem search_standard_top_k (standard_name query : string) (limit : Z) :
  0 ≤ limit →
  let results := search standard_name query limit in
  Forall (λ m,
            (∃ r, r ∈ results ∧ r_path r = r_path m ∧ r_score m ≤ r_score r)
            ∨ (Z.of_nat (length results) = limit
               ∧ Forall (λ r, r_score m ≤ r_score r) results))
         (discovered standard_name query).
Proof.
  intros Hlimit results. subst results. rewrite search_standard_unfold.
  destruct (STANDARDS !! standard_name) as [corpus|] eqn:Hcorpus.
  2:{ rewrite discovered_unknown by done. constructor. }
  rewrite py_take_nonneg by done.
  set (found := discovered standard_name query).
  set (sorted := sort_by_score (ranked_of <$> dedup found)).
  apply Forall_forall. intros m Hm.
  destruct (ranked_covers found m Hm) as (e & He & Hpath & Hscore).
  fold sorted in He.
  rewrite <- (take_drop (Z.to_nat limit) sorted) in He.
  apply elem_of_app in He as [He|He]; [left; by exists e|].
  right. split.
  - rewrite length_take.
    destruct (decide (length sorted ≤ Z.to_nat limit)%nat) as [Hshort|Hlong].
    + rewrite drop_ge in He by done. by apply elem_of_nil in He.
    + lia.
  - apply Forall_forall. intros r Hr.
    pose proof (sort_by_score_sorted (ranked_of <$> dedup found)) as Hsorted.
    fold sorted in Hsorted.
    rewrite <- (take_drop (Z.to_nat limit) sorted) in Hsorted.
    pose proof (StronglySorted_app_1_elem_of _ _ _ r e Hsorted Hr He) as Hre.
    unfold by_score_desc in Hre. lia.
Qed.

End Completeness.

Lemma search_standard_top_k_witness :
  0 ≤ 1
  ∧ let results :=
      search_standard Metric.score default_concepts order_forward
        sample_standards "ESRS" "scope 3" 1 in
    Forall (λ m,
              (∃ r, r ∈ results ∧ r_path r = r_path m
                    ∧ r_score m ≤ r_score r)
              ∨ (Z.of_nat (length results) = 1
                 ∧ Forall (λ r, r_score m ≤ r_score r) results))
           (discovered Metric.score default_concepts order_forward
              sample_standards "ESRS" "scope 3").
Proof.
  split; [lia|].
  apply (search_standard_top_k Metric.score default_concepts order_forward
           sample_standards "ESRS" "scope 3" 1).
  lia.
Defined.

(* ===================================================================== *)
(** * What the expansion holds, and nothing else *)
(* ===================================================================== *)

Lemma NoDup_all_equal {A} (l : list A) (x : A) :
  NoDup l → x ∈ l → (∀ y, y ∈ l → y = x) → l = [x].
Proof.
  intros Hnd Hx Hall. destruct l as [|a l]; [by apply elem_of_nil in Hx|].
  assert (a = x) as -> by (apply Hall; by left).
  destruct l as [|b l]; [done|].
  assert (b = x) as -> by (apply Hall; right; by left).
  apply NoDup_cons in Hnd as [Hnot _]. exfalso. apply Hnot. by left.
Qed.

(** X9: the expansion holds nothing but what the four rules put in. When
    the set is enumerated without repetition, [expand_query(q)] has no
    duplicates, and each of its members is [q.lower()], a synonym of a
    concept phrase occurring in [q.lower()], a corpus name (only if a
    trigger word occurs), or a word of [q.lower()] longer than three
    characters. A query to which none of the last three rules applies is
    searched as it is: the expansion is [[q.lower()]]. *)
Theorem expand_query_exact (CONCEPTS : list (string * list string))
    (set_order : list string → list string) (query : string) :
  set_enumeration set_order →
  NoDup (expand_query CONCEPTS set_order query)
  ∧ (∀ x, x ∈ expand_query CONCEPTS set_order query →
       x = Str.lower query
       ∨ (∃ concept synonyms, (concept, synonyms) ∈ CONCEPTS
            ∧ is_substring concept (Str.lower query) ∧ x ∈ synonyms)
       ∨ ((∃ w, w ∈ trigger_words ∧ is_substring w (Str.lower query))
            ∧ x ∈ framework_names)
       ∨ (x ∈ Str.split (Str.lower query) ∧ (3 < String.length x)%nat))
  ∧ ((∀ concept synonyms, (concept, synonyms) ∈ CONCEPTS →
        ¬ is_substring concept (Str.lower query)) →
     (∀ w, w ∈ trigger_words → ¬ is_substring w (Str.lower query)) →
     (∀ word, word ∈ Str.split (Str.lower query) →
        (String.length word ≤ 3)%nat) →
     expand_query CONCEPTS set_order query = [Str.lower query]).
Proof.
  intros Henum. unfold expand_query.
  destruct (Henum (expanded CONCEPTS query)) as [Hnd Hmem].
  split; [done|]. split.
  - intros x Hx. by apply elem_of_expanded, Hmem.
  - intros Hconcepts Htriggers Hwords.
    apply NoDup_all_equal; [done| |].
    + apply Hmem, elem_of_expanded. by left.
    + intros y Hy%Hmem%elem_of_expanded.
      destruct Hy as [Hy|[Hy|[Hy|Hy]]]; [done|exfalso..].
      * destruct Hy as (concept & synonyms & Hin & Hsub & _).
        by apply (Hconcepts concept synonyms).
      * destruct Hy as [(w & Hw & Hsub) _]. by apply (Htriggers w).
      * destruct Hy as [Hy Hlen]. specialize (Hwords y Hy). lia.
Qed.

Lemma expand_query_exact_witness :
  set_enumeration order_forward
  ∧ NoDup (expand_query default_concepts order_forward "Scope 3 emissions").
Proof.
  split; [apply order_forward_enumerates|].
  apply (expand_query_exact default_concepts order_forward
           "Scope 3 emissions" order_forward_enumerates).
Defined.

(* ===================================================================== *)
(** * Loading the corpora *)
(* ===================================================================== *)

Lemma py_take_sublist {A} (n : Z) (xs : list A) : py_take n xs `sublist_of` xs.
Proof. unfold py_take. destruct (n <? 0); apply sublist_take. Qed.

Lemma search_standard_paths_NoDup partial_ratio CONCEPTS set_order STANDARDS
    standard_name query limit :
  NoDup (r_path <$> search_standard partial_ratio CONCEPTS set_order STANDARDS
                      standard_name query limit).
Proof.
  rewrite search_standard_unfold.
  destruct (STANDARDS !! standard_name); [|constructor].
  eapply sublist_NoDup; [apply ranked_NoDup|].
  apply fmap_sublist, py_take_sublist.
Qed.

Lemma NoDup_constant_length {A} (l : list A) (x : A) :
  NoDup l → (∀ y, y ∈ l → y = x) → (length l ≤ 1)%nat.
Proof.
  intros Hnd Hall. destruct l as [|a [|b l]]; simpl; [lia..|].
  assert (a = x) as -> by (apply Hall; by left).
  assert (b = x) as -> by (apply Hall; right; by left).
  apply NoDup_cons in Hnd as [Hnot _]. exfalso. apply Hnot. by left.
Qed.

(** The matches a traversal finds in the fallback document. *)
Lemma load_fallback_matches partial_ratio query m :
  m ∈ search_json partial_ratio load_fallback query "" 0 6 →
  m_path m = "error" ∧ m_content m = JStr "File not found".
Proof.
  unfold load_fallback. rewrite search_json_JObj by lia. cbn [flat_map].
  rewrite app_nil_r. unfold member_matches. rewrite search_json_JStr by lia.
  intros [Hm|Hm]%elem_of_app.
  - destruct (decide _); [|by apply elem_of_nil in Hm].
    by apply list_elem_of_singleton in Hm as ->.
  - destruct (decide _); [|by apply elem_of_nil in Hm].
    by apply list_elem_of_singleton in Hm as ->.
Qed.

Lemma load_standards_lookup read read_concepts name filename :
  (name, filename) ∈ standard_files →
  (load_standards read read_concepts).1 !! name
  = Some (match read filename with
          | Some document => document
          | None => load_fallback
          end).
Proof.
  unfold standard_files. rewrite !elem_of_cons, elem_of_nil.
  intros [[= -> ->]|[[= -> ->]|[[= -> ->]|[[= -> ->]|[[= -> ->]|[]]]]]];
    unfold load_standards, standard_files; simpl;
    repeat (rewrite lookup_insert_ne by done); by rewrite lookup_insert.
Qed.

Lemma load_standards_dom read read_concepts name :
  is_Some ((load_standards read read_concepts).1 !! name) ↔ name ∈ frameworks.
Proof.
  unfold load_standards, standard_files, frameworks. simpl.
  rewrite !lookup_insert_is_Some', lookup_empty, !elem_of_cons, elem_of_nil.
  rewrite is_Some_alt. split.
  - intros [<-|[<-|[<-|[<-|[<-|[]]]]]]; tauto.
  - intros [->|[->|[->|[->|[->|[]]]]]]; tauto.
Qed.

(** X10: what [load_standards] returns, whatever the files hold. The
    table has exactly the five names as keys, so the handlers never search
    an unknown standard; under each name lies the parsed file, or the
    fallback document when the file could not be loaded. The fallback is
    searched like any corpus: for a standard whose file failed to load,
    [search_standard] returns at most one entry, and that entry has the
    path "error" and the content "File not found" (the query "error" gets
    it with score 92 under the standard partial ratio). *)
Theorem load_standards_table (read : string → option json)
    (read_concepts : option (list (string * list string))) :
  let standards := (load_standards read read_concepts).1 in
  (∀ name, is_Some (standards !! name) ↔ name ∈ frameworks)
  ∧ Forall (λ file, standards !! file.1
                    = Some (match read file.2 with
                            | Some document => document
                            | None => load_fallback
                            end)) standard_files
  ∧ (∀ partial_ratio CONCEPTS set_order query limit,
       Forall (λ file, read file.2 = None →
                 let results :=
                   search_standard partial_ratio CONCEPTS set_order standards
                     file.1 query limit in
                 (length results ≤ 1)%nat
                 ∧ Forall (λ r, r_path r = "error"
                                ∧ r_content r = JStr "File not found"
                                ∧ r_std r = file.1) results)
              standard_files)
  ∧ search_standard Metric.score default_concepts order_forward
      (load_standards (λ _, None) None).1 "ESRS" "error" 3
    = [mkRanked 92 "error" (JStr "File not found") 0 "ESRS"].
Proof.
  intros standards. subst standards.
  split; [apply load_standards_dom|]. split; [|split].
  - apply Forall_forall. intros [name filename] Hin.
    by apply load_standards_lookup.
  - intros partial_ratio CONCEPTS set_order query limit.
    apply Forall_forall. intros [name filename] Hin. cbn [fst snd].
    intros Hread.
    set (results := search_standard _ _ _ _ _ _ _).
    assert (Hall : ∀ r, r ∈ results →
              r_path r = "error" ∧ r_content r = JStr "File not found"
              ∧ r_std r = name).
    { intros r (corpus & q & m & Hcorpus & _ & Hm & ->)%elem_of_search_standard.
      rewrite (load_standards_lookup read read_concepts name filename Hin),
        Hread in Hcorpus.
      injection Hcorpus as <-.
      apply load_fallback_matches in Hm as [Hpath Hcontent]. by simpl. }
    split; [|apply Forall_forall, Hall].
    rewrite <- (length_fmap r_path).
    apply (NoDup_constant_length _ "error").
    + apply search_standard_paths_NoDup.
    + intros p (r & -> & Hr)%list_elem_of_fmap. by apply Hall.
  - vm_compute. reflexivity.
Qed.

(* ===================================================================== *)
(** * The performance samples of the tracker *)
(* ===================================================================== *)

Lemma last_n_short {A} (n : nat) (xs : list A) :
  (length xs ≤ n)%nat → Telemetry.last_n n xs = xs.
Proof.
  intros H. unfold Telemetry.last_n.
  by replace (length xs - n)%nat with 0%nat by lia.
Qed.

Lemma last_n_snoc {A} (n : nat) (xs : list A) (x : A) :
  (1 ≤ n)%nat →
  Telemetry.last_n n (Telemetry.last_n n xs ++ [x])
  = Telemetry.last_n n (xs ++ [x]).
Proof.
  intros Hn. destruct (decide (length xs ≤ n)%nat) as [Hshort|Hlong].
  { by rewrite (last_n_short n xs). }
  unfold Telemetry.last_n.
  rewrite !length_app, length_drop. simpl.
  rewrite !drop_app_le by (rewrite ?length_drop; lia).
  rewrite drop_drop. do 2 f_equal. lia.
Qed.

Lemma last_n_at_most {A} (n : nat) (xs : list A) :
  (length (Telemetry.last_n n xs) ≤ n)%nat.
Proof. unfold Telemetry.last_n. rewrite length_drop. lia. Qed.

Module TrackerFacts.

Import Tracker.

Lemma track_performance_enabled t metric d :
  enabled (track_performance t metric d) = enabled t.
Proof. unfold track_performance. by destruct (enabled t) eqn:E. Qed.

Lemma track_all_enabled t calls :
  enabled (track_all t calls) = enabled t.
Proof.
  revert t. induction calls as [|[m d] calls IH]; intros t; [done|].
  simpl. unfold track_all in *. simpl.
  by rewrite IH, track_performance_enabled.
Qed.

Lemma track_all_snoc t calls m d :
  track_all t (calls ++ [(m, d)]) = track_performance (track_all t calls) m d.
Proof. unfold track_all. by rewrite fold_left_app. Qed.

Lemma durations_snoc metric calls m d :
  durations metric (calls ++ [(m, d)])
  = durations metric calls ++ (if decide (m = metric) then [d] else []).
Proof. unfold durations. rewrite flat_map_app. simpl. by rewrite app_nil_r. Qed.

(** What an enabled tracker stores under [metric] after one more call. *)
Lemma track_performance_lookup t m d metric :
  enabled t = true →
  default [] (perf_stats (track_performance t m d) !! metric)
  = if decide (m = metric)
    then Telemetry.last_n 100 (default [] (perf_stats t !! metric) ++ [d])
    else default [] (perf_stats t !! metric).
Proof.
  intros Hen. unfold track_performance. rewrite Hen. simpl.
  destruct (decide (m = metric)) as [->|Hne].
  - rewrite lookup_insert_eq. simpl.
    destruct (100 <? _)%nat eqn:Hlen; [done|].
    apply Nat.ltb_ge in Hlen. by rewrite last_n_short.
  - by rewrite lookup_insert_ne.
Qed.

Lemma track_all_window calls metric :
  default [] (perf_stats (track_all (tracker_init true) calls) !! metric)
  = Telemetry.last_n 100 (durations metric calls).
Proof.
  induction calls as [|[m d] calls IH] using rev_ind.
  - unfold track_all, tracker_init. simpl.
    destruct (decide (metric = "sheets_write_time")) as [->|?];
      [by rewrite lookup_insert|rewrite lookup_insert_ne by done].
    destruct (decide (metric = "translation_time")) as [->|?];
      [by rewrite lookup_insert|rewrite lookup_insert_ne by done].
    destruct (decide (metric = "search_time")) as [->|?];
      [by rewrite lookup_insert|by rewrite lookup_insert_ne].
  - rewrite track_all_snoc, durations_snoc.
    rewrite track_performance_lookup by by rewrite track_all_enabled.
    destruct (decide (m = metric)); [|by rewrite app_nil_r].
    rewrite IH. apply last_n_snoc. lia.
Qed.

Lemma track_all_keys calls metric :
  is_Some (perf_stats (track_all (tracker_init true) calls) !! metric)
  ↔ metric ∈ ["search_time"; "translation_time"; "sheets_write_time"]
    ∨ metric ∈ calls.*1.
Proof.
  induction calls as [|[m d] calls IH] using rev_ind.
  - unfold track_all, tracker_init. simpl.
    rewrite !lookup_insert_is_Some', lookup_empty, !elem_of_cons, elem_of_nil.
    rewrite is_Some_alt. split.
    + intros [<-|[<-|[<-|[]]]]; tauto.
    + intros [[->|[->|[->|[]]]]|[]]; tauto.
  - rewrite track_all_snoc, fmap_app, elem_of_app. simpl.
    rewrite list_elem_of_singleton.
    unfold track_performance at 1. rewrite track_all_enabled. simpl.
    rewrite lookup_insert_is_Some', IH. split.
    + intros [<-|[?|?]]; tauto.
    + intros [?|[?| ->]]; tauto.
Qed.

Lemma track_all_disabled calls :
  track_all (tracker_init false) calls = tracker_init false.
Proof.
  induction calls as [|[m d] calls IH] using rev_ind; [done|].
  by rewrite track_all_snoc, IH.
Qed.

(** X11: the samples kept for a metric. After any sequence of
    [track_performance] calls on an enabled tracker, the list stored under
    a metric is exactly the last 100 durations reported for that metric,
    oldest first (so never more than 100, unlike the telemetry buffer, the
    cap is tested after the append); the table has an entry for the three
    initial metrics and for every metric reported; a disabled tracker
    stores nothing. *)
Theorem track_performance_window (calls : list (string * Q)) (metric : string) :
  let t := track_all (tracker_init true) calls in
  default [] (perf_stats t !! metric)
    = Telemetry.last_n 100 (durations metric calls)
  ∧ (length (default [] (perf_stats t !! metric)) ≤ 100)%nat
  ∧ (is_Some (perf_stats t !! metric)
     ↔ metric ∈ ["search_time"; "translation_time"; "sheets_write_time"]
       ∨ metric ∈ calls.*1)
  ∧ perf_stats (track_all (tracker_init false) calls) = ∅.
Proof.
  intros t. subst t. split; [apply track_all_window|]. split; [|split].
  - rewrite track_all_window. apply last_n_at_most.
  - apply track_all_keys.
  - by rewrite track_all_disabled.
Qed.

End TrackerFacts.

(* ===================================================================== *)
(** * The CSV sink *)
(* ===================================================================== *)

Lemma count_app c s t :
  Text.count c (s +:+ t) = (Text.count c s + Text.count c t)%nat.
Proof.
  induction s as [|a s IH]; [done|].
  rewrite app_String. simpl. rewrite IH. lia.
Qed.

Lemma lacks_app c s t : lacks c (s +:+ t) ↔ lacks c s ∧ lacks c t.
Proof. unfold lacks. rewrite count_app. lia. Qed.

Lemma lacks_String c a s : lacks c (String a s) ↔ a ≠ c ∧ lacks c s.
Proof.
  unfold lacks. simpl. destruct (decide (a = c)) as [->|Hne].
  - split; [lia|]. by intros [? _].
  - split; [|lia]. intros H. split; [done|lia].
Qed.

Lemma replace_lacks_old old new s :
  lacks old new → lacks old (Text.replace old new s).
Proof.
  intros Hnew. induction s as [|a s IH]; [done|]. simpl.
  destruct (decide (a = old)).
  - by apply lacks_app.
  - by apply lacks_String.
Qed.

Lemma replace_lacks_other c old new s :
  lacks c s → lacks c new → lacks c (Text.replace old new s).
Proof.
  intros Hs Hnew. induction s as [|a s IH]; [done|]. simpl.
  apply lacks_String in Hs as [Ha Hs].
  destruct (decide (a = old)).
  - apply lacks_app. auto.
  - apply lacks_String. auto.
Qed.

Lemma replace_absent old new s :
  lacks old s → Text.replace old new s = s.
Proof.
  induction s as [|a s IH]; [done|]. intros [Ha Hs]%lacks_String. simpl.
  destruct (decide (a = old)); [done|]. by rewrite IH.
Qed.

Lemma prefix_n_lacks c n s : lacks c s → lacks c (Str.prefix_n n s).
Proof.
  revert s. induction n as [|n IH]; intros [|a s]; simpl; try done.
  intros [Ha Hs]%lacks_String. apply lacks_String. auto.
Qed.

Lemma prefix_n_all n s : (String.length s ≤ n)%nat → Str.prefix_n n s = s.
Proof.
  revert s. induction n as [|n IH]; intros [|a s]; simpl; try done; [lia|].
  intros H. rewrite IH; [done|lia].
Qed.

Lemma prefix_n_app s t : Str.prefix_n (String.length s) (s +:+ t) = s.
Proof.
  induction s as [|a s IH]; [by destruct t|].
  rewrite app_String. simpl. by rewrite IH.
Qed.

Lemma split_on_lacks sep s : lacks sep s → Text.split_on sep s = [s].
Proof.
  induction s as [|a s IH]; [done|]. intros [Ha Hs]%lacks_String. simpl.
  destruct (decide (a = sep)); [done|]. by rewrite IH.
Qed.

Lemma split_on_app sep s rest :
  lacks sep s →
  Text.split_on sep (s +:+ String sep rest) = s :: Text.split_on sep rest.
Proof.
  induction s as [|a s IH].
  - intros _. rewrite app_empty_l. simpl. by destruct (decide (sep = sep)).
  - intros [Ha Hs]%lacks_String. rewrite app_String. simpl.
    destruct (decide (a = sep)); [done|]. by rewrite IH.
Qed.

Lemma split_on_join sep cells :
  cells ≠ [] → Forall (lacks sep) cells →
  Text.split_on sep (Text.join (String sep "") cells) = cells.
Proof.
  induction cells as [|cell cells IH]; [done|]. intros _ Hall.
  apply Forall_cons in Hall as [Hcell Hall].
  destruct cells as [|cell' cells]; [by apply split_on_lacks|].
  change (Text.join (String sep "") (cell :: cell' :: cells))
    with (cell +:+ String sep "" +:+ Text.join (String sep "") (cell' :: cells)).
  rewrite app_String, app_empty_l, split_on_app by done.
  by rewrite IH.
Qed.

Lemma join_lacks c sep cells :
  lacks c sep → Forall (lacks c) cells → lacks c (Text.join sep cells).
Proof.
  intros Hsep. induction cells as [|cell cells IH]; [done|]. intros Hall.
  apply Forall_cons in Hall as [Hcell Hall].
  destruct cells as [|cell' cells]; [done|].
  change (Text.join sep (cell :: cell' :: cells))
    with (cell +:+ sep +:+ Text.join sep (cell' :: cells)).
  rewrite !lacks_app. auto.
Qed.

Module CsvFacts.

Import Csv.

Lemma clean_cell_clean cell :
  lacks comma (clean_cell cell) ∧ lacks newline (clean_cell cell)
  ∧ lacks carriage_return (clean_cell cell)
  ∧ (String.length (clean_cell cell) ≤ 100)%nat.
Proof.
  unfold clean_cell. split; [|split; [|split]].
  - apply prefix_n_lacks.
    do 2 (apply replace_lacks_other; [|done]). by apply replace_lacks_old.
  - apply prefix_n_lacks.
    apply replace_lacks_other; [|done]. by apply replace_lacks_old.
  - apply prefix_n_lacks. by apply replace_lacks_old.
  - rewrite prefix_n_length. apply Nat.le_min_l.
Qed.

Lemma clean_cell_fixed cell :
  lacks comma cell → lacks newline cell → lacks carriage_return cell →
  (String.length cell ≤ 100)%nat → clean_cell cell = cell.
Proof.
  intros Hc Hn Hr Hlen. unfold clean_cell.
  rewrite (replace_absent comma) by done.
  rewrite (replace_absent newline) by done.
  rewrite (replace_absent carriage_return) by done.
  by apply prefix_n_all.
Qed.

Lemma csv_line_newlines row : Text.count newline (csv_line row) = 1%nat.
Proof.
  unfold csv_line. rewrite count_app.
  assert (H : lacks newline (Text.join "," (map clean_cell row))).
  { apply join_lacks; [done|]. apply Forall_forall.
    intros cell (c & <- & _)%list_elem_of_In%in_map_iff.
    apply clean_cell_clean. }
  unfold lacks in H. by rewrite H.
Qed.

Lemma read_line_csv_line row :
  row ≠ [] → read_line (csv_line row) = map clean_cell row.
Proof.
  intros Hrow. unfold read_line, csv_line.
  rewrite string_app_length. simpl.
  replace (String.length (Text.join "," (map clean_cell row)) + 1 - 1)%nat
    with (String.length (Text.join "," (map clean_cell row))) by lia.
  rewrite prefix_n_app. apply split_on_join.
  - by destruct row.
  - apply Forall_forall.
    intros cell (c & <- & _)%list_elem_of_In%in_map_iff.
    apply clean_cell_clean.
Qed.

(** X12: the line [_write_to_csv] writes for a row. Every cleaned cell is
    free of commas, line feeds and carriage returns and has at most 100
    characters; a cell that needs no cleaning is written unchanged. The
    line of a row holds exactly one line feed, its last character, so a
    row never spills over two lines; and cutting the line at its commas
    gives back the cleaned cells, one field per cell: six for every row
    [log_query] builds. *)
Theorem csv_line_format (row : Telemetry.Row) :
  Forall (λ cell, lacks comma cell ∧ lacks newline cell
                  ∧ lacks carriage_return cell
                  ∧ (String.length cell ≤ 100)%nat)
         (map clean_cell row)
  ∧ (∀ cell, lacks comma cell → lacks newline cell →
       lacks carriage_return cell → (String.length cell ≤ 100)%nat →
       clean_cell cell = cell)
  ∧ Text.count newline (csv_line row) = 1%nat
  ∧ last_char (csv_line row) = Some newline
  ∧ (row ≠ [] → read_line (csv_line row) = map clean_cell row)
  ∧ (∀ c, length (read_line (csv_line (Telemetry.row_of c))) = 6%nat).
Proof.
  split; [|split; [|split; [|split; [|split]]]].
  - apply Forall_forall.
    intros cell (c & <- & _)%list_elem_of_In%in_map_iff.
    apply clean_cell_clean.
  - apply clean_cell_fixed.
  - apply csv_line_newlines.
  - unfold csv_line. generalize (Text.join "," (map clean_cell row)).
    intros s. induction s as [|a s IH]; [done|].
    rewrite app_String. simpl. rewrite IH.
    by destruct (s +:+ String newline "") eqn:E; [destruct s|].
  - apply read_line_csv_line.
  - intros c. by rewrite read_line_csv_line.
Qed.

End CsvFacts.

Module CsvFileFacts.

Import Csv CsvFile.

Lemma csv_lines_app a b : csv_lines (a ++ b) = csv_lines a +:+ csv_lines b.
Proof.
  induction a as [|row a IH]; [done|].
  simpl. by rewrite IH, app_assoc_string.
Qed.

Lemma csv_lines_newlines written :
  Text.count newline (csv_lines written) = length written.
Proof.
  induction written as [|row written IH]; [done|].
  simpl. by rewrite count_app, CsvFacts.csv_line_newlines, IH.
Qed.

Lemma holds_intro written : holds (header +:+ csv_lines written) written.
Proof.
  split; [done|]. by rewrite count_app, csv_lines_newlines.
Qed.

Lemma write_inv ws fs w :
  log_inv ws fs → archives_inv fs →
  log_inv (ws ++ [w]) (_write_to_csv fs w)
  ∧ archives_inv (_write_to_csv fs w).
Proof.
  intros Hlog Harch.
  assert (Hrot : (log (rotate fs w) = None ∨ log (rotate fs w) = log fs)
                 ∧ archives_inv (rotate fs w)).
  { unfold rotate. destruct (log fs) as [content|] eqn:Hc; [|by split; [left|]].
    destruct (_ && _) eqn:Hbig; [|by split; [right|]].
    split; [by left|]. apply andb_true_iff in Hbig as [Hbig _].
    apply Z.ltb_lt in Hbig. apply map_Forall_insert_2; [|done].
    split; [done|]. destruct (Hlog content Hc) as (k & _ & Hk). eauto. }
  destruct Hrot as [Hrot Harch'].
  unfold log_inv, _write_to_csv in *. rewrite List.filter_app. simpl.
  destruct (open_ok w) eqn:Hopen; simpl.
  - split; [|done]. intros content' [= <-].
    destruct Hrot as [Hnone|Hsame].
    + rewrite Hnone. exists (length (List.filter open_ok ws)).
      split; [rewrite length_app; lia|].
      rewrite drop_app_length. simpl. rewrite app_nil_r. apply holds_intro.
    + rewrite Hsame. destruct (log fs) as [content|] eqn:Hc.
      * destruct (Hlog content eq_refl) as (k & Hk & [-> _]).
        exists k. split; [rewrite length_app; lia|].
        rewrite drop_app_le, fmap_app, concat_app by done. simpl.
        rewrite app_nil_r, app_assoc_string, <- csv_lines_app.
        apply holds_intro.
      * exists (length (List.filter open_ok ws)).
        split; [rewrite length_app; lia|].
        rewrite drop_app_length. simpl. rewrite app_nil_r. apply holds_intro.
  - split; [|done]. rewrite app_nil_r. intros content Hc.
    destruct Hrot as [Hnone|Hsame]; [by rewrite Hnone in Hc|].
    rewrite Hsame in Hc. by apply Hlog.
Qed.

Lemma write_all_inv ws :
  log_inv ws (write_all (mkFiles None ∅) ws)
  ∧ archives_inv (write_all (mkFiles None ∅) ws).
Proof.
  induction ws as [|w ws IH] using rev_ind.
  - split; [by intros content|]. apply map_Forall_empty.
  - unfold write_all in *. rewrite fold_left_app. simpl.
    destruct IH as [Hlog Harch]. by apply write_inv.
Qed.

(** X13: the log file stays in good order. Starting without files, after
    any sequence of [_write_to_csv] calls (whether renaming or opening
    succeeds or fails), the file [query_log.csv], when it exists, is the
    header followed by one line per row of the batches written since some
    point, in order; so the number [stats_command] reports,
    [len(lines) - 1], is the number of rows in the file. Every archived
    file is in the same good order and larger than the size limit. *)
Theorem csv_file_in_order (ws : list Write) :
  let fs := write_all (mkFiles None ∅) ws in
  (∀ content, log fs = Some content →
     ∃ k, let written :=
            concat (rows <$> drop k (List.filter open_ok ws)) in
          content = header +:+ csv_lines written
          ∧ Text.count newline content = S (length written))
  ∧ map_Forall (λ _ content,
                  size_limit < Z.of_nat (String.length content)
                  ∧ ∃ written, content = header +:+ csv_lines written
                      ∧ Text.count newline content = S (length written))
               (archives fs).
Proof.
  intros fs. subst fs. destruct (write_all_inv ws) as [Hlog Harch]. split.
  - intros content Hc. destruct (Hlog content Hc) as (k & _ & Hk). by exists k.
  - exact Harch.
Qed.

End CsvFileFacts.

(* ===================================================================== *)
(** * More observations on the telemetry buffer *)
(* ===================================================================== *)

Module TelemetryTraceFacts.

Import Telemetry TelemetryTrace.

Lemma flush_buffer_frame st append_ok :
  enabled (_flush_buffer st append_ok) = enabled st
  ∧ last_flush_time (_flush_buffer st append_ok) = last_flush_time st.
Proof.
  unfold _flush_buffer. destruct (buffer st); [done|].
  destruct (sheet st); [by destruct append_ok|done].
Qed.


(** A call that starts a flush thread comes at least five seconds after
    the recorded time of the previous start, and records its own time. *)
Lemma log_query_trigger st c :
  snd (log_query st c) = true →
  (last_flush_time st + 5 <= current_time c)%Q
  ∧ last_flush_time (log_query st c).1 = current_time c
  ∧ (5 ≤ length (buffer (log_query st c).1))%nat.
Proof.
  unfold log_query. destruct (negb (enabled st)); [done|].
  destruct (_ && _) eqn:Hcond; [|done]. intros _.
  apply andb_true_iff in Hcond as [Hfull Hwait].
  apply Nat.leb_le in Hfull. apply Qle_bool_iff in Hwait.
  unfold min_flush_interval in Hwait. simpl. split; [|split; [done|]].
  - apply (Qplus_le_l _ _ (- last_flush_time st)).
    setoid_replace (last_flush_time st + 5 + - last_flush_time st)%Q
      with 5%Q using relation Qeq by ring.
    exact Hwait.
  - exact Hfull.
Qed.

Lemma log_query_quiet st c :
  snd (log_query st c) = false →
  last_flush_time (log_query st c).1 = last_flush_time st.
Proof.
  unfold log_query. destruct (negb (enabled st)); [done|].
  by destruct (_ && _).
Qed.

(** The times in [ts], each at least five seconds after the one before,
    the first after [previous]. *)
Lemma trigger_times_spaced trace : ∀ st i a b,
  (last_flush_time st :: trigger_times st trace) !! i = Some a →
  (last_flush_time st :: trigger_times st trace) !! S i = Some b →
  (a + 5 <= b)%Q.
Proof.
  induction trace as [|e trace IH]; intros st i a b Ha Hb.
  { simpl in Hb. by rewrite lookup_nil in Hb. }
  destruct e as [c|ok]; cbn [trigger_times] in *.
  - destruct (snd (log_query st c)) eqn:Hstart.
    + destruct (log_query_trigger st c Hstart) as (Hwait & Hlast & _).
      cbn [app] in *. destruct i as [|i].
      * simpl in Ha, Hb. by simplify_eq.
      * apply (IH (step st (Log c)) i); cbn [step]; by rewrite Hlast.
    + cbn [app] in *. apply (IH (step st (Log c)) i); cbn [step];
        by rewrite (log_query_quiet st c Hstart).
  - cbn [app] in *. apply (IH (step st (Flush ok)) i); cbn [step];
      by rewrite (proj2 (flush_buffer_frame st ok)).
Qed.

Lemma trigger_times_last trace : ∀ st,
  last (last_flush_time st :: trigger_times st trace)
  = Some (last_flush_time (run st trace)).
Proof.
  induction trace as [|e trace IH]; intros st; [done|].
  change (run st (e :: trace)) with (run (step st e) trace).
  rewrite <- IH. destruct e as [c|ok]; cbn [trigger_times].
  - destruct (snd (log_query st c)) eqn:Hstart; cbn [app step].
    + destruct (log_query_trigger st c Hstart) as (_ & -> & _). done.
    + by rewrite (log_query_quiet st c Hstart).
  - cbn [app step]. by rewrite (proj2 (flush_buffer_frame st ok)).
Qed.

(** X14: the rate limit of [log_query]. Over any sequence of [log_query]
    and [_flush_buffer] calls from any state, the calls that start a flush
    thread are spaced: each comes at least five seconds (by the clock
    readings of the calls) after the one before, the first at least five
    seconds after the recorded [last_flush_time]; the time recorded at the
    end is that of the last such call; and [_flush_buffer] itself (the
    30-second timer included) never moves the recorded time. *)
Theorem flush_starts_spaced (st : Logger) (trace : list event) :
  let times := last_flush_time st :: trigger_times st trace in
  (∀ i a b, times !! i = Some a → times !! S i = Some b → (a + 5 <= b)%Q)
  ∧ last times = Some (last_flush_time (run st trace))
  ∧ (∀ c, snd (log_query st c) = true →
       (5 ≤ length (buffer (log_query st c).1))%nat)
  ∧ (∀ append_ok,
       last_flush_time (_flush_buffer st append_ok) = last_flush_time st).
Proof.
  intros times. subst times. split; [|split; [|split]].
  - apply trigger_times_spaced.
  - apply trigger_times_last.
  - intros c Hc. by apply log_query_trigger.
  - intros ok. apply flush_buffer_frame.
Qed.

Lemma row_of_ok c : row_ok (row_of c).
Proof.
  unfold row_ok, row_of. do 6 eexists. split; [done|].
  rewrite !prefix_n_length. lia.
Qed.

Lemma last_n_Forall {A} (P : A → Prop) n (xs : list A) :
  Forall P xs → Forall P (last_n n xs).
Proof. unfold last_n. apply Forall_drop. Qed.

Lemma step_rows_ok st e : rows_ok st → rows_ok (step st e).
Proof.
  intros Hst. pose proof Hst as (Hb & Hs & Hc).
  destruct e as [c|ok]; cbn [step].
  - unfold log_query. destruct (negb (enabled st)); [done|].
    assert (Hb' : Forall row_ok
              ((if (50 <? length (buffer st))%nat
                then last_n 25 (buffer st) else buffer st) ++ [row_of c])).
    { apply Forall_app. split.
      - destruct (50 <? _)%nat; [by apply last_n_Forall|done].
      - repeat constructor. apply row_of_ok. }
    by destruct (_ && _).
  - unfold _flush_buffer. destruct (buffer st) as [|row rest] eqn:Hbuf; [done|].
    assert (Hbatch : Forall (Forall row_ok) [row :: rest])
      by (constructor; [exact Hb|constructor]).
    destruct (sheet st); [destruct ok|]; unfold rows_ok; simpl;
      rewrite ?Forall_app; by repeat split.
Qed.

Lemma run_rows_ok trace : ∀ st, rows_ok st → rows_ok (run st trace).
Proof.
  induction trace as [|e trace IH]; intros st Hst; [done|].
  change (run st (e :: trace)) with (run (step st e) trace).
  by apply IH, step_rows_ok.
Qed.

(** X15: the shape of the rows. Over any sequence of [log_query] and
    [_flush_buffer] calls on a new logger, every row in the buffer and
    every row of every batch handed to the worksheet or to the CSV sink
    has exactly six cells (one per column of the header), with the query
    cut at 80 characters, the framework at 20 and the path at 30; and no
    batch handed to a sink is empty. *)
Theorem rows_well_formed (sheets_enabled sheet_connected : bool)
    (trace : list event) :
  let st := run (init sheets_enabled sheet_connected) trace in
  Forall row_ok (buffer st)
  ∧ Forall (λ batch, batch ≠ [] ∧ Forall row_ok batch) (sheet_calls st)
  ∧ Forall (λ batch, batch ≠ [] ∧ Forall row_ok batch) (csv_calls st).
Proof.
  intros st. subst st.
  assert (Hne : ∀ tr st0,
            Forall (λ batch : list Row, batch ≠ []) (sheet_calls st0) →
            Forall (λ batch : list Row, batch ≠ []) (csv_calls st0) →
            Forall (λ batch : list Row, batch ≠ []) (sheet_calls (run st0 tr))
            ∧ Forall (λ batch : list Row, batch ≠ []) (csv_calls (run st0 tr))).
  { induction tr as [|e tr IH]; intros st0 Hs Hc; [done|].
    change (run st0 (e :: tr)) with (run (step st0 e) tr).
    apply IH; destruct e as [c|ok]; cbn [step].
    - by destruct (TelemetryFacts.log_query_frame st0 c) as (_ & _ & _ & -> & _).
    - unfold _flush_buffer.
      destruct (buffer st0) as [|row rest] eqn:Hbuf; [done|].
      destruct (sheet st0); [destruct ok|]; simpl; try done;
        apply Forall_app; split; try done; by repeat constructor.
    - by destruct (TelemetryFacts.log_query_frame st0 c) as (_ & _ & _ & _ & ->).
    - unfold _flush_buffer.
      destruct (buffer st0) as [|row rest] eqn:Hbuf; [done|].
      destruct (sheet st0); [destruct ok|]; simpl; try done;
        apply Forall_app; split; try done; by repeat constructor. }
  destruct (run_rows_ok trace (init sheets_enabled sheet_connected))
    as (Hb & Hs & Hc).
  { by repeat split. }
  destruct (Hne trace (init sheets_enabled sheet_connected)) as [Hs' Hc'];
    [done..|].
  split; [done|]. split.
  - apply Forall_forall. intros batch Hin. split.
    + by apply (proj1 (Forall_forall _ _) Hs').
    + by apply (proj1 (Forall_forall _ _) Hs).
  - apply Forall_forall. intros batch Hin. split.
    + by apply (proj1 (Forall_forall _ _) Hc').
    + by apply (proj1 (Forall_forall _ _) Hc).
Qed.





End TelemetryTraceFacts.

(* ===================================================================== *)
(** * The uptime shown *)
(* ===================================================================== *)

From Stdlib Require Import Lqa.

Lemma floor_bounds x y :
  (0 < y)%Q →
  (y * inject_Z (Qfloor (x / y)) <= x)%Q
  ∧ (x < y * inject_Z (Qfloor (x / y) + 1))%Q.
Proof.
  intros Hy.
  assert (Hne : ¬ (y == 0)%Q)
    by (intros H; rewrite H in Hy; by apply Qlt_irrefl in Hy).
  pose proof (Qfloor_le (x / y)) as Hlo.
  pose proof (Qlt_floor (x / y)) as Hhi.
  split.
  - rewrite <- (Qmult_div_r x y Hne) at 2. by apply Qmult_le_l.
  - rewrite <- (Qmult_div_r x y Hne) at 1. by apply Qmult_lt_l.
Qed.

(** X17: the uptime [health_command] shows. For every uptime the minutes
    lie between 0 and 59 and the hours and minutes shown are the uptime
    rounded down to the minute: 3600 h + 60 m <= uptime < 3600 h + 60 m
    + 60. For an uptime that is not negative the hours are not negative
    and agree with the hours [stats_command] shows. *)
Theorem health_uptime_exact (uptime_seconds : Q) :
  let hours := (Uptime.health_uptime uptime_seconds).1 in
  let minutes := (Uptime.health_uptime uptime_seconds).2 in
  0 ≤ minutes ≤ 59
  ∧ (inject_Z (3600 * hours + 60 * minutes) <= uptime_seconds)%Q
  ∧ (uptime_seconds < inject_Z (3600 * hours + 60 * minutes + 60))%Q
  ∧ ((0 <= uptime_seconds)%Q →
     0 ≤ hours ∧ Uptime.stats_hours uptime_seconds = hours).
Proof.
  intros hours minutes. subst hours minutes.
  unfold Uptime.health_uptime, Uptime.modulo, Uptime.floordiv. cbn [fst snd].
  rewrite !py_int_inject_Z.
  set (h := Qfloor (uptime_seconds / 3600)).
  set (rest := (uptime_seconds - 3600 * inject_Z h)%Q).
  set (m := Qfloor (rest / 60)).
  destruct (floor_bounds uptime_seconds 3600 ltac:(done)) as [Hh1 Hh2].
  fold h in Hh1, Hh2.
  destruct (floor_bounds rest 60 ltac:(done)) as [Hm1 Hm2]. fold m in Hm1, Hm2.
  rewrite inject_Z_plus in Hh2, Hm2.
  change (inject_Z 1) with 1%Q in Hh2, Hm2.
  assert (Hrest : (0 <= rest)%Q ∧ (rest < 3600)%Q) by (unfold rest; lra).
  assert (Hm : 0 ≤ m ≤ 59).
  { assert (H1 : (inject_Z (-1) < inject_Z m)%Q)
      by (change (inject_Z (-1)) with (-1)%Q; lra).
    assert (H2 : (inject_Z m < inject_Z 60)%Q)
      by (change (inject_Z 60) with 60%Q; lra).
    rewrite <- Zlt_Qlt in H1, H2. lia. }
  split; [done|].
  rewrite !inject_Z_plus, !inject_Z_mult.
  change (inject_Z 3600) with 3600%Q. change (inject_Z 60) with 60%Q.
  split; [unfold rest in *; lra|]. split; [unfold rest in *; lra|].
  intros Hpos. split.
  - assert (H1 : (inject_Z (-1) < inject_Z h)%Q)
      by (change (inject_Z (-1)) with (-1)%Q; lra).
    rewrite <- Zlt_Qlt in H1. lia.
  - unfold Uptime.stats_hours. apply py_int_truncates.
    unfold Qdiv. apply Qmult_le_0_compat; [done|]. done.
Qed.

(* ===================================================================== *)
(** * Where a match lies *)
(* ===================================================================== *)

Lemma elem_of_concat_imap {A B} (f : nat → A → list B) (l : list A) (y : B) :
  y ∈ concat (imap f l) → ∃ i x, l !! i = Some x ∧ y ∈ f i x.
Proof.
  revert f. induction l as [|a l IH]; intros f; simpl.
  - by intros ?%elem_of_nil.
  - intros [Hy|Hy]%elem_of_app.
    + by exists 0%nat, a.
    + destruct (IH _ Hy) as (i & x & Hi & Hx). by exists (S i), x.
Qed.

Lemma key_steps_cons_key key route :
  key_steps (Key key :: route) = 1 + key_steps route.
Proof. unfold key_steps. simpl. lia. Qed.

Lemma key_steps_cons_index i route :
  key_steps (Index i :: route) = key_steps route.
Proof. done. Qed.

(** Every match of a traversal that starts at [obj] with path [path] and
    depth [depth] lies on a route from [obj]. *)
Lemma search_json_route partial_ratio obj : ∀ query path depth max_depth m,
  m ∈ search_json partial_ratio obj query path depth max_depth →
  ∃ route, m_path m = render_from path route
    ∧ resolves obj route (m_content m)
    ∧ m_depth m ≤ depth + key_steps route ≤ m_depth m + 1.
Proof.
  induction obj as [| | | |elems IH|members IH] using json_nested_ind;
    intros query path depth max_depth m;
    destruct (decide (depth > max_depth)) as [Hd|Hd];
    try (rewrite search_json_too_deep by done; by intros ?%elem_of_nil);
    try (rewrite search_json_other by done; by intros ?%elem_of_nil).
  - rewrite search_json_JStr by lia.
    destruct (decide _); [|by intros ?%elem_of_nil].
    intros ->%list_elem_of_singleton. exists []. simpl.
    split; [done|]. split; [constructor|]. unfold key_steps. simpl. lia.
  - rewrite search_json_JArr by lia.
    intros (i & item & Hi & Hm)%elem_of_concat_imap.
    rewrite Forall_forall in IH.
    destruct (IH item (list_elem_of_lookup_2 _ _ _ Hi) _ _ _ _ _ Hm)
      as (route & Hpath & Hres & Hdepth).
    exists (Index i :: route). split; [done|].
    split; [by econstructor|]. by rewrite key_steps_cons_index.
  - rewrite search_json_JObj by lia.
    intros ([key value] & Hin & Hm)%elem_of_flat_map.
    unfold member_matches in Hm. apply elem_of_app in Hm as [Hm|Hm].
    + destruct (decide _); [|by apply elem_of_nil in Hm].
      apply list_elem_of_singleton in Hm as ->.
      exists [Key key]. simpl. split; [done|].
      split; [econstructor; [done|constructor]|].
      rewrite key_steps_cons_key. unfold key_steps. simpl. lia.
    + rewrite Forall_forall in IH.
      destruct (IH (key, value) Hin _ _ _ _ _ Hm)
        as (route & Hpath & Hres & Hdepth).
      exists (Key key :: route). split; [done|].
      split; [by econstructor|]. rewrite key_steps_cons_key. lia.
Qed.

(** X18: a match lies where its path says. Every match [search_json]
    reports comes with a route from the root of the document (keys of
    objects, positions in arrays): the reported path is that route written
    out, keys joined by " > " and positions in brackets; following the
    route in the document leads to the reported content; and the reported
    depth is the number of object levels of the route, or one less (for
    the match of a key). The same holds for every entry [search_standard]
    returns, in the corpus of its standard. *)
Theorem search_json_located (partial_ratio : string → string → Q) :
  (∀ obj query max_depth,
     Forall (λ m, ∃ route, m_path m = render_from "" route
                    ∧ resolves obj route (m_content m)
                    ∧ m_depth m ≤ key_steps route ≤ m_depth m + 1)
            (search_json partial_ratio obj query "" 0 max_depth))
  ∧ (∀ CONCEPTS set_order STANDARDS standard_name query limit,
       Forall (λ r, ∃ corpus route,
                      STANDARDS !! standard_name = Some corpus
                      ∧ r_path r = render_from "" route
                      ∧ resolves corpus route (r_content r)
                      ∧ r_depth r ≤ key_steps route ≤ r_depth r + 1)
              (search_standard partial_ratio CONCEPTS set_order STANDARDS
                 standard_name query limit)).
Proof.
  split.
  - intros obj query max_depth. apply Forall_forall. intros m Hm.
    destruct (search_json_route _ _ _ _ _ _ _ Hm)
      as (route & Hpath & Hres & Hdepth).
    exists route. split; [done|]. split; [done|]. lia.
  - intros CONCEPTS set_order STANDARDS standard_name query limit.
    apply Forall_forall.
    intros r (corpus & q & m & Hcorpus & _ & Hm & ->)%elem_of_search_standard.
    destruct (search_json_route _ _ _ _ _ _ _ Hm)
      as (route & Hpath & Hres & Hdepth).
    exists corpus, route. simpl. split; [done|]. split; [done|].
    split; [done|]. lia.
Qed.

(* ===================================================================== *)
(** * The path shown *)
(* ===================================================================== *)

Lemma rstrip_fixed s c :
  last_char s = Some c → Str.isspace c = false → Text.rstrip s = s.
Proof.
  induction s as [|a s IH]; [done|]. intros Hlast Hc.
  destruct s as [|b s].
  - simpl in *. injection Hlast as ->. by rewrite Hc.
  - change (last_char (String a (String b s))) with (last_char (String b s))
      in Hlast.
    specialize (IH Hlast Hc).
    change (Text.rstrip (String a (String b s)))
      with (match Text.rstrip (String b s) with
            | EmptyString =>
                if Str.isspace a then EmptyString else String a EmptyString
            | kept => String a kept
            end).
    by rewrite IH.
Qed.

Lemma rstrip_app_space s : Text.rstrip (s +:+ " ") = Text.rstrip s.
Proof.
  induction s as [|a s IH]; [done|].
  rewrite app_String. simpl. by rewrite IH.
Qed.

Lemma first_char_app s t c :
  first_char s = Some c → first_char (s +:+ t) = Some c.
Proof. destruct s; [done|]. by rewrite app_String. Qed.

Module PathDisplayFacts.

Import PathDisplay.

Lemma clean_key_nonempty key : clean_key key → key ≠ "".
Proof. intros (_ & (c & Hc & _) & _) ->. done. Qed.

(** A clean key with a blank before it, after it, or both, strips to the
    key. *)
Lemma strip_padded pre key post :
  clean_key key → pre = "" ∨ pre = " " → post = "" ∨ post = " " →
  Text.strip (pre +:+ key +:+ post) = key.
Proof.
  intros (_ & (c & Hfirst & Hc) & (d & Hlast & Hd)) Hpre Hpost.
  unfold Text.strip.
  assert (Hl : Text.lstrip (pre +:+ key +:+ post) = key +:+ post).
  { assert (Hk : Text.lstrip (key +:+ post) = key +:+ post).
    { apply lstrip_fixed. intros c' Hc'.
      rewrite (first_char_app key post c Hfirst) in Hc'. by injection Hc' as <-. }
    destruct Hpre as [-> | ->]; [by rewrite app_empty_l|].
    rewrite app_String, app_empty_l. simpl. exact Hk. }
  rewrite Hl. destruct Hpost as [-> | ->].
  - rewrite app_empty_r. by apply (rstrip_fixed key d).
  - rewrite rstrip_app_space. by apply (rstrip_fixed key d).
Qed.

Lemma lacks_padded pre key post :
  clean_key key → pre = "" ∨ pre = " " → post = "" ∨ post = " " →
  lacks ">" (pre +:+ key +:+ post).
Proof.
  intros (Hk & _) Hpre Hpost. rewrite !lacks_app.
  split; [by destruct Hpre as [-> | ->]|].
  split; [done|by destruct Hpost as [-> | ->]].
Qed.

(** The path of a route through objects only: the keys joined by
    [" > "]. *)
Lemma render_keys path keys :
  path ≠ "" → Forall clean_key keys →
  render_from path (map Key keys) = Text.join " > " (path :: keys).
Proof.
  revert path. induction keys as [|key keys IH]; intros path Hpath Hkeys.
  { done. }
  apply Forall_cons in Hkeys as [Hkey Hkeys].
  change (render_from path (map Key (key :: keys)))
    with (render_from (key_path path key) (map Key keys)).
  assert (Hstep : key_path path key = path +:+ " > " +:+ key)
    by by destruct path.
  rewrite Hstep, IH; [|by destruct path|done].
  destruct keys as [|key' keys]; [done|].
  change (Text.join " > " ((path +:+ " > " +:+ key) :: key' :: keys))
    with ((path +:+ " > " +:+ key) +:+ " > " +:+ Text.join " > " (key' :: keys)).
  change (Text.join " > " (path :: key :: key' :: keys))
    with (path +:+ " > " +:+ (key +:+ " > " +:+ Text.join " > " (key' :: keys))).
  by rewrite !app_assoc_string.
Qed.

Lemma render_keys_root keys :
  Forall clean_key keys →
  render_from "" (map Key keys) = Text.join " > " keys.
Proof.
  destruct keys as [|key keys]; [done|]. intros Hkeys.
  change (render_from "" (map Key (key :: keys)))
    with (render_from key (map Key keys)).
  apply render_keys.
  - apply clean_key_nonempty. by apply Forall_cons in Hkeys as [? _].
  - by apply Forall_cons in Hkeys as [_ ?].
Qed.

(** Cutting the joined keys at [>] and stripping gives the keys back. *)
Lemma split_joined pre keys :
  pre = "" ∨ pre = " " → keys ≠ [] → Forall clean_key keys →
  length (Text.split_on ">" (pre +:+ Text.join " > " keys)) = length keys
  ∧ map Text.strip (Text.split_on ">" (pre +:+ Text.join " > " keys)) = keys.
Proof.
  revert pre. induction keys as [|key keys IH]; intros pre Hpre Hne Hkeys;
    [done|].
  apply Forall_cons in Hkeys as [Hkey Hkeys].
  destruct keys as [|key' keys].
  - change (Text.join " > " [key]) with key.
    rewrite split_on_lacks.
    + simpl. split; [done|]. f_equal.
      rewrite <- (app_empty_r (pre +:+ key)), app_assoc_string.
      apply strip_padded; auto.
    + rewrite <- (app_empty_r (pre +:+ key)), app_assoc_string.
      apply lacks_padded; auto.
  - change (Text.join " > " (key :: key' :: keys))
      with (key +:+ " > " +:+ Text.join " > " (key' :: keys)).
    assert (Hcut : pre +:+ key +:+ " > " +:+ Text.join " > " (key' :: keys)
                   = (pre +:+ key +:+ " ")
                     +:+ String ">" (" " +:+ Text.join " > " (key' :: keys))).
    { rewrite !app_assoc_string. do 2 f_equal. }
    rewrite Hcut, split_on_app by (apply lacks_padded; auto).
    destruct (IH " " ltac:(by right) ltac:(done) Hkeys) as [Hlen Hmap].
    cbn [length map]. rewrite Hlen, Hmap. split; [done|]. f_equal.
    apply strip_padded; auto.
Qed.

Lemma kept_parts_clean parts keys :
  map Text.strip parts = keys → Forall clean_key keys →
  kept_parts parts = keys.
Proof.
  unfold kept_parts. intros -> Hkeys.
  induction Hkeys as [|key keys Hkey _ IH]; [done|].
  simpl. rewrite IH.
  destruct key; [|done]. by destruct (clean_key_nonempty _ Hkey).
Qed.

(** X19: the path the handlers show. Whatever the path, the parts
    [handle_standard] and [map_command] keep are stripped and not empty.
    For a match reached through objects only, by keys that contain no [>]
    and neither start nor end with white space, the parts kept are exactly
    the keys from the root to the match, in order: [handle_standard] shows
    them joined by arrows, [map_command] the first three of them. *)
Theorem clean_path_keys (keys : list string) :
  Forall clean_key keys → keys ≠ [] →
  let path := render_from "" (map Key keys) in
  kept_parts (Text.split_on ">" path) = keys
  ∧ clean_path path = Text.join arrow keys
  ∧ clean_path_3 path = Text.join arrow (take 3 keys)
  ∧ (∀ any, Forall (λ part, part ≠ "" ∧ Text.strip part = part)
                   (kept_parts (Text.split_on ">" any))).
Proof.
  intros Hkeys Hne path. subst path. rewrite render_keys_root by done.
  destruct (split_joined "" keys ltac:(by left) Hne Hkeys) as [Hlen Hmap].
  rewrite app_empty_l in Hlen, Hmap.
  assert (Hkept : kept_parts (Text.split_on ">" (Text.join " > " keys)) = keys)
    by by apply kept_parts_clean.
  split; [done|]. split; [unfold clean_path; by rewrite Hkept|]. split.
  - unfold clean_path_3. f_equal. apply kept_parts_clean.
    + change (map Text.strip ?l) with (Text.strip <$> l).
      rewrite fmap_take. by f_equal.
    + by apply Forall_take.
  - intros any. unfold kept_parts. apply Forall_forall.
    intros part [Hin Hpart]%elem_of_List_filter.
    apply list_elem_of_In, in_map_iff in Hin as (p & <- & _).
    split; [by destruct (Text.strip p)|apply strip_idem].
Qed.

End PathDisplayFacts.

Lemma clean_path_keys_witness :
  Forall PathDisplay.clean_key ["Emissions"; "Scope 3"]
  ∧ ["Emissions"; "Scope 3"] ≠ []
  ∧ PathDisplay.clean_path
      (render_from "" (map Key ["Emissions"; "Scope 3"]))
    = Text.join PathDisplay.arrow ["Emissions"; "Scope 3"].
Proof.
  assert (Hkeys : Forall PathDisplay.clean_key ["Emissions"; "Scope 3"]).
  { repeat constructor; try reflexivity.
    - by exists "E"%char.
    - by exists "s"%char.
    - by exists "S"%char.
    - by exists "3"%char. }
  split; [exact Hkeys|]. split; [discriminate|].
  apply (PathDisplayFacts.clean_path_keys ["Emissions"; "Scope 3"] Hkeys).
  discriminate.
Defined.
